(** * temap: a timed map with a min-expiry heap and a background cleaner

    Shallow embedding of the two heap-based revisions of the Go package
    (package [temap]: the map, its heap and its cleaner; package [main]: the
    same map with a bounded worker pool for expiration callbacks), of the
    control of their goroutines, and of the timer-based [TTLMap], with the
    properties of the specification and further properties of the code.

    Conventions.
    - Go's [*element] pointers are addresses [ptr] into a store of element
      cells ([elems]); the map [items] and the slice [expHeap] hold addresses,
      so that the aliasing between the two is the one of the program.
    - [int], [int64] are [Z]; [uint64] counters are [Z] with the wrap-around
      of [++] written out.
    - A run-time panic (index out of range, nil dereference, call of a nil
      func) is the outcome [Panic]; loops of [container/heap] are unrolled
      with a fuel argument and [OutOfFuel] is a separate outcome, so that an
      [Ok] result is a result the program really returns.
    - Locks protect the critical sections of the program; the operations
      below are the bodies of those critical sections. *)

From Stdlib Require Import ZArith Lia ZifyNat.
From stdpp Require Import prelude gmap strings.

Local Open Scope Z_scope.

(** ** Outcomes of a Go call *)

Inductive result (A : Type) : Type :=
  | Ok (a : A)
  | Panic
  | OutOfFuel.
Arguments Ok {A} a.
Arguments Panic {A}.
Arguments OutOfFuel {A}.

#[global] Instance result_ret : MRet result := fun A a => Ok a.
#[global] Instance result_bind : MBind result := fun A B f m =>
  match m with
  | Ok a => f a
  | Panic => Panic
  | OutOfFuel => OutOfFuel
  end.
#[global] Instance result_fmap : FMap result := fun A B f m =>
  match m with
  | Ok a => Ok (f a)
  | Panic => Panic
  | OutOfFuel => OutOfFuel
  end.

(** ** Machine integers *)

Definition wrap_uint64 (z : Z) : Z := z mod 2 ^ 64.
Definition wrap_int64 (z : Z) : Z := (z + 2 ^ 63) mod 2 ^ 64 - 2 ^ 63.

(** [x++] on a [uint64]. *)
Definition incr (x : Z) : Z := wrap_uint64 (x + 1).

(** ** The part of package [time] the map uses

    A [time.Time] is an instant, counted here in nanoseconds since the Unix
    epoch; a [time.Duration] is a number of nanoseconds. *)
Module time.
Definition Time : Type := Z.
Definition Duration : Type := Z.

(** January 1, year 1, 00:00:00 UTC, the zero value of [time.Time]. *)
Definition zero : Time := -62135596800 * 1000000000.

Definition IsZero (t : Time) : bool := bool_decide (t = zero).
Definition UnixNano (t : Time) : Z := wrap_int64 t.
Definition Add (t : Time) (d : Duration) : Time := t + d.

(** [t.Sub(u)] saturates at the bounds of [Duration];
    [time.Until(t)] is [t.Sub(time.Now())], [now] being the clock it reads. *)
Definition Sub (t u : Time) : Duration :=
  Z.max (- 2 ^ 63) (Z.min (2 ^ 63 - 1) (t - u)).
Definition Until (t now : Time) : Duration := Sub t now.
Definition Unix (sec nsec : Z) : Time := sec * 1000000000 + nsec.
End time.

Definition ElementDoesntExist : Z := -1.
Definition ElementPermanent : Z := 0.

(** ** Internal element and heap *)

Definition ptr : Type := nat.

Record element (K V : Type) : Type := mkElement {
  Key : K;
  Value : V;
  ExpiresAt : Z;
  index : Z
}.
Arguments mkElement {K V} _ _ _ _.
Arguments Key {K V} _.
Arguments Value {K V} _.
Arguments ExpiresAt {K V} _.
Arguments index {K V} _.

Abbreviation expiryHeap := (list ptr).
Abbreviation cells K V := (gmap ptr (element K V)).

Section element_ops.
Context {K V : Type}.
Implicit Types (e : element K V) (m : cells K V) (h : expiryHeap) (p : ptr).

Definition set_Value (v : V) e : element K V :=
  mkElement (Key e) v (ExpiresAt e) (index e).
Definition set_ExpiresAt (x : Z) e : element K V :=
  mkElement (Key e) (Value e) x (index e).
Definition set_index (i : Z) e : element K V :=
  mkElement (Key e) (Value e) (ExpiresAt e) i.

(** [*p] *)
Definition deref m p : result (element K V) :=
  match m !! p with
  | Some e => Ok e
  | None => Panic
  end.

(** [p.f = x] for a field update [upd] *)
Definition assign m p (upd : element K V -> element K V) : result (cells K V) :=
  e ← deref m p; Ok (<[p := upd e]> m).

(** [h[i]], with Go's bounds check *)
Definition at_index h (i : Z) : result ptr :=
  if bool_decide (0 <= i < Z.of_nat (length h)) then
    match h !! Z.to_nat i with
    | Some p => Ok p
    | None => Panic
    end
  else Panic.
End element_ops.

(** *** The methods of [expiryHeap] (the [heap.Interface] instance) *)
Module ExpiryHeap.
Section methods.
Context {K V : Type}.
Implicit Types (m : cells K V) (h : expiryHeap) (p : ptr).

Definition Len h : Z := Z.of_nat (length h).

Definition Less h m (i j : Z) : result bool :=
  pi ← at_index h i;
  pj ← at_index h j;
  ei ← deref m pi;
  ej ← deref m pj;
  Ok (bool_decide (ExpiresAt ei < ExpiresAt ej)).

Definition Swap h m (i j : Z) : result (expiryHeap * cells K V) :=
  pi ← at_index h i;
  pj ← at_index h j;
  let h' := <[Z.to_nat j := pi]> (<[Z.to_nat i := pj]> h) in
  hi ← at_index h' i;
  m1 ← assign m hi (set_index i);
  hj ← at_index h' j;
  m2 ← assign m1 hj (set_index j);
  Ok (h', m2).

Definition Push h m (x : ptr) : result (expiryHeap * cells K V) :=
  m' ← assign m x (set_index (Len h));
  Ok (h ++ [x], m').

Definition Pop h m : result (expiryHeap * cells K V * ptr) :=
  let n := Len h in
  el ← at_index h (n - 1);
  m' ← assign m el (set_index (-1));
  Ok (take (Z.to_nat (n - 1)) h, m', el).
End methods.
End ExpiryHeap.

(** *** Go's [container/heap], instantiated at [expiryHeap]

    The standard library's functions, written over the methods above.
    [(j - 1) / 2] is Go's truncated division ([Z.quot]). *)
Module heap.
Section algorithms.
Context {K V : Type}.
Implicit Types (m : cells K V) (h : expiryHeap) (p : ptr).

Fixpoint up_loop (fuel : nat) h m (j : Z) : result (expiryHeap * cells K V) :=
  match fuel with
  | O => OutOfFuel
  | S fuel' =>
      let i := Z.quot (j - 1) 2 in
      if bool_decide (i = j) then Ok (h, m) else
      lt ← ExpiryHeap.Less h m j i;
      if negb lt then Ok (h, m) else
      '(h', m') ← ExpiryHeap.Swap h m i j;
      up_loop fuel' h' m' i
  end.

Definition up h m (j : Z) : result (expiryHeap * cells K V) :=
  up_loop (S (length h)) h m j.

(** [j := j1; if j2 := j1 + 1; j2 < n && h.Less(j2, j1) { j = j2 }] *)
Definition smaller_child h m (j1 n : Z) : result Z :=
  let j2 := j1 + 1 in
  if bool_decide (j2 < n) then
    lt ← ExpiryHeap.Less h m j2 j1;
    Ok (if (lt : bool) then j2 else j1)
  else Ok j1.

(** The loop of [down]; the result carries the final [i]. *)
Fixpoint down_loop (fuel : nat) h m (i n : Z) : result (expiryHeap * cells K V * Z) :=
  match fuel with
  | O => OutOfFuel
  | S fuel' =>
      let j1 := 2 * i + 1 in
      if bool_decide (j1 >= n \/ j1 < 0) then Ok (h, m, i) else
      j ← smaller_child h m j1 n;
      lt ← ExpiryHeap.Less h m j i;
      if negb lt then Ok (h, m, i) else
      '(h', m') ← ExpiryHeap.Swap h m i j;
      down_loop fuel' h' m' j n
  end.

Definition down h m (i0 n : Z) : result (expiryHeap * cells K V * bool) :=
  '(h', m', i) ← down_loop (S (length h)) h m i0 n;
  Ok (h', m', bool_decide (i > i0)).

(** [for i := n/2 - 1; i >= 0; i-- { down(h, i, n) }], [k] counting the
    iterations left. *)
Fixpoint Init_loop (k : nat) h m (n : Z) : result (expiryHeap * cells K V) :=
  match k with
  | O => Ok (h, m)
  | S k' =>
      '(h', m', _) ← down h m (Z.of_nat k') n;
      Init_loop k' h' m' n
  end.

Definition Init h m : result (expiryHeap * cells K V) :=
  let n := ExpiryHeap.Len h in
  Init_loop (Z.to_nat (Z.quot n 2)) h m n.

Definition Push h m (x : ptr) : result (expiryHeap * cells K V) :=
  '(h', m') ← ExpiryHeap.Push h m x;
  up h' m' (ExpiryHeap.Len h' - 1).

Definition Pop h m : result (expiryHeap * cells K V * ptr) :=
  let n := ExpiryHeap.Len h - 1 in
  '(h1, m1) ← ExpiryHeap.Swap h m 0 n;
  '(h2, m2, _) ← down h1 m1 0 n;
  ExpiryHeap.Pop h2 m2.

Definition Remove h m (i : Z) : result (expiryHeap * cells K V * ptr) :=
  let n := ExpiryHeap.Len h - 1 in
  '(h2, m2) ←
    (if bool_decide (n <> i) then
       '(h1, m1) ← ExpiryHeap.Swap h m i n;
       '(h1', m1', moved) ← down h1 m1 i n;
       if negb moved then up h1' m1' i else Ok (h1', m1')
     else Ok (h, m));
  ExpiryHeap.Pop h2 m2.

Definition Fix h m (i : Z) : result (expiryHeap * cells K V) :=
  '(h', m', moved) ← down h m i (ExpiryHeap.Len h);
  if negb moved then up h' m' i else Ok (h', m').
End algorithms.
End heap.

(** ** TimedMap *)

(** The anonymous struct of the field [stats]. *)
Record counters : Type := mkCounters {
  added : Z;
  removed : Z;
  expired : Z;
  permanent : Z
}.

(** The struct, without its channels and wait groups. [elems] holds the
    element cells that [items] and [expHeap] point to. *)
Record TimedMap (K V : Type) `{Countable K} : Type := mkTimedMap {
  items : gmap K ptr;
  expHeap : expiryHeap;
  elems : cells K V;
  onExpire : option (K -> V -> unit);
  stats : counters
}.
Arguments mkTimedMap {K V _ _} _ _ _ _ _.
Arguments items {K V _ _} _.
Arguments expHeap {K V _ _} _.
Arguments elems {K V _ _} _.
Arguments onExpire {K V _ _} _.
Arguments stats {K V _ _} _.

Section common.
Context {K V : Type} `{Countable K}.
Implicit Types (t : TimedMap K V) (key : K) (value : V).

Definition added_incr (s : counters) : counters :=
  mkCounters (incr (added s)) (removed s) (expired s) (permanent s).
Definition removed_incr (s : counters) : counters :=
  mkCounters (added s) (incr (removed s)) (expired s) (permanent s).
Definition expired_incr (s : counters) : counters :=
  mkCounters (added s) (removed s) (incr (expired s)) (permanent s).
Definition permanent_incr (s : counters) : counters :=
  mkCounters (added s) (removed s) (expired s) (incr (permanent s)).

Definition with_items (i : gmap K ptr) t : TimedMap K V :=
  mkTimedMap i (expHeap t) (elems t) (onExpire t) (stats t).
Definition with_heap (h : expiryHeap) (m : cells K V) t : TimedMap K V :=
  mkTimedMap (items t) h m (onExpire t) (stats t).
Definition with_elems (m : cells K V) t : TimedMap K V :=
  mkTimedMap (items t) (expHeap t) m (onExpire t) (stats t).
Definition with_stats (s : counters) t : TimedMap K V :=
  mkTimedMap (items t) (expHeap t) (elems t) (onExpire t) s.

(** [&element{...}]: a cell at an address not in use. *)
Definition new_element (m : cells K V) (e : element K V) : ptr * cells K V :=
  let p := fresh (dom m) in (p, <[p := e]> m).

(** The map part of [New]: empty map, empty heap ([heap.Init] of an empty
    heap does nothing), counters at zero. *)
Definition New (cb : option (K -> V -> unit)) : TimedMap K V :=
  mkTimedMap ∅ [] ∅ cb (mkCounters 0 0 0 0).

(** The live entry of a key, if any. *)
Definition entry t key : option (element K V) :=
  p ← items t !! key; elems t !! p.

(** [Get], the same in both packages. The state is returned with the
    result, as for every other operation. *)
Definition Get key t : result (TimedMap K V * (option V * Z * bool)) :=
  match items t !! key with
  | None => Ok (t, (None, ElementDoesntExist, false))
  | Some el =>
      e ← deref (elems t) el;
      Ok (t, (Some (Value e), ExpiresAt e, true))
  end.

(** [RemoveAll], the same in both packages. *)
Definition RemoveAll t : result (TimedMap K V) :=
  '(h, m) ← heap.Init [] (elems t);
  Ok (mkTimedMap ∅ h m (onExpire t) (stats t)).

Definition Size t : Z := Z.of_nat (size (items t)).

(** [Stats], the same in both packages. *)
Definition Stats t : gmap string Z :=
  <["added" := added (stats t)]>
  (<["removed" := removed (stats t)]>
  (<["expired" := expired (stats t)]>
  (<["permanent" := permanent (stats t)]>
  (<["current" := wrap_uint64 (Z.of_nat (size (items t)))]> ∅)))).

(** The critical section of the cleaner goroutine in its draining branch,
    the same in both packages:
    [for len(t.expHeap) > 0 && t.expHeap[0].ExpiresAt <= now { ... }].
    Every iteration pops one element, so [length (expHeap t)] iterations
    are enough. *)
Fixpoint drain_loop (fuel : nat) (now : Z) t (expired_ : list ptr)
    : result (TimedMap K V * list ptr) :=
  match expHeap t with
  | [] => Ok (t, expired_)
  | p0 :: _ =>
      e0 ← deref (elems t) p0;
      if bool_decide (ExpiresAt e0 <= now) then
        match fuel with
        | O => OutOfFuel
        | S fuel' =>
            '(h, m, el) ← heap.Pop (expHeap t) (elems t);
            e ← deref m el;
            let t' := mkTimedMap (delete (Key e) (items t)) h m (onExpire t)
                        (expired_incr (stats t)) in
            drain_loop fuel' now t' (expired_ ++ [el])
        end
      else Ok (t, expired_)
  end.

Definition drain (now : Z) t : result (TimedMap K V * list ptr) :=
  drain_loop (length (expHeap t)) now t [].
End common.

(** ** Package [temap]: the map with its heap and cleaner *)
Module Temap.
Section api.
Context {K V : Type} `{Countable K}.
Implicit Types (t : TimedMap K V) (key : K) (value : V).

Definition SetTemporary key value (expiresAt : time.Time) t : result (TimedMap K V) :=
  let exp := time.UnixNano expiresAt in
  match items t !! key with
  | Some el =>
      m1 ← assign (elems t) el (set_Value value);
      m2 ← assign m1 el (set_ExpiresAt exp);
      e ← deref m2 el;
      if bool_decide (ExpiresAt e <> ElementPermanent) then
        '(h, m3) ← heap.Fix (expHeap t) m2 (index e);
        Ok (with_heap h m3 t)
      else Ok (with_elems m2 t)
  | None =>
      let '(el, m1) := new_element (elems t) (mkElement key value exp 0) in
      let items1 := <[key := el]> (items t) in
      if bool_decide (exp <> ElementPermanent) then
        '(h, m2) ← heap.Push (expHeap t) m1 el;
        Ok (mkTimedMap items1 h m2 (onExpire t) (added_incr (stats t)))
      else
        Ok (mkTimedMap items1 (expHeap t) m1 (onExpire t)
              (added_incr (permanent_incr (stats t))))
  end.

Definition SetPermanent key value t : result (TimedMap K V) :=
  match items t !! key with
  | Some el =>
      m1 ← assign (elems t) el (set_Value value);
      m2 ← assign m1 el (set_ExpiresAt ElementPermanent);
      Ok (with_elems m2 t)
  | None =>
      let '(el, m1) := new_element (elems t) (mkElement key value ElementPermanent 0) in
      Ok (mkTimedMap (<[key := el]> (items t)) (expHeap t) m1 (onExpire t)
            (permanent_incr (added_incr (stats t))))
  end.

(** [now] is the value [time.Now()] returns in the call. *)
Definition SetWithTTL key value (ttl : time.Duration) (now : time.Time) t
    : result (TimedMap K V) :=
  if bool_decide (ttl <= 0) then SetPermanent key value t
  else SetTemporary key value (time.Add now ttl) t.

Definition Remove key t : result (TimedMap K V) :=
  match items t !! key with
  | Some el =>
      e ← deref (elems t) el;
      let items1 := delete key (items t) in
      '(h, m) ←
        (if bool_decide (ExpiresAt e <> ElementPermanent /\ index e >= 0
                         /\ index e < Z.of_nat (length (expHeap t))) then
           '(h, m, _) ← heap.Remove (expHeap t) (elems t) (index e); Ok (h, m)
         else Ok (expHeap t, elems t));
      Ok (mkTimedMap items1 h m (onExpire t) (removed_incr (stats t)))
  | None => Ok t
  end.

Definition MakePermanent key t : result (TimedMap K V * bool) :=
  match items t !! key with
  | None => Ok (t, false)
  | Some el =>
      e ← deref (elems t) el;
      if bool_decide (ExpiresAt e = ElementPermanent) then Ok (t, true) else
      '(h, m) ←
        (if bool_decide (index e >= 0 /\ index e < Z.of_nat (length (expHeap t))) then
           '(h, m, _) ← heap.Remove (expHeap t) (elems t) (index e); Ok (h, m)
         else Ok (expHeap t, elems t));
      m' ← assign m el (set_ExpiresAt ElementPermanent);
      Ok (mkTimedMap (items t) h m' (onExpire t) (permanent_incr (stats t)), true)
  end.

(** [now] is the value [time.Now()] returns in the call. *)
Definition SetExpiry key (expiresAt : time.Time) (now : time.Time) t
    : result (TimedMap K V * bool) :=
  match items t !! key with
  | None => Ok (t, false)
  | Some el =>
      e ← deref (elems t) el;
      if time.IsZero expiresAt then
        if bool_decide (ExpiresAt e = ElementPermanent) then Ok (t, true) else
        '(h, m) ←
          (if bool_decide (index e >= 0 /\ index e < Z.of_nat (length (expHeap t))) then
             '(h, m, _) ← heap.Remove (expHeap t) (elems t) (index e); Ok (h, m)
           else Ok (expHeap t, elems t));
        m' ← assign m el (set_ExpiresAt ElementPermanent);
        Ok (mkTimedMap (items t) h m' (onExpire t) (permanent_incr (stats t)), true)
      else
      let newExp := time.UnixNano expiresAt in
      let now_ := time.UnixNano now in
      if bool_decide (newExp <= now_) then
        '(h, m) ←
          (if bool_decide (ExpiresAt e <> ElementPermanent /\ index e >= 0) then
             '(h, m, _) ← heap.Remove (expHeap t) (elems t) (index e); Ok (h, m)
           else Ok (expHeap t, elems t));
        Ok (mkTimedMap (delete key (items t)) h m (onExpire t)
              (removed_incr (stats t)), false)
      else
      if bool_decide (ExpiresAt e = ElementPermanent) then
        m1 ← assign (elems t) el (set_ExpiresAt newExp);
        '(h, m2) ← heap.Push (expHeap t) m1 el;
        Ok (with_heap h m2 t, true)
      else
        m1 ← assign (elems t) el (set_ExpiresAt newExp);
        e1 ← deref m1 el;
        '(h, m2) ←
          (if bool_decide (index e1 >= 0 /\ index e1 < Z.of_nat (length (expHeap t))) then
             heap.Fix (expHeap t) m1 (index e1)
           else Ok (expHeap t, m1));
        Ok (with_heap h m2 t, true)
  end.
End api.
End Temap.

(** ** Package [main]: the map with a worker pool for the callbacks

    The wake-up signal sent to the cleaner goroutine ([signalCleaner]) does
    not touch the map and is left out. *)
Module Main.
Section api.
Context {K V : Type} `{Countable K}.
Implicit Types (t : TimedMap K V) (key : K) (value : V).

Definition SetTemporary key value (expiresAt : time.Time) t : result (TimedMap K V) :=
  let exp := time.UnixNano expiresAt in
  match items t !! key with
  | Some el =>
      m1 ← assign (elems t) el (set_Value value);
      e ← deref m1 el;
      if bool_decide (ExpiresAt e <> ElementPermanent) then
        m2 ← assign m1 el (set_ExpiresAt exp);
        e2 ← deref m2 el;
        '(h, m3) ←
          (if bool_decide (index e2 >= 0) then heap.Fix (expHeap t) m2 (index e2)
           else heap.Push (expHeap t) m2 el);
        Ok (with_heap h m3 t)
      else Ok (with_elems m1 t)
  | None =>
      let '(el, m1) := new_element (elems t) (mkElement key value exp 0) in
      let items1 := <[key := el]> (items t) in
      if bool_decide (exp <> ElementPermanent) then
        '(h, m2) ← heap.Push (expHeap t) m1 el;
        Ok (mkTimedMap items1 h m2 (onExpire t) (added_incr (stats t)))
      else
        Ok (mkTimedMap items1 (expHeap t) m1 (onExpire t)
              (added_incr (permanent_incr (stats t))))
  end.

(** The block
    [if el.ExpiresAt != ElementPermanent {
       if el.index >= 0 { heap.Remove(&t.expHeap, el.index) }
       t.stats.permanent++ }
     el.ExpiresAt = ElementPermanent],
    which [SetPermanent], [SetExpiry] and [MakePermanent] each contain. *)
Definition to_permanent (el : ptr) t : result (TimedMap K V) :=
  e ← deref (elems t) el;
  t1 ←
    (if bool_decide (ExpiresAt e <> ElementPermanent) then
       '(h, m) ←
         (if bool_decide (index e >= 0) then
            '(h, m, _) ← heap.Remove (expHeap t) (elems t) (index e); Ok (h, m)
          else Ok (expHeap t, elems t));
       Ok (mkTimedMap (items t) h m (onExpire t) (permanent_incr (stats t)))
     else Ok t);
  m' ← assign (elems t1) el (set_ExpiresAt ElementPermanent);
  Ok (with_elems m' t1).

Definition SetPermanent key value t : result (TimedMap K V) :=
  match items t !! key with
  | Some el =>
      m1 ← assign (elems t) el (set_Value value);
      to_permanent el (with_elems m1 t)
  | None =>
      let '(el, m1) := new_element (elems t) (mkElement key value ElementPermanent 0) in
      Ok (mkTimedMap (<[key := el]> (items t)) (expHeap t) m1 (onExpire t)
            (permanent_incr (added_incr (stats t))))
  end.

(** [now] is the value [time.Now()] returns in the call. *)
Definition SetWithTTL key value (ttl : time.Duration) (now : time.Time) t
    : result (TimedMap K V) :=
  if bool_decide (ttl <= 0) then SetPermanent key value t
  else SetTemporary key value (time.Add now ttl) t.

(** [now] is the value [time.Now()] returns in the call. *)
Definition SetExpiry key (expiresAt : time.Time) (now : time.Time) t
    : result (TimedMap K V * bool) :=
  match items t !! key with
  | None => Ok (t, false)
  | Some el =>
      e ← deref (elems t) el;
      if time.IsZero expiresAt then
        t' ← to_permanent el t; Ok (t', true)
      else
      let newExp := time.UnixNano expiresAt in
      let now_ := time.UnixNano now in
      if bool_decide (newExp <= now_) then
        '(h, m) ←
          (if bool_decide (ExpiresAt e <> ElementPermanent /\ index e >= 0) then
             '(h, m, _) ← heap.Remove (expHeap t) (elems t) (index e); Ok (h, m)
           else Ok (expHeap t, elems t));
        Ok (mkTimedMap (delete key (items t)) h m (onExpire t)
              (removed_incr (stats t)), false)
      else
      if bool_decide (ExpiresAt e = ElementPermanent) then
        m1 ← assign (elems t) el (set_ExpiresAt newExp);
        '(h, m2) ← heap.Push (expHeap t) m1 el;
        Ok (with_heap h m2 t, true)
      else
        m1 ← assign (elems t) el (set_ExpiresAt newExp);
        e1 ← deref m1 el;
        '(h, m2) ←
          (if bool_decide (index e1 >= 0) then heap.Fix (expHeap t) m1 (index e1)
           else Ok (expHeap t, m1));
        Ok (with_heap h m2 t, true)
  end.

Definition Remove key t : result (TimedMap K V) :=
  match items t !! key with
  | None => Ok t
  | Some el =>
      e ← deref (elems t) el;
      let items1 := delete key (items t) in
      '(h, m) ←
        (if bool_decide (ExpiresAt e <> ElementPermanent /\ index e >= 0) then
           '(h, m, _) ← heap.Remove (expHeap t) (elems t) (index e); Ok (h, m)
         else Ok (expHeap t, elems t));
      Ok (mkTimedMap items1 h m (onExpire t) (removed_incr (stats t)))
  end.

Definition MakePermanent key t : result (TimedMap K V * bool) :=
  match items t !! key with
  | None => Ok (t, false)
  | Some el => t' ← to_permanent el t; Ok (t', true)
  end.
End api.
End Main.

(** ** Operations as data, to run sequences of calls *)

Inductive op (K V : Type) : Type :=
  | OpSetTemporary (key : K) (value : V) (expiresAt : time.Time)
  | OpSetPermanent (key : K) (value : V)
  | OpSetWithTTL (key : K) (value : V) (ttl : time.Duration) (now : time.Time)
  | OpRemove (key : K)
  | OpRemoveAll
  | OpMakePermanent (key : K)
  | OpSetExpiry (key : K) (expiresAt : time.Time) (now : time.Time)
  | OpGet (key : K).
Arguments OpSetTemporary {K V} _ _ _.
Arguments OpSetPermanent {K V} _ _.
Arguments OpSetWithTTL {K V} _ _ _ _.
Arguments OpRemove {K V} _.
Arguments OpRemoveAll {K V}.
Arguments OpMakePermanent {K V} _.
Arguments OpSetExpiry {K V} _ _ _.
Arguments OpGet {K V} _.

Inductive package : Type := PkgTemap | PkgMain.

Section runs.
Context {K V : Type} `{Countable K}.
Implicit Types (t : TimedMap K V).

Definition SetTemporary_in (pkg : package) :=
  match pkg with
  | PkgTemap => @Temap.SetTemporary K V _ _
  | PkgMain => @Main.SetTemporary K V _ _
  end.
Definition SetPermanent_in (pkg : package) :=
  match pkg with
  | PkgTemap => @Temap.SetPermanent K V _ _
  | PkgMain => @Main.SetPermanent K V _ _
  end.
Definition SetWithTTL_in (pkg : package) :=
  match pkg with
  | PkgTemap => @Temap.SetWithTTL K V _ _
  | PkgMain => @Main.SetWithTTL K V _ _
  end.
Definition Remove_in (pkg : package) :=
  match pkg with
  | PkgTemap => @Temap.Remove K V _ _
  | PkgMain => @Main.Remove K V _ _
  end.
Definition MakePermanent_in (pkg : package) :=
  match pkg with
  | PkgTemap => @Temap.MakePermanent K V _ _
  | PkgMain => @Main.MakePermanent K V _ _
  end.
Definition SetExpiry_in (pkg : package) :=
  match pkg with
  | PkgTemap => @Temap.SetExpiry K V _ _
  | PkgMain => @Main.SetExpiry K V _ _
  end.

Definition step (pkg : package) (o : op K V) t : result (TimedMap K V) :=
  match o with
  | OpSetTemporary k v e => SetTemporary_in pkg k v e t
  | OpSetPermanent k v => SetPermanent_in pkg k v t
  | OpSetWithTTL k v ttl now => SetWithTTL_in pkg k v ttl now t
  | OpRemove k => Remove_in pkg k t
  | OpRemoveAll => RemoveAll t
  | OpMakePermanent k => fst <$> MakePermanent_in pkg k t
  | OpSetExpiry k e now => fst <$> SetExpiry_in pkg k e now t
  | OpGet k => fst <$> Get k t
  end.

Fixpoint run (pkg : package) (ops : list (op K V)) t : result (TimedMap K V) :=
  match ops with
  | [] => Ok t
  | o :: ops' => t' ← step pkg o t; run pkg ops' t'
  end.

(** The calls that do not give the permanent sentinel as an expiry. *)
Definition no_sentinel_time (o : op K V) : Prop :=
  match o with
  | OpSetTemporary _ _ x => time.UnixNano x <> ElementPermanent
  | OpSetWithTTL _ _ ttl now =>
      ttl <= 0 \/ time.UnixNano (time.Add now ttl) <> ElementPermanent
  | OpSetExpiry _ x now =>
      time.IsZero x = true \/ time.UnixNano x <> ElementPermanent
      \/ time.UnixNano x <= time.UnixNano now
  | _ => True
  end.
End runs.

(** ** The cleaner goroutine and the delivery of callbacks *)

(** What the code does, in the order it does it. *)
Inductive event (K V : Type) : Type :=
  | EvLock                     (* t.mu.Lock() *)
  | EvUnlock                   (* t.mu.Unlock() *)
  | EvPop (el : ptr)           (* heap.Pop(&t.expHeap) and delete(t.items, el.Key) *)
  | EvSend (el : ptr)          (* t.expireQueue <- el *)
  | EvGo (key : K) (value : V) (* a new goroutine calls t.onExpire(key, value) *)
  | EvCall (key : K) (value : V) (* a worker calls t.onExpire(key, value) *).
Arguments EvLock {K V}.
Arguments EvUnlock {K V}.
Arguments EvPop {K V} _.
Arguments EvSend {K V} _.
Arguments EvGo {K V} _ _.
Arguments EvCall {K V} _ _.

(** How one iteration of the cleaner's loop ends. *)
Inductive section_end : Type :=
  | HeapEmpty
  | Drained (expired_ : list ptr)
  | Wait (d : time.Duration).

Section cleaner.
Context {K V : Type} `{Countable K}.
Implicit Types (t : TimedMap K V).

(** From [t.mu.Lock()] to [t.mu.Unlock()] in one iteration of the loop of
    [startCleaner] (the same in both packages). [now1] is the clock read by
    [time.Until], [now2] the one read by [time.Now()] before the loop. *)
Definition cleaner_section (now1 now2 : time.Time) t
    : result (TimedMap K V * section_end) :=
  match expHeap t with
  | [] => Ok (t, HeapEmpty)
  | next :: _ =>
      e ← deref (elems t) next;
      let wait := time.Until (time.Unix 0 (ExpiresAt e)) now1 in
      if bool_decide (wait <= 0) then
        '(t', expired_) ← drain (time.UnixNano now2) t;
        Ok (t', Drained expired_)
      else Ok (t, Wait wait)
  end.
End cleaner.

(** A channel that was made is open until [close]. *)
Inductive chan_state : Type := ChanOpen | ChanClosed.

Module TemapCleaner.
Section cleaner.
Context {K V : Type} `{Countable K}.
Implicit Types (t : TimedMap K V).

(** [for _, el := range expired { if t.onExpire != nil { go t.onExpire(el.Key, el.Value) } }] *)
Fixpoint dispatch (cb : option (K -> V -> unit)) (m : cells K V) (expired_ : list ptr)
    : result (list (event K V)) :=
  match expired_ with
  | [] => Ok []
  | el :: rest =>
      match cb with
      | Some _ =>
          e ← deref m el;
          evs ← dispatch cb m rest;
          Ok (EvGo (Key e) (Value e) :: evs)
      | None => dispatch cb m rest
      end
  end.

Definition cleaner_iteration (now1 now2 : time.Time) t
    : result (TimedMap K V * list (event K V) * section_end) :=
  '(t', fin) ← cleaner_section now1 now2 t;
  match fin with
  | Drained expired_ =>
      evs ← dispatch (onExpire t') (elems t') expired_;
      Ok (t', [EvLock] ++ (EvPop <$> expired_) ++ [EvUnlock] ++ evs, fin)
  | _ => Ok (t', [EvLock; EvUnlock], fin)
  end.
End cleaner.
End TemapCleaner.

Module MainCleaner.
Section cleaner.
Context {K V : Type} `{Countable K}.
Implicit Types (t : TimedMap K V).

(** [make(chan *element, 1024)] *)
Definition queue_capacity : nat := 1024.

(** One receive of a worker:
    [for el := range t.expireQueue { if t.onExpire != nil { t.onExpire(el.Key, el.Value) } }].
    With an empty queue the worker receives nothing: it stays blocked, or
    leaves the loop when the channel is closed. *)
Definition worker_receive (cb : option (K -> V -> unit)) (m : cells K V)
    (queue : list ptr) : result (list ptr * list (event K V)) :=
  match queue with
  | [] => Ok ([], [])
  | el :: queue' =>
      match cb with
      | Some _ => e ← deref m el; Ok (queue', [EvCall (Key e) (Value e)])
      | None => Ok (queue', [])
      end
  end.

Fixpoint workers_receive (k : nat) (cb : option (K -> V -> unit)) (m : cells K V)
    (queue : list ptr) : result (list ptr * list (event K V)) :=
  match k with
  | O => Ok (queue, [])
  | S k' =>
      '(q1, evs1) ← worker_receive cb m queue;
      '(q2, evs2) ← workers_receive k' cb m q1;
      Ok (q2, evs1 ++ evs2)
  end.

(** The loop that sends the drained elements to the worker pool:
    [for _, el := range expired {
       select { case t.expireQueue <- el:
                default: go func(el *element) { t.onExpire(el.Key, el.Value) }(el) } }].
    The workers run concurrently: [sched] gives, for each element, how many
    receives the workers complete before the cleaner reaches its [select].
    [ch] is the state of [t.expireQueue], which [New] makes, [StopCleaner]
    closes and nothing makes again; [queue] is its buffer. A send on a
    closed channel panics, in a [select] with a [default] too; a send on
    the open channel succeeds when the buffer is not full; the call of a
    nil func panics. *)
Fixpoint dispatch (cb : option (K -> V -> unit)) (m : cells K V) (sched : list nat)
    (ch : chan_state) (queue : list ptr) (expired_ : list ptr)
    : result (list ptr * list (event K V)) :=
  match expired_ with
  | [] => Ok (queue, [])
  | el :: rest =>
      '(q1, evs1) ← workers_receive (hd O sched) cb m queue;
      match ch with
      | ChanClosed => Panic
      | ChanOpen =>
          if bool_decide (length q1 < queue_capacity)%nat then
            '(q2, evs2) ← dispatch cb m (tl sched) ch (q1 ++ [el]) rest;
            Ok (q2, evs1 ++ EvSend el :: evs2)
          else
            match cb with
            | None => Panic
            | Some _ =>
                e ← deref m el;
                '(q2, evs2) ← dispatch cb m (tl sched) ch q1 rest;
                Ok (q2, evs1 ++ EvGo (Key e) (Value e) :: evs2)
            end
      end
  end.

Definition cleaner_iteration (now1 now2 : time.Time) (sched : list nat)
    (ch : chan_state) (queue : list ptr) t
    : result (TimedMap K V * list ptr * list (event K V) * section_end) :=
  '(t', fin) ← cleaner_section now1 now2 t;
  match fin with
  | Drained expired_ =>
      '(queue', evs) ← dispatch (onExpire t') (elems t') sched ch queue expired_;
      Ok (t', queue', [EvLock] ++ (EvPop <$> expired_) ++ [EvUnlock] ++ evs, fin)
  | _ => Ok (t', queue, [EvLock; EvUnlock], fin)
  end.
End cleaner.
End MainCleaner.

(** ** Invariants *)

Section invariants.
Context {K V : Type} `{Countable K}.
Implicit Types (t : TimedMap K V) (m : cells K V) (h : expiryHeap) (p : ptr).

(** The expiry of the cell at [p]. *)
Definition expiry m p : Z := from_option ExpiresAt 0 (m !! p).

(** Every cell the heap points to records its own position. *)
Definition heap_indexed h m : Prop :=
  forall (i : nat) p, h !! i = Some p ->
    exists e, m !! p = Some e /\ index e = Z.of_nat i.

(** The expiry at position [k] of the heap. *)
Definition expiry_at h m (k : nat) : Z := from_option (expiry m) 0 (h !! k).

(** The first [n] positions form a min-heap: no child is below its parent. *)
Definition heap_ordered_upto h m (n : nat) : Prop :=
  forall c : nat, (0 < c < n)%nat ->
    expiry_at h m ((c - 1) / 2) <= expiry_at h m c.

Definition heap_ordered h m : Prop := heap_ordered_upto h m (length h).

(** Two stores hold the same keys, values and expiries at every address:
    only the recorded positions may differ. *)
Definition same_data m m' : Prop :=
  forall p, set_index 0 <$> m !! p = set_index 0 <$> m' !! p.

(** Cells outside the heap are untouched. *)
Definition frame h m m' : Prop :=
  forall p, p ∉ h -> m' !! p = m !! p.

(** The link between the store and the heap: a live temporary entry sits
    in the heap at its recorded position, a live permanent entry is not in
    the heap, and every cell carries the key it is stored under. *)
Definition entries_linked t : Prop :=
  forall key p, items t !! key = Some p ->
    exists e, elems t !! p = Some e /\ Key e = key /\
      (ExpiresAt e <> ElementPermanent ->
         0 <= index e /\ expHeap t !! Z.to_nat (index e) = Some p) /\
      (ExpiresAt e = ElementPermanent -> p ∉ expHeap t).

(** The heap holds live entries only. *)
Definition heap_live t : Prop :=
  forall p, p ∈ expHeap t ->
    exists e, elems t !! p = Some e /\ items t !! Key e = Some p.

(** The state the operations are meant to keep. *)
Record wf t : Prop := mk_wf {
  wf_indexed : heap_indexed (expHeap t) (elems t);
  wf_ordered : heap_ordered (expHeap t) (elems t);
  wf_linked : entries_linked t;
  wf_live : heap_live t
}.

(** The consistency between heap and store of the specification, for the
    live entries: membership in the heap, recorded position, minimum at
    the root. *)
Definition heap_store_consistent t : Prop :=
  forall key p e, items t !! key = Some p -> elems t !! p = Some e ->
    (p ∈ expHeap t <-> ExpiresAt e <> ElementPermanent) /\
    (ExpiresAt e <> ElementPermanent ->
       0 <= index e /\ expHeap t !! Z.to_nat (index e) = Some p) /\
    (ExpiresAt e <> ElementPermanent ->
       exists r, head (expHeap t) = Some r /\ expiry (elems t) r <= ExpiresAt e).

(** A list of addresses in non-decreasing order of expiry. *)
Fixpoint expiry_sorted m (l : list ptr) : Prop :=
  match l with
  | [] => True
  | p :: l' => Forall (fun q => expiry m p <= expiry m q) l' /\ expiry_sorted m l'
  end.


(** What a run of heap functions keeps: positions recorded, data kept,
    cells outside the heap untouched, same addresses in the heap. *)
Definition heap_step h m h' m' : Prop :=
  heap_indexed h' m' /\ same_data m m' /\ frame h m m' /\ h' ≡ₚ h.

(** The first [n] positions form a min-heap except possibly between
    position [i] and its children. *)
Definition down_pre h m (n i : nat) : Prop :=
  (forall c : nat, (0 < c < n)%nat -> ((c - 1) / 2)%nat <> i ->
     expiry_at h m ((c - 1) / 2) <= expiry_at h m c) /\
  (forall c : nat, (0 < c < n)%nat -> ((c - 1) / 2)%nat = i -> (0 < i)%nat ->
     expiry_at h m ((i - 1) / 2) <= expiry_at h m c).

(** Position [c] is not below its parent. *)
Definition edge_ordered h m (c : nat) : Prop :=
  expiry_at h m ((c - 1) / 2) <= expiry_at h m c.

(** The first [n] positions form a min-heap except possibly at the edges
    that touch position [i]; the children of [i] are not below its parent. *)
Definition hole_pre h m (n i : nat) : Prop :=
  (forall c : nat, (0 < c < n)%nat -> c <> i -> ((c - 1) / 2)%nat <> i ->
     edge_ordered h m c) /\
  (forall c : nat, (0 < c < n)%nat -> ((c - 1) / 2)%nat = i -> (0 < i)%nat ->
     expiry_at h m ((i - 1) / 2) <= expiry_at h m c).

(** The first [n] positions form a min-heap except possibly between
    position [j] and its parent; the children of [j] are not below its
    parent. *)
Definition up_pre h m (n j : nat) : Prop :=
  (forall c : nat, (0 < c < n)%nat -> c <> j -> edge_ordered h m c) /\
  (forall c : nat, (0 < c < n)%nat -> ((c - 1) / 2)%nat = j -> (0 < j)%nat ->
     expiry_at h m ((j - 1) / 2) <= expiry_at h m c).

(** What a drain at time [now] from [t] to [t'], popping [popped], does. *)
Definition drain_post (now : Z) t t' (popped : list ptr) : Prop :=
  heap_indexed (expHeap t') (elems t')
  /\ heap_ordered (expHeap t') (elems t')
  /\ same_data (elems t) (elems t')
  /\ frame (expHeap t) (elems t) (elems t')
  /\ expHeap t ≡ₚ popped ++ expHeap t'
  /\ Forall (fun p => expiry (elems t) p <= now) popped
  /\ Forall (fun p => now < expiry (elems t) p) (expHeap t')
  /\ expiry_sorted (elems t) popped
  /\ (forall p e, p ∈ popped -> elems t !! p = Some e -> items t' !! Key e = None)
  /\ (forall key p, items t' !! key = Some p -> items t !! key = Some p)
  /\ (forall key, (forall p e, p ∈ popped -> elems t !! p = Some e -> Key e <> key) ->
        items t' !! key = items t !! key)
  /\ stats t' = Nat.iter (length popped) expired_incr (stats t)
  /\ onExpire t' = onExpire t.

(** The entry at [p] left the heap and became permanent; its key and
    value, the map and the other entries are as before. *)
Definition made_permanent t t' p (e : element K V) : Prop :=
  items t' = items t
  /\ (p ∉ expHeap t')
  /\ expHeap t ≡ₚ p :: expHeap t'
  /\ (exists e', elems t' !! p = Some e' /\ ExpiresAt e' = ElementPermanent
                 /\ Key e' = Key e /\ Value e' = Value e)
  /\ (forall q, q <> p -> set_index 0 <$> elems t' !! q = set_index 0 <$> elems t !! q)
  /\ stats t' = permanent_incr (stats t)
  /\ onExpire t' = onExpire t.

(** The entry of [key], at [p], was deleted from the map and from the
    heap, and counted as removed. *)
Definition removed_now t t' key p (e : element K V) : Prop :=
  items t' = delete key (items t)
  /\ (p ∉ expHeap t')
  /\ (ExpiresAt e <> ElementPermanent -> expHeap t ≡ₚ p :: expHeap t')
  /\ (ExpiresAt e = ElementPermanent -> expHeap t' = expHeap t)
  /\ same_data (elems t) (elems t')
  /\ removed (stats t') = incr (removed (stats t))
  /\ expired (stats t') = expired (stats t)
  /\ added (stats t') = added (stats t)
  /\ permanent (stats t') = permanent (stats t)
  /\ onExpire t' = onExpire t.

End invariants.

(** A state with two temporary entries and a permanent one, as three calls
    of the map leave it. *)
Definition demo : TimedMap nat nat :=
  mkTimedMap
    (<[1%nat := 0%nat]> (<[2%nat := 1%nat]> (<[3%nat := 2%nat]> ∅)))
    [1%nat; 0%nat]
    (<[0%nat := mkElement 1%nat 10%nat 100 1]>
      (<[1%nat := mkElement 2%nat 20%nat 50 0]>
        (<[2%nat := mkElement 3%nat 30%nat 0 0]> ∅)))
    None
    (mkCounters 3 0 0 1).

(** ** Runs of calls and cleaner passes *)

(** One thing that happens to the map: a call of its interface, or one
    critical section of the cleaner goroutine. *)
Inductive action (K V : Type) : Type :=
  | Call (o : op K V)
  | CleanerPass (now1 now2 : time.Time).
Arguments Call {K V} _.
Arguments CleanerPass {K V} _ _.

Section actions.
Context {K V : Type} `{Countable K}.
Implicit Types (t : TimedMap K V).

(** [now1] and [now2] are the two readings of the clock in the critical
    section. *)
Definition act (pkg : package) (a : action K V) t : result (TimedMap K V) :=
  match a with
  | Call o => step pkg o t
  | CleanerPass now1 now2 => fst <$> cleaner_section now1 now2 t
  end.

Fixpoint run_actions (pkg : package) (acts : list (action K V)) t
    : result (TimedMap K V) :=
  match acts with
  | [] => Ok t
  | a :: acts' => t' ← act pkg a t; run_actions pkg acts' t'
  end.

(** The actions that do not give the permanent sentinel as an expiry. *)
Definition no_sentinel_action (a : action K V) : Prop :=
  match a with
  | Call o => no_sentinel_time o
  | CleanerPass _ _ => True
  end.

(** The actions other than [RemoveAll], which empties the map without
    counting. *)
Definition keeps_entries (a : action K V) : Prop :=
  match a with
  | Call OpRemoveAll => False
  | _ => True
  end.

(** The counters account for the entries of the map. *)
Definition balanced t : Prop :=
  wrap_uint64 (added (stats t) - removed (stats t) - expired (stats t))
  = wrap_uint64 (Size t).
End actions.

(** ** What a call leaves alone *)

Section frames.
Context {K V : Type} `{Countable K}.
Implicit Types (t : TimedMap K V) (m : cells K V) (h : expiryHeap) (p : ptr).

(** The call [o] is not about the key [k]. *)
Definition untouched (o : op K V) (k : K) : Prop :=
  match o with
  | OpSetTemporary key _ _ | OpSetPermanent key _ | OpSetWithTTL key _ _ _
  | OpRemove key | OpMakePermanent key | OpSetExpiry key _ _ => key <> k
  | OpRemoveAll => False
  | OpGet _ => True
  end.

(** Away from the address [el], two stores hold the same keys, values and
    expiries. *)
Definition same_data_except (el : ptr) m m' : Prop :=
  forall q, q <> el -> set_index 0 <$> m !! q = set_index 0 <$> m' !! q.

(** Every address the map holds is a cell that carries the key it is
    stored under. *)
Definition keys_recorded t : Prop :=
  forall key p, items t !! key = Some p -> Key <$> elems t !! p = Some key.

(** Two stores hold the same key at every address. *)
Definition same_keys m m' : Prop :=
  forall p, Key <$> m !! p = Key <$> m' !! p.
End frames.

(** ** The wake-up of the cleaner *)

Section wake_up.
Context {K V : Type} `{Countable K}.
Implicit Types (t : TimedMap K V).

(** The test at the end of [SetTemporary] and [SetExpiry] of package [main],
    on the state the call leaves, for a cleaner that has been started
    ([t.signalCleaner != nil]):
    [len(t.expHeap) > 0 && t.expHeap[0] == t.items[key]]; when it holds the
    call wakes the cleaner. *)
Definition signals_cleaner key t : bool :=
  match expHeap t with
  | [] => false
  | r :: _ => bool_decide (items t !! key = Some r)
  end.
End wake_up.

Section kinds.
Context {K V : Type} `{Countable K}.
Implicit Types (t : TimedMap K V).

(** The actions that package [temap] handles like package [main]: no
    [SetTemporary] on a permanent entry and no [SetPermanent] on a temporary
    one. *)
Definition keeps_kind (a : action K V) t : Prop :=
  match a with
  | Call (OpSetTemporary key _ _) =>
      forall e, entry t key = Some e -> ExpiresAt e <> ElementPermanent
  | Call (OpSetPermanent key _) =>
      forall e, entry t key = Some e -> ExpiresAt e = ElementPermanent
  | Call (OpSetWithTTL key _ ttl _) =>
      forall e, entry t key = Some e ->
        (ExpiresAt e = ElementPermanent <-> ttl <= 0)
  | _ => True
  end.
End kinds.

(** ** Snapshot *)

Section snapshot.
Context {K V : Type} `{Countable K}.
Implicit Types (t : TimedMap K V).

(** [ToMap] of package [main]:
    [for k, v := range t.items { out[k] = v.Value }]. *)
Definition ToMap t : result (gmap K V) :=
  map_fold (fun k el (out : result (gmap K V)) =>
              out ← out; e ← deref (elems t) el; Ok (<[k := Value e]> out))
    (Ok ∅) (items t).
End snapshot.

(** ** The arguments of the callbacks *)

Section callbacks.
Context {K V : Type}.

(** The key and value of the cell at [p], the arguments of its callback. *)
Definition payload (m : cells K V) (p : ptr) : option (K * V) :=
  (fun e => (Key e, Value e)) <$> m !! p.

(** The calls of the callback in a list of events, with their arguments. *)
Definition calls (evs : list (event K V)) : list (K * V) :=
  omap (fun ev => match ev with
                  | EvCall k v | EvGo k v => Some (k, v)
                  | _ => None
                  end) evs.
End callbacks.

(** ** Starting and stopping the cleaner

    The part of the struct that controls the goroutines. A channel field is
    [None] when nil; the calls below run one after the other, so that a
    goroutine that waits on [t.stopCh] returns as soon as that channel is
    closed, and [t.wg.Wait()] returns when every cleaner has returned. *)

(** [close(c)]: closing a nil channel or a closed channel panics. *)
Definition close (c : option chan_state) : result (option chan_state) :=
  match c with
  | Some ChanOpen => Ok (Some ChanClosed)
  | Some ChanClosed => Panic
  | None => Panic
  end.

Inductive control_call : Type := CallStopCleaner | CallStartCleaner | CallRestartCleaner.

Module TemapControl.
Record control : Type := mkControl {
  stopped : bool;
  stopCh : option chan_state;
  cleaners : nat   (* running cleaner goroutines, the counter of [t.wg] *)
}.

Definition startCleaner (c : control) : control :=
  if negb (stopped c) && bool_decide (stopCh c <> None) then c
  else mkControl false (Some ChanOpen) (S (cleaners c)).

(** The control part of [New]: [stopCh: make(chan struct{})], then
    [tm.startCleaner()]. *)
Definition New : control := startCleaner (mkControl false (Some ChanOpen) 0).

Definition StopCleaner (c : control) : result control :=
  if stopped c then Ok c else
  ch ← close (stopCh c);
  (* t.wg.Wait(): the cleaners see the closed channel and return *)
  Ok (mkControl true ch 0).

Definition StartCleaner (c : control) : result control := Ok (startCleaner c).

Definition RestartCleaner (c : control) : result control :=
  c1 ← StopCleaner c; StartCleaner c1.

Definition call (k : control_call) (c : control) : result control :=
  match k with
  | CallStopCleaner => StopCleaner c
  | CallStartCleaner => StartCleaner c
  | CallRestartCleaner => RestartCleaner c
  end.

Fixpoint run_calls (ks : list control_call) (c : control) : result control :=
  match ks with
  | [] => Ok c
  | k :: ks' => c' ← call k c; run_calls ks' c'
  end.
End TemapControl.

Module MainControl.
Record control : Type := mkControl {
  stopped : bool;
  stopCh : option chan_state;
  cleaners : nat;  (* running cleaner goroutines, the counter of [t.wg] *)
  expireWorkers : Z;
  expireQueue : option chan_state;
  workers : nat    (* running worker goroutines, the counter of [t.expireWg] *)
}.

(** [for i := 0; i < t.expireWorkers; i++ { t.expireWg.Add(1); go func() {...}() }] *)
Definition startExpireWorkers (c : control) : control :=
  mkControl (stopped c) (stopCh c) (cleaners c) (expireWorkers c) (expireQueue c)
    (workers c + Z.to_nat (expireWorkers c)).

Definition startCleaner (c : control) : control :=
  if negb (stopped c) && bool_decide (stopCh c <> None) then c
  else mkControl false (Some ChanOpen) (S (cleaners c))
         (expireWorkers c) (expireQueue c) (workers c).

Definition New (workerCount : Z) : control :=
  let workerCount := if bool_decide (workerCount <= 0) then 4 else workerCount in
  startCleaner (startExpireWorkers
    (mkControl false None 0 workerCount (Some ChanOpen) 0)).

Definition StopCleaner (c : control) : result control :=
  if stopped c then Ok c else
  ch ← close (stopCh c);
  (* t.wg.Wait() *)
  q ← close (expireQueue c);
  (* t.expireWg.Wait(): the workers leave their [range] loop *)
  Ok (mkControl true ch 0 (expireWorkers c) q 0).

Definition StartCleaner (c : control) : result control := Ok (startCleaner c).

Definition RestartCleaner (c : control) : result control :=
  c1 ← StopCleaner c; StartCleaner c1.

Definition call (k : control_call) (c : control) : result control :=
  match k with
  | CallStopCleaner => StopCleaner c
  | CallStartCleaner => StartCleaner c
  | CallRestartCleaner => RestartCleaner c
  end.

Fixpoint run_calls (ks : list control_call) (c : control) : result control :=
  match ks with
  | [] => Ok c
  | k :: ks' => c' ← call k c; run_calls ks' c'
  end.
End MainControl.

(** A call that stops the cleaner when it runs. *)
Definition stops (k : control_call) : Prop :=
  k = CallStopCleaner \/ k = CallRestartCleaner.

(** What the calls keep in package [temap]: the channel of a running
    cleaner is open, a stopped map runs no cleaner, and no two cleaners run. *)
Definition temap_control_inv (c : TemapControl.control) : Prop :=
  (TemapControl.stopped c = false -> TemapControl.stopCh c = Some ChanOpen)
  /\ (TemapControl.stopped c = true -> TemapControl.cleaners c = 0%nat)
  /\ (TemapControl.cleaners c <= 1)%nat.

(** Package [main]: the states after a first stop. *)
Definition main_pool_closed (c : MainControl.control) : Prop :=
  MainControl.expireQueue c = Some ChanClosed
  /\ MainControl.workers c = 0%nat
  /\ (MainControl.stopped c = false -> MainControl.stopCh c = Some ChanOpen)
  /\ (MainControl.stopped c = true -> MainControl.cleaners c = 0%nat)
  /\ (MainControl.cleaners c <= 1)%nat.

(** ** TTLMap: the map with one timer per temporary key

    [time.AfterFunc(ttl, func() { m.expire(key) })] makes a timer of the
    runtime; the timers the map has made are kept beside its fields, each
    with the key its function expires and how far it has got. When a
    waiting timer fires is left open; the runtime then starts the function
    in a goroutine of its own, and that goroutine runs [m.expire(key)] when
    it gets the lock, which may be after other calls on the map. [Stop]
    keeps a waiting timer from firing and does nothing to a timer that has
    fired; the map ignores what [Stop] returns. The map holds the only
    pointer to an item, so that items are kept by value. *)
Module TTLMap.

Record item (V : Type) : Type := mkItem {
  value : V;
  expiration : Z;        (* Unix nano, 0 = permanent *)
  timer : option nat     (* nil, or the timer *)
}.
Arguments mkItem {V} _ _ _.
Arguments value {V} _.
Arguments expiration {V} _.
Arguments timer {V} _.

Inductive timer_status : Type :=
  | TimerWaiting   (* made by [AfterFunc], neither fired nor stopped *)
  | TimerStopped   (* stopped before it fired *)
  | TimerFired     (* fired: its function is started and has not run yet *)
  | TimerDone      (* its function has run *).

Record timer_state : Type := mkTimer {
  timer_key : string;
  status : timer_status
}.

Record TTLMap (V : Type) : Type := mkTTLMap {
  items : gmap string (item V);
  callback : option (string -> V -> unit);
  size : Z;              (* int64, read and written atomically *)
  timers : gmap nat timer_state
}.
Arguments mkTTLMap {V} _ _ _ _.
Arguments items {V} _.
Arguments callback {V} _.
Arguments size {V} _.
Arguments timers {V} _.

Section ops.
Context {V : Type}.
Implicit Types (m : TTLMap V) (key : string) (v : V) (ts : gmap nat timer_state).

(** [atomic.AddInt64(&m.size, d)] *)
Definition AddInt64 (x d : Z) : Z := wrap_int64 (x + d).

(** [t.Stop()]: a waiting timer is stopped; a timer that has fired, or was
    stopped, stays as it is ([Stop] returns false, which the map ignores). *)
Definition Stop (id : nat) ts : gmap nat timer_state :=
  alter (fun tr => match status tr with
                   | TimerWaiting => mkTimer (timer_key tr) TimerStopped
                   | _ => tr
                   end) id ts.

(** [if itm.timer != nil { itm.timer.Stop() }] *)
Definition stop_timer (tm : option nat) ts : gmap nat timer_state :=
  match tm with
  | Some id => Stop id ts
  | None => ts
  end.

(** [time.AfterFunc(ttl, func() { m.expire(key) })] *)
Definition AfterFunc key ts : nat * gmap nat timer_state :=
  let id := fresh (dom ts) in (id, <[id := mkTimer key TimerWaiting]> ts).

Definition New (cb : option (string -> V -> unit)) : TTLMap V :=
  mkTTLMap ∅ cb 0 ∅.

(** [now] is the value [time.Now()] returns in the call. *)
Definition SetTemporary key v (ttl : time.Duration) (now : time.Time) m : TTLMap V :=
  let existing := items m !! key in
  let ts1 := match existing with
             | Some it => stop_timer (timer it) (timers m)
             | None => timers m
             end in
  let expiration := time.UnixNano (time.Add now ttl) in
  let '(tm, ts2) := AfterFunc key ts1 in
  mkTTLMap (<[key := mkItem v expiration (Some tm)]> (items m)) (callback m)
    (match existing with Some _ => size m | None => AddInt64 (size m) 1 end) ts2.

Definition SetPermanent key v m : TTLMap V :=
  let existing := items m !! key in
  let ts1 := match existing with
             | Some it => stop_timer (timer it) (timers m)
             | None => timers m
             end in
  mkTTLMap (<[key := mkItem v 0 None]> (items m)) (callback m)
    (match existing with Some _ => size m | None => AddInt64 (size m) 1 end) ts1.

Definition Get key m : option V * bool :=
  match items m !! key with
  | Some itm => (Some (value itm), true)
  | None => (None, false)
  end.

Definition GetMultiple (keys : list string) m : gmap string V :=
  fold_left (fun result key =>
               match items m !! key with
               | Some itm => <[key := value itm]> result
               | None => result
               end) keys ∅.

Definition Remove key m : TTLMap V * bool :=
  match items m !! key with
  | None => (m, false)
  | Some itm =>
      (mkTTLMap (delete key (items m)) (callback m) (AddInt64 (size m) (-1))
         (stop_timer (timer itm) (timers m)), true)
  end.

(** The loop of [RemoveMultiple], on the map, the timers and [removed]. *)
Definition RemoveMultiple_loop (keys : list string)
    (st : gmap string (item V) * gmap nat timer_state * Z)
    : gmap string (item V) * gmap nat timer_state * Z :=
  fold_left (fun '(its, ts, removed) key =>
               match its !! key with
               | Some itm => (delete key its, stop_timer (timer itm) ts, removed + 1)
               | None => (its, ts, removed)
               end) keys st.

Definition RemoveMultiple (keys : list string) m : TTLMap V * Z :=
  let '(its, ts, removed) := RemoveMultiple_loop keys (items m, timers m, 0) in
  (mkTTLMap its (callback m) (AddInt64 (size m) (- removed)) ts, removed).

Definition RemoveAll m : TTLMap V :=
  let ts := map_fold (fun _ itm ts => stop_timer (timer itm) ts) (timers m) (items m) in
  mkTTLMap ∅ (callback m) 0 ts.

Definition Size m : Z := size m.

(** The calls of the callback a function makes, in order. *)
Definition call_callback m key v : list (string * V) :=
  match callback m with
  | Some _ => [(key, v)]
  | None => []
  end.

Definition expire key m : TTLMap V * list (string * V) :=
  match items m !! key with
  | None => (m, [])
  | Some itm =>
      (mkTTLMap (delete key (items m)) (callback m) (AddInt64 (size m) (-1)) (timers m),
       call_callback m key (value itm))
  end.

Definition SetExpiry key (expiresAt now : time.Time) m
    : TTLMap V * bool * list (string * V) :=
  match items m !! key with
  | None => (m, false, [])
  | Some itm =>
      let ts1 := stop_timer (timer itm) (timers m) in
      if bool_decide (expiresAt < now \/ expiresAt = now) then
        (mkTTLMap (delete key (items m)) (callback m) (AddInt64 (size m) (-1)) ts1,
         true, call_callback m key (value itm))
      else
        let '(tm, ts2) := AfterFunc key ts1 in
        (mkTTLMap (<[key := mkItem (value itm) (time.UnixNano expiresAt) (Some tm)]>
                     (items m))
           (callback m) (size m) ts2, true, [])
  end.

(** A waiting timer fires: the runtime starts its function in a new
    goroutine. The map is not touched. *)
Definition fire (id : nat) m : TTLMap V :=
  match timers m !! id with
  | Some tr =>
      match status tr with
      | TimerWaiting =>
          mkTTLMap (items m) (callback m) (size m)
            (<[id := mkTimer (timer_key tr) TimerFired]> (timers m))
      | _ => m
      end
  | None => m
  end.

(** The function of a timer that has fired, [func() { m.expire(key) }],
    runs in its goroutine. *)
Definition timer_func (id : nat) m : TTLMap V * list (string * V) :=
  match timers m !! id with
  | Some tr =>
      match status tr with
      | TimerFired =>
          expire (timer_key tr)
            (mkTTLMap (items m) (callback m) (size m)
               (<[id := mkTimer (timer_key tr) TimerDone]> (timers m)))
      | _ => (m, [])
      end
  | None => (m, [])
  end.
End ops.

Inductive op (V : Type) : Type :=
  | OpSetTemporary (key : string) (v : V) (ttl : time.Duration) (now : time.Time)
  | OpSetPermanent (key : string) (v : V)
  | OpRemove (key : string)
  | OpRemoveMultiple (keys : list string)
  | OpRemoveAll
  | OpSetExpiry (key : string) (expiresAt now : time.Time)
  | OpFire (id : nat)
  | OpTimerFunc (id : nat).
Arguments OpSetTemporary {V} _ _ _ _.
Arguments OpSetPermanent {V} _ _.
Arguments OpRemove {V} _.
Arguments OpRemoveMultiple {V} _.
Arguments OpRemoveAll {V}.
Arguments OpSetExpiry {V} _ _ _.
Arguments OpFire {V} _.
Arguments OpTimerFunc {V} _.

Section runs.
Context {V : Type}.

Definition step (o : op V) (m : TTLMap V) : TTLMap V :=
  match o with
  | OpSetTemporary key v ttl now => SetTemporary key v ttl now m
  | OpSetPermanent key v => SetPermanent key v m
  | OpRemove key => fst (Remove key m)
  | OpRemoveMultiple keys => fst (RemoveMultiple keys m)
  | OpRemoveAll => RemoveAll m
  | OpSetExpiry key x now => fst (fst (SetExpiry key x now m))
  | OpFire id => fire id m
  | OpTimerFunc id => fst (timer_func id m)
  end.

Definition run (ops : list (op V)) (m : TTLMap V) : TTLMap V :=
  fold_left (fun m o => step o m) ops m.

(** The counter agrees with the map. *)
Definition size_ok (m : TTLMap V) : Prop :=
  size m = wrap_int64 (Z.of_nat (base.size (items m))).

(** A timer that waits or has fired: its function is still to run. *)
Definition live (s : timer_status) : Prop := s = TimerWaiting \/ s = TimerFired.

(** The timer of every item is a timer for the key of the item whose
    function is still to run. *)
Definition timers_live (m : TTLMap V) : Prop :=
  forall key itm id, items m !! key = Some itm -> timer itm = Some id ->
    exists s, timers m !! id = Some (mkTimer key s) /\ live s.

(** An item without a timer is permanent. *)
Definition untimed_permanent (m : TTLMap V) : Prop :=
  forall key itm, items m !! key = Some itm -> timer itm = None ->
    expiration itm = 0.
End runs.
End TTLMap.

Section ttl_invariants.
Context {V : Type}.
Implicit Types (key : string)
  (its : gmap string (TTLMap.item V)) (ts : gmap nat TTLMap.timer_state).

(** The timers of the items other than the one of [key] are live timers
    for their keys. *)
Definition owned_except key its ts : Prop :=
  forall key' itm id, key' <> key -> its !! key' = Some itm ->
    TTLMap.timer itm = Some id ->
    exists s, ts !! id = Some (TTLMap.mkTimer key' s) /\ TTLMap.live s.
End ttl_invariants.

(** A [TTLMap] with one temporary key whose timer has fired. *)
Definition demo_fired : TTLMap.TTLMap nat :=
  TTLMap.run [TTLMap.OpSetTemporary "a" 1%nat 10 0; TTLMap.OpFire 0%nat]
    (TTLMap.New None).

(** A run with calls and passes of the cleaner. *)
Definition demo_actions : list (action nat nat) :=
  [Call (OpSetTemporary 1%nat 10%nat 100); Call (OpSetTemporary 2%nat 20%nat 50);
   Call (OpSetPermanent 3%nat 30%nat); CleanerPass 60 60; Call (OpRemove 3%nat)].

(** * Proofs *)

(** [lia] with the equations of division by a constant. *)
Ltac dlia := zify; Z.to_euclidean_division_equations; lia.

(** ** Basic facts on the result monad, cells and slices *)

Section basics.
Context {K V : Type}.
Implicit Types (e : element K V) (m : cells K V) (h : expiryHeap) (p : ptr).

Lemma bind_Ok {A B} (f : A -> result B) (a : A) : (Ok a ≫= f) = f a.
Proof. reflexivity. Qed.

Lemma bind_Ok_inv {A B} (f : A -> result B) (r : result A) (b : B) :
  (r ≫= f) = Ok b -> exists a, r = Ok a /\ f a = Ok b.
Proof. destruct r; simpl; intros; try discriminate; eauto. Qed.

Lemma fmap_Ok_inv {A B} (f : A -> B) (r : result A) (b : B) :
  f <$> r = Ok b -> exists a, r = Ok a /\ f a = b.
Proof. destruct r; simpl; intros; try discriminate; simplify_eq; eauto. Qed.

Lemma deref_Ok m p e : m !! p = Some e -> deref m p = Ok e.
Proof. unfold deref. by intros ->. Qed.

Lemma deref_inv m p e : deref m p = Ok e -> m !! p = Some e.
Proof. unfold deref. destruct (m !! p); [by intros [= ->]|done]. Qed.

Lemma assign_Ok m p e upd :
  m !! p = Some e -> assign m p upd = Ok (<[p := upd e]> m).
Proof. intros Hp. unfold assign. by rewrite (deref_Ok _ _ _ Hp). Qed.

Lemma at_index_Ok h (i : nat) p :
  h !! i = Some p -> at_index h (Z.of_nat i) = Ok p.
Proof.
  intros Hi. unfold at_index.
  pose proof (lookup_lt_Some _ _ _ Hi).
  rewrite bool_decide_true by lia. by rewrite Nat2Z.id, Hi.
Qed.

Lemma at_index_inv h (i : Z) p :
  at_index h i = Ok p -> 0 <= i /\ h !! Z.to_nat i = Some p.
Proof.
  unfold at_index. case_bool_decide as Hi; [|done].
  destruct (h !! Z.to_nat i) eqn:E; [|done].
  intros [= ->]. split; [lia|done].
Qed.

Lemma set_index_data i j e : set_index i (set_index j e) = set_index i e.
Proof. by destruct e. Qed.

Lemma set_index_id e : set_index (index e) e = e.
Proof. by destruct e. Qed.

Lemma set_ExpiresAt_id e : set_ExpiresAt (ExpiresAt e) e = e.
Proof. by destruct e. Qed.

Lemma same_data_refl m : same_data m m.
Proof. by intros p. Qed.

Lemma same_data_trans m1 m2 m3 :
  same_data m1 m2 -> same_data m2 m3 -> same_data m1 m3.
Proof. intros H12 H23 p. by rewrite H12. Qed.

Lemma same_data_insert m p e i :
  m !! p = Some e -> same_data m (<[p := set_index i e]> m).
Proof.
  intros Hp q. destruct (decide (p = q)) as [->|Hne].
  - rewrite lookup_insert_eq, Hp. simpl. by rewrite set_index_data.
  - by rewrite lookup_insert_ne.
Qed.

Lemma same_data_lookup m m' p e :
  same_data m m' -> m !! p = Some e ->
  exists e', m' !! p = Some e' /\ Key e' = Key e /\ Value e' = Value e
             /\ ExpiresAt e' = ExpiresAt e.
Proof.
  intros Hs Hp. specialize (Hs p). rewrite Hp in Hs.
  destruct (m' !! p) as [e'|]; [|done].
  exists e'. destruct e, e'. simpl in Hs. by simplify_eq.
Qed.

Lemma same_data_sym m m' : same_data m m' -> same_data m' m.
Proof. intros Hs p. by rewrite Hs. Qed.

Lemma same_data_expiry m m' p : same_data m m' -> expiry m' p = expiry m p.
Proof.
  intros Hs. unfold expiry. specialize (Hs p).
  destruct (m !! p) as [e|], (m' !! p) as [e'|]; try done.
  destruct e, e'. simpl in *. by simplify_eq.
Qed.

Lemma same_data_expiry_at h m m' k :
  same_data m m' -> expiry_at h m' k = expiry_at h m k.
Proof.
  intros Hs. unfold expiry_at. destruct (h !! k); [|done].
  simpl. by apply same_data_expiry.
Qed.

Lemma frame_refl h m : frame h m m.
Proof. by intros p. Qed.

Lemma frame_trans h h' m1 m2 m3 :
  (forall p, p ∈ h' <-> p ∈ h) ->
  frame h m1 m2 -> frame h' m2 m3 -> frame h m1 m3.
Proof. intros Hh H12 H23 p Hp. rewrite H23, H12; [done..|]. by rewrite Hh. Qed.

Lemma heap_indexed_NoDup h m : heap_indexed h m -> NoDup h.
Proof.
  intros Hi. apply NoDup_alt. intros i j p Hip Hjp.
  destruct (Hi _ _ Hip) as (e & He & Hie).
  destruct (Hi _ _ Hjp) as (e' & He' & Hje). simplify_eq. lia.
Qed.

Lemma heap_indexed_inj h m (i j : nat) p :
  heap_indexed h m -> h !! i = Some p -> h !! j = Some p -> i = j.
Proof.
  intros Hi Hip Hjp.
  destruct (Hi _ _ Hip) as (e & He & Hie).
  destruct (Hi _ _ Hjp) as (e' & He' & Hje). simplify_eq. lia.
Qed.
End basics.

Section heap_methods.
Context {K V : Type}.
Implicit Types (e : element K V) (m : cells K V) (h : expiryHeap) (p : ptr).

Lemma Less_spec h m (i j : nat) pi pj :
  heap_indexed h m -> h !! i = Some pi -> h !! j = Some pj ->
  ExpiryHeap.Less h m (Z.of_nat i) (Z.of_nat j)
  = Ok (bool_decide (expiry m pi < expiry m pj)).
Proof.
  intros Hidx Hi Hj. unfold ExpiryHeap.Less.
  rewrite (at_index_Ok _ _ _ Hi), (at_index_Ok _ _ _ Hj). simpl.
  destruct (Hidx _ _ Hi) as (ei & Hei & _).
  destruct (Hidx _ _ Hj) as (ej & Hej & _).
  rewrite (deref_Ok _ _ _ Hei), (deref_Ok _ _ _ Hej). simpl.
  unfold expiry. by rewrite Hei, Hej.
Qed.

Lemma Swap_spec h m (i j : nat) pi pj :
  heap_indexed h m -> h !! i = Some pi -> h !! j = Some pj ->
  exists m',
    ExpiryHeap.Swap h m (Z.of_nat i) (Z.of_nat j)
    = Ok (<[j := pi]> (<[i := pj]> h), m')
    /\ heap_indexed (<[j := pi]> (<[i := pj]> h)) m'
    /\ same_data m m' /\ frame h m m'.
Proof.
  intros Hidx Hi Hj. unfold ExpiryHeap.Swap.
  rewrite (at_index_Ok _ _ _ Hi), (at_index_Ok _ _ _ Hj). simpl.
  rewrite !Nat2Z.id.
  pose proof (lookup_lt_Some _ _ _ Hi) as Hli.
  pose proof (lookup_lt_Some _ _ _ Hj) as Hlj.
  destruct (Hidx _ _ Hi) as (ei & Hei & Hiei).
  destruct (Hidx _ _ Hj) as (ej & Hej & Hjej).
  destruct (decide (i = j)) as [->|Hne].
  - simplify_eq.
    assert (Hh : <[j := pi]> (<[j := pi]> h) = h).
    { rewrite list_insert_insert_eq. by apply list_insert_id. }
    rewrite Hh, (at_index_Ok _ _ _ Hi). simpl.
    rewrite (assign_Ok _ _ _ _ Hei). simpl.
    erewrite assign_Ok by apply lookup_insert_eq. simpl.
    rewrite insert_insert_eq, set_index_data, <- Hiei, set_index_id.
    rewrite insert_id by done.
    eexists; split; [done|]. split; [done|].
    split; [apply same_data_refl | apply frame_refl].
  - assert (pi <> pj) as Hpne.
    { intros ->. apply Hne. eapply heap_indexed_inj; eauto. }
    set (h' := <[j := pi]> (<[i := pj]> h)).
    assert (Hh'i : h' !! i = Some pj).
    { unfold h'. rewrite list_lookup_insert_ne by done.
      by apply list_lookup_insert_eq. }
    assert (Hh'j : h' !! j = Some pi).
    { unfold h'. apply list_lookup_insert_eq. by rewrite length_insert. }
    rewrite (at_index_Ok _ _ _ Hh'i). simpl.
    rewrite (assign_Ok _ _ _ _ Hej). simpl.
    rewrite (at_index_Ok _ _ _ Hh'j). simpl.
    erewrite assign_Ok by (rewrite lookup_insert_ne by done; exact Hei).
    simpl. eexists; split; [done|]. split; [|split].
    + intros k p Hk. destruct (decide (k = j)) as [->|Hkj].
      { rewrite Hh'j in Hk. simplify_eq. rewrite lookup_insert_eq. eauto. }
      destruct (decide (k = i)) as [->|Hki].
      { rewrite Hh'i in Hk. simplify_eq.
        rewrite lookup_insert_ne, lookup_insert_eq by done. eauto. }
      unfold h' in Hk. rewrite !list_lookup_insert_ne in Hk by done.
      assert (p <> pi) by (intros ->; apply Hki; eapply heap_indexed_inj; eauto).
      assert (p <> pj) by (intros ->; apply Hkj; eapply heap_indexed_inj; eauto).
      rewrite !lookup_insert_ne by done. by apply Hidx.
    + eapply same_data_trans; [by apply same_data_insert|].
      apply same_data_insert. by rewrite lookup_insert_ne.
    + intros p Hp.
      assert (p <> pi) by (intros ->; apply Hp; eapply list_elem_of_lookup_2; eauto).
      assert (p <> pj) by (intros ->; apply Hp; eapply list_elem_of_lookup_2; eauto).
      by rewrite !lookup_insert_ne.
Qed.

End heap_methods.

Section heap_algorithms.
Context {K V : Type}.
Implicit Types (e : element K V) (m : cells K V) (h : expiryHeap) (p : ptr).

Lemma heap_step_refl h m : heap_indexed h m -> heap_step h m h m.
Proof. intros. split; [done|]. split; [apply same_data_refl|]. split; [apply frame_refl|done]. Qed.

Lemma heap_step_trans h1 m1 h2 m2 h3 m3 :
  heap_step h1 m1 h2 m2 -> heap_step h2 m2 h3 m3 -> heap_step h1 m1 h3 m3.
Proof.
  intros (_ & Hs12 & Hf12 & Hp12) (Hi & Hs23 & Hf23 & Hp23).
  split; [done|]. split; [by eapply same_data_trans|]. split.
  - eapply frame_trans; [|done..]. intros p. by rewrite Hp12.
  - by rewrite Hp23.
Qed.

Lemma heap_step_length h m h' m' : heap_step h m h' m' -> length h' = length h.
Proof. intros (_ & _ & _ & Hp). by rewrite Hp. Qed.

Lemma Swap_step h m (i j : nat) pi pj :
  heap_indexed h m -> h !! i = Some pi -> h !! j = Some pj ->
  exists m',
    ExpiryHeap.Swap h m (Z.of_nat i) (Z.of_nat j)
    = Ok (<[j := pi]> (<[i := pj]> h), m')
    /\ heap_step h m (<[j := pi]> (<[i := pj]> h)) m'.
Proof.
  intros Hidx Hi Hj.
  destruct (Swap_spec h m i j pi pj Hidx Hi Hj) as (m' & Hsw & Hi' & Hs & Hf).
  exists m'. split; [done|]. repeat split; try done.
  by apply Permutation_insert_swap.
Qed.

Lemma expiry_at_lookup h m (k : nat) p :
  h !! k = Some p -> expiry_at h m k = expiry m p.
Proof. unfold expiry_at. by intros ->. Qed.

Lemma smaller_child_spec h m (i n : nat) :
  heap_indexed h m -> (n <= length h)%nat -> (2 * i + 1 < n)%nat ->
  exists j : nat,
    heap.smaller_child h m (2 * Z.of_nat i + 1) (Z.of_nat n) = Ok (Z.of_nat j)
    /\ (j = 2 * i + 1 \/ j = 2 * i + 2)%nat /\ (j < n)%nat
    /\ (forall c : nat, (c < n)%nat -> (c = 2 * i + 1 \/ c = 2 * i + 2)%nat ->
          expiry_at h m j <= expiry_at h m c).
Proof.
  intros Hidx Hn Hlt. unfold heap.smaller_child.
  destruct (lookup_lt_is_Some_2 h (2 * i + 1)) as [p1 Hp1]; [lia|].
  case_bool_decide as Hj2.
  - destruct (lookup_lt_is_Some_2 h (2 * i + 2)) as [p2 Hp2]; [lia|].
    replace (2 * Z.of_nat i + 1 + 1) with (Z.of_nat (2 * i + 2)) by lia.
    replace (2 * Z.of_nat i + 1) with (Z.of_nat (2 * i + 1)) by lia.
    rewrite (Less_spec _ _ _ _ _ _ Hidx Hp2 Hp1). simpl.
    case_bool_decide as Hlt21.
    + exists (2 * i + 2)%nat. split; [done|]. split; [by right|]. split; [lia|].
      intros c Hc [->| ->];
        rewrite ?(expiry_at_lookup _ _ _ _ Hp1), ?(expiry_at_lookup _ _ _ _ Hp2); lia.
    + exists (2 * i + 1)%nat. split; [done|]. split; [by left|]. split; [lia|].
      intros c Hc [->| ->];
        rewrite ?(expiry_at_lookup _ _ _ _ Hp1), ?(expiry_at_lookup _ _ _ _ Hp2); lia.
  - exists (2 * i + 1)%nat. split; [f_equal; lia|]. split; [by left|]. split; [lia|].
    intros c Hc [->| ->]; [lia|lia].
Qed.

Lemma expiry_at_swap h m m1 (i j k : nat) pi pj :
  h !! i = Some pi -> h !! j = Some pj -> i <> j -> same_data m m1 ->
  expiry_at (<[j := pi]> (<[i := pj]> h)) m1 k
  = if decide (k = j) then expiry_at h m i
    else if decide (k = i) then expiry_at h m j
    else expiry_at h m k.
Proof.
  intros Hi Hj Hne Hs. rewrite (same_data_expiry_at _ _ _ _ Hs).
  pose proof (lookup_lt_Some _ _ _ Hi). pose proof (lookup_lt_Some _ _ _ Hj).
  unfold expiry_at. repeat case_decide; subst.
  - rewrite list_lookup_insert_eq by (by rewrite length_insert). by rewrite Hi.
  - rewrite list_lookup_insert_ne, list_lookup_insert_eq by done. by rewrite Hj.
  - by rewrite !list_lookup_insert_ne.
Qed.

Lemma down_pre_leaf h m (n i : nat) :
  (n <= 2 * i + 1)%nat -> down_pre h m n i -> heap_ordered_upto h m n.
Proof. intros Hn [Hpre _] c Hc. apply Hpre; [done|]. dlia. Qed.

Lemma down_pre_stop h m (n i j : nat) :
  (j = 2 * i + 1 \/ j = 2 * i + 2)%nat ->
  (forall c : nat, (c < n)%nat -> (c = 2 * i + 1 \/ c = 2 * i + 2)%nat ->
     expiry_at h m j <= expiry_at h m c) ->
  expiry_at h m i <= expiry_at h m j ->
  down_pre h m n i -> heap_ordered_upto h m n.
Proof.
  intros Hj Hmin Hij [Hpre _] c Hc.
  destruct (decide (((c - 1) / 2)%nat = i)) as [Hpi|Hpi]; [|by apply Hpre].
  rewrite Hpi. etrans; [exact Hij|]. apply Hmin; dlia.
Qed.

Lemma down_pre_swap h m m1 (n i j : nat) pi pj :
  h !! i = Some pi -> h !! j = Some pj -> same_data m m1 ->
  (j = 2 * i + 1 \/ j = 2 * i + 2)%nat -> (j < n)%nat ->
  (forall c : nat, (c < n)%nat -> (c = 2 * i + 1 \/ c = 2 * i + 2)%nat ->
     expiry_at h m j <= expiry_at h m c) ->
  expiry_at h m j < expiry_at h m i ->
  down_pre h m n i ->
  down_pre (<[j := pi]> (<[i := pj]> h)) m1 n j.
Proof.
  intros Hi Hj Hs Hjc Hjn Hmin Hlt [Hpre1 Hpre2].
  assert (i <> j) as Hne by lia.
  split.
  - intros c Hc Hpc.
    rewrite !(expiry_at_swap h m m1 i j _ pi pj) by done.
    repeat case_decide; subst; try dlia.
    + apply Hmin; dlia.
    + apply Hpre2; dlia.
    + apply Hpre1; dlia.
  - intros c Hc Hpc Hj0.
    rewrite !(expiry_at_swap h m m1 i j _ pi pj) by done.
    repeat case_decide; subst; try dlia.
    apply Hpre1; dlia.
Qed.

Lemma down_loop_spec fuel : forall h m (i n : nat),
  heap_indexed h m -> (n <= length h)%nat -> (n - i < fuel)%nat ->
  exists h' m' (i' : nat),
    heap.down_loop fuel h m (Z.of_nat i) (Z.of_nat n) = Ok (h', m', Z.of_nat i')
    /\ heap_step h m h' m' /\ (i <= i')%nat
    /\ (forall k : nat, (k < i \/ n <= k)%nat -> h' !! k = h !! k)
    /\ (down_pre h m n i -> heap_ordered_upto h' m' n).
Proof.
  induction fuel as [|fuel IH]; intros h m i n Hidx Hn Hfuel; [lia|].
  cbn [heap.down_loop]. case_bool_decide as Hleaf.
  { exists h, m, i. split; [done|]. split; [by apply heap_step_refl|].
    split; [done|]. split; [done|]. apply down_pre_leaf. lia. }
  destruct (smaller_child_spec h m i n Hidx Hn) as (j & Hsc & Hjc & Hjn & Hmin); [lia|].
  rewrite Hsc. simpl.
  destruct (lookup_lt_is_Some_2 h i) as [pi Hpi]; [lia|].
  destruct (lookup_lt_is_Some_2 h j) as [pj Hpj]; [lia|].
  rewrite (Less_spec _ _ _ _ _ _ Hidx Hpj Hpi). simpl.
  case_bool_decide as Hlt; simpl.
  - destruct (Swap_step h m i j pi pj Hidx Hpi Hpj) as (m1 & Hsw & Hst1).
    rewrite Hsw. simpl.
    destruct (IH (<[j := pi]> (<[i := pj]> h)) m1 j n) as (h' & m' & i' & Hdl & Hst2 & Hii & Hun & Hord).
    { apply Hst1. } { by rewrite !length_insert. } { lia. }
    exists h', m', i'. split; [done|]. split; [by eapply heap_step_trans|].
    split; [lia|]. split.
    + intros k Hk. rewrite Hun by lia. rewrite !list_lookup_insert_ne by lia. done.
    + intros Hpre. apply Hord.
      apply (down_pre_swap h m m1 n i j pi pj); try done.
      * apply Hst1.
      * by rewrite (expiry_at_lookup _ _ _ _ Hpi), (expiry_at_lookup _ _ _ _ Hpj).
  - exists h, m, i. split; [done|]. split; [by apply heap_step_refl|].
    split; [done|]. split; [done|].
    apply (down_pre_stop h m n i j); try done.
    rewrite (expiry_at_lookup _ _ _ _ Hpi), (expiry_at_lookup _ _ _ _ Hpj). lia.
Qed.

Lemma down_spec h m (i n : nat) :
  heap_indexed h m -> (n <= length h)%nat ->
  exists h' m' moved,
    heap.down h m (Z.of_nat i) (Z.of_nat n) = Ok (h', m', moved)
    /\ heap_step h m h' m'
    /\ (forall k : nat, (k < i \/ n <= k)%nat -> h' !! k = h !! k)
    /\ (down_pre h m n i -> heap_ordered_upto h' m' n).
Proof.
  intros Hidx Hn. unfold heap.down.
  destruct (down_loop_spec (S (length h)) h m i n Hidx Hn)
    as (h' & m' & i' & Hdl & Hst & _ & Hun & Hord); [lia|].
  rewrite Hdl. simpl. eauto 10.
Qed.

Lemma up_loop_spec fuel : forall h m (j : nat),
  heap_indexed h m -> (j < length h)%nat -> (j < fuel)%nat ->
  exists h' m',
    heap.up_loop fuel h m (Z.of_nat j) = Ok (h', m')
    /\ heap_step h m h' m'
    /\ (forall k : nat, (j < k)%nat -> h' !! k = h !! k).
Proof.
  induction fuel as [|fuel IH]; intros h m j Hidx Hj Hfuel; [lia|].
  cbn [heap.up_loop]. case_bool_decide as Hroot.
  { exists h, m. split; [done|]. split; [by apply heap_step_refl|done]. }
  assert (exists i : nat, Z.quot (Z.of_nat j - 1) 2 = Z.of_nat i /\ (i < j)%nat)
    as (i & Hq & Hlt).
  { exists ((j - 1) / 2)%nat. dlia. }
  rewrite Hq in *.
  destruct (lookup_lt_is_Some_2 h j) as [pj Hpj]; [lia|].
  destruct (lookup_lt_is_Some_2 h i) as [pi Hpi]; [lia|].
  rewrite (Less_spec _ _ _ _ _ _ Hidx Hpj Hpi). simpl.
  case_bool_decide as Hless; simpl.
  - destruct (Swap_step h m _ _ pi pj Hidx Hpi Hpj) as (m1 & Hsw & Hst1).
    rewrite Hsw. simpl.
    destruct (IH (<[j := pi]> (<[i := pj]> h)) m1 i)
      as (h' & m' & Hul & Hst2 & Hun).
    { apply Hst1. } { rewrite !length_insert. lia. } { lia. }
    exists h', m'. split; [done|]. split; [by eapply heap_step_trans|].
    intros k Hk. rewrite Hun by lia. by rewrite !list_lookup_insert_ne by lia.
  - exists h, m. split; [done|]. split; [by apply heap_step_refl|done].
Qed.

Lemma up_spec h m (j : nat) :
  heap_indexed h m -> (j < length h)%nat ->
  exists h' m',
    heap.up h m (Z.of_nat j) = Ok (h', m')
    /\ heap_step h m h' m'
    /\ (forall k : nat, (j < k)%nat -> h' !! k = h !! k).
Proof. intros. apply up_loop_spec; [done..|lia]. Qed.

(** The method [Pop] takes the last address off and records [-1] in its
    cell. *)
Lemma method_Pop_spec h0 m p :
  heap_indexed (h0 ++ [p]) m ->
  exists e,
    m !! p = Some e
    /\ ExpiryHeap.Pop (h0 ++ [p]) m = Ok (h0, <[p := set_index (-1) e]> m, p)
    /\ heap_indexed h0 (<[p := set_index (-1) e]> m)
    /\ same_data m (<[p := set_index (-1) e]> m)
    /\ frame (h0 ++ [p]) m (<[p := set_index (-1) e]> m)
    /\ p ∉ h0.
Proof.
  intros Hidx.
  assert ((h0 ++ [p]) !! length h0 = Some p) as Hlast.
  { rewrite lookup_app_r by lia. by rewrite Nat.sub_diag. }
  destruct (Hidx _ _ Hlast) as (e & He & Hie).
  assert (p ∉ h0) as Hnotin.
  { apply heap_indexed_NoDup in Hidx. apply NoDup_app in Hidx as (_ & Hd & _).
    intros Hin. apply (Hd _ Hin). by left. }
  exists e. split; [done|]. split.
  { unfold ExpiryHeap.Pop, ExpiryHeap.Len. rewrite length_app. simpl.
    replace (Z.of_nat (length h0 + 1) - 1) with (Z.of_nat (length h0)) by lia.
    rewrite (at_index_Ok _ _ _ Hlast). simpl.
    rewrite (assign_Ok _ _ _ _ He). simpl.
    by rewrite Nat2Z.id, take_app_length. }
  split; [|split; [|split]]; [| | |done].
  - intros k q Hk.
    assert (q <> p) by (intros ->; apply Hnotin; by eapply list_elem_of_lookup_2).
    rewrite lookup_insert_ne by done. apply Hidx.
    by apply lookup_app_l_Some.
  - by apply same_data_insert.
  - intros q Hq. rewrite lookup_insert_ne; [done|].
    intros ->. apply Hq. apply elem_of_app. right. by left.
Qed.


Lemma list_split_last h (n : nat) p :
  length h = S n -> h !! n = Some p -> h = take n h ++ [p].
Proof.
  intros Hlen Hn. rewrite <- (take_drop n h) at 1. f_equal.
  apply list_eq. intros k. rewrite lookup_drop.
  destruct k as [|k]; simpl.
  - by rewrite Nat.add_0_r.
  - rewrite lookup_ge_None_2; [done|lia].
Qed.

Lemma heap_ordered_take h m m' (n : nat) :
  same_data m m' -> heap_ordered_upto h m n -> (n <= length h)%nat ->
  heap_ordered (take n h) m'.
Proof.
  intros Hs Hord Hn c Hc. rewrite length_take in Hc.
  rewrite !(same_data_expiry_at _ _ _ _ Hs).
  unfold expiry_at. rewrite !lookup_take_lt by dlia.
  apply Hord. lia.
Qed.

(** [heap.Pop] returns the root of a well-formed heap and leaves a
    well-formed heap of the other addresses. *)
Lemma Pop_spec h m p0 rest :
  heap_indexed h m -> heap_ordered h m -> h = p0 :: rest ->
  exists h' m',
    heap.Pop h m = Ok (h', m', p0)
    /\ heap_indexed h' m' /\ heap_ordered h' m'
    /\ same_data m m' /\ frame h m m' /\ h ≡ₚ p0 :: h' /\ p0 ∉ h'.
Proof.
  intros Hidx Hord Hh.
  assert (h !! 0%nat = Some p0) as H0 by (by subst).
  set (n := length rest).
  assert (length h = S n) as Hlen by (by subst).
  destruct (lookup_lt_is_Some_2 h n) as [pn Hpn]; [lia|].
  unfold heap.Pop, ExpiryHeap.Len.
  replace (Z.of_nat (length h) - 1) with (Z.of_nat n) by lia.
  destruct (Swap_step h m 0 n p0 pn Hidx H0 Hpn) as (m1 & Hsw & Hst1).
  change 0 with (Z.of_nat 0). rewrite Hsw. simpl.
  set (h1 := <[n := p0]> (<[0%nat := pn]> h)) in *.
  assert (length h1 = S n) as Hlen1 by (unfold h1; by rewrite !length_insert).
  destruct (down_spec h1 m1 0 n) as (h2 & m2 & moved & Hdn & Hst2 & Hun & Hord2).
  { apply Hst1. } { lia. }
  rewrite Hdn. simpl.
  assert (h2 !! n = Some p0) as Hlast.
  { rewrite Hun by lia. unfold h1. apply list_lookup_insert_eq.
    rewrite length_insert. lia. }
  pose proof (heap_step_length _ _ _ _ Hst2) as Hlen2.
  pose proof (list_split_last h2 n p0 ltac:(lia) Hlast) as Hsplit.
  assert (heap_indexed h2 m2) as Hidx2 by apply Hst2.
  rewrite Hsplit in Hidx2 |- *.
  destruct (method_Pop_spec _ _ _ Hidx2) as (e & He & Hpop & Hidx3 & Hs3 & Hf3 & Hnotin).
  rewrite Hpop. eexists _, _. split; [done|].
  assert (heap_step h m h2 m2) as Hst by (by eapply heap_step_trans).
  destruct Hst as (_ & Hs & Hf & Hperm).
  split; [done|]. split; [|split; [|split; [|split]]]; [| | | |done].
  - eapply heap_ordered_take; [|apply Hord2|lia].
    { done. }
    destruct (decide (n = 0%nat)) as [Hn0|Hn0].
    { split; intros c Hc; lia. }
    split; [|intros; lia].
    intros c Hc Hpc. unfold h1.
    rewrite !(expiry_at_swap h m m1 0 n _ p0 pn) by (done || lia || apply Hst1).
    repeat case_decide; try dlia. apply Hord. lia.
  - by eapply same_data_trans.
  - intros q Hq. rewrite <- Hf by done. apply Hf3.
    rewrite <- Hsplit. by rewrite Hperm.
  - rewrite <- Hperm. rewrite Hsplit at 1. by rewrite Permutation_app_comm.
Qed.

(** [heap.Remove] at a position of a heap with recorded positions takes
    out the address at that position, and nothing else. *)
Lemma Remove_spec h m (i : nat) p :
  heap_indexed h m -> h !! i = Some p ->
  exists h' m',
    heap.Remove h m (Z.of_nat i) = Ok (h', m', p)
    /\ heap_indexed h' m' /\ same_data m m' /\ frame h m m'
    /\ h ≡ₚ p :: h' /\ p ∉ h'.
Proof.
  intros Hidx Hi.
  pose proof (lookup_lt_Some _ _ _ Hi) as Hlt.
  destruct (length h) as [|n] eqn:Hlen; [lia|].
  destruct (lookup_lt_is_Some_2 h n) as [pn Hpn]; [lia|].
  unfold heap.Remove, ExpiryHeap.Len. rewrite Hlen.
  replace (Z.of_nat (S n) - 1) with (Z.of_nat n) by lia.
  assert (exists h2 m2,
    (if bool_decide (Z.of_nat n <> Z.of_nat i) then
       '(h1, m1) ← ExpiryHeap.Swap h m (Z.of_nat i) (Z.of_nat n);
       '(h1', m1', moved) ← heap.down h1 m1 (Z.of_nat i) (Z.of_nat n);
       if negb moved then heap.up h1' m1' (Z.of_nat i) else Ok (h1', m1')
     else Ok (h, m)) = Ok (h2, m2)
    /\ heap_step h m h2 m2 /\ h2 !! n = Some p) as (h2 & m2 & -> & Hst & Hlast).
  { case_bool_decide as Hne.
    - destruct (Swap_step h m i n p pn Hidx Hi Hpn) as (m1 & Hsw & Hst1).
      rewrite Hsw. simpl.
      set (h1 := <[n := p]> (<[i := pn]> h)) in *.
      assert (length h1 = S n) as Hlen1 by (unfold h1; by rewrite !length_insert).
      assert (h1 !! n = Some p) as Hlast1.
      { unfold h1. apply list_lookup_insert_eq. rewrite length_insert. lia. }
      destruct (down_spec h1 m1 i n) as (h2 & m2 & moved & Hdn & Hst2 & Hun & _).
      { apply Hst1. } { lia. }
      rewrite Hdn. simpl.
      pose proof (heap_step_length _ _ _ _ Hst2) as Hlen2.
      destruct moved; simpl.
      + exists h2, m2. split; [done|]. split; [by eapply heap_step_trans|].
        rewrite Hun by lia. done.
      + destruct (up_spec h2 m2 i) as (h3 & m3 & Hup & Hst3 & Hun3).
        { apply Hst2. } { lia. }
        rewrite Hup. exists h3, m3. split; [done|].
        split; [eapply heap_step_trans; [|done]; by eapply heap_step_trans|].
        rewrite Hun3 by lia. rewrite Hun by lia. done.
    - assert (n = i) as -> by lia.
      exists h, m. split; [done|]. split; [by apply heap_step_refl|done]. }
  simpl.
  pose proof (heap_step_length _ _ _ _ Hst) as Hlen2.
  pose proof (list_split_last h2 n p ltac:(lia) Hlast) as Hsplit.
  destruct Hst as (Hidx2 & Hs & Hf & Hperm).
  rewrite Hsplit in Hidx2 |- *.
  destruct (method_Pop_spec _ _ _ Hidx2) as (e & He & Hpop & Hidx3 & Hs3 & Hf3 & Hnotin).
  rewrite Hpop. eexists _, _. split; [done|].
  split; [done|]. split; [by eapply same_data_trans|]. split; [|split; [|done]].
  - intros q Hq. rewrite <- Hf by done. apply Hf3.
    rewrite <- Hsplit. by rewrite Hperm.
  - rewrite <- Hperm. rewrite Hsplit at 1. by rewrite Permutation_app_comm.
Qed.

(** In a min-heap no expiry is below the one at the root. *)
Lemma heap_ordered_root h m (k : nat) :
  heap_ordered h m -> (k < length h)%nat ->
  expiry_at h m 0 <= expiry_at h m k.
Proof.
  intros Hord. induction (lt_wf k) as [k _ IH]. intros Hk.
  destruct (decide (k = 0%nat)) as [->|Hk0]; [done|].
  etrans; [apply (IH ((k - 1) / 2)%nat); dlia|].
  apply Hord. lia.
Qed.

Lemma heap_ordered_min h m p0 rest q :
  heap_ordered h m -> h = p0 :: rest -> q ∈ h -> expiry m p0 <= expiry m q.
Proof.
  intros Hord -> [k Hk]%list_elem_of_lookup.
  pose proof (heap_ordered_root _ _ k Hord (lookup_lt_Some _ _ _ Hk)) as Hle.
  by rewrite (expiry_at_lookup _ _ _ _ Hk) in Hle.
Qed.
End heap_algorithms.

Section heap_order.
Context {K V : Type}.
Implicit Types (e : element K V) (m : cells K V) (h : expiryHeap) (p : ptr).

Lemma hole_pre_swap h m m1 (n i j : nat) pi pj :
  h !! i = Some pi -> h !! j = Some pj -> same_data m m1 ->
  (j = 2 * i + 1 \/ j = 2 * i + 2)%nat -> (j < n)%nat ->
  (forall c : nat, (c < n)%nat -> (c = 2 * i + 1 \/ c = 2 * i + 2)%nat ->
     expiry_at h m j <= expiry_at h m c) ->
  expiry_at h m j < expiry_at h m i ->
  hole_pre h m n i ->
  hole_pre (<[j := pi]> (<[i := pj]> h)) m1 n j.
Proof.
  intros Hi Hj Hs Hjc Hjn Hmin Hlt [Hpre1 Hpre2].
  assert (i <> j) as Hne by lia.
  split.
  - intros c Hc Hcj Hpc. unfold edge_ordered.
    rewrite !(expiry_at_swap h m m1 i j _ pi pj) by done.
    repeat case_decide; subst; try dlia.
    + apply Hmin; dlia.
    + apply Hpre2; dlia.
    + apply Hpre1; dlia.
  - intros c Hc Hpc Hj0.
    rewrite !(expiry_at_swap h m m1 i j _ pi pj) by done.
    repeat case_decide; subst; try dlia.
    apply Hpre1; dlia.
Qed.

(** [down] from a hole: afterwards every edge is ordered except possibly
    the one above the start, which is ordered too when the element moved;
    when it did not move nothing changed. *)
Lemma down_loop_hole fuel : forall h m (i n : nat),
  heap_indexed h m -> (n <= length h)%nat -> (n - i < fuel)%nat ->
  hole_pre h m n i ->
  exists h' m' (i' : nat),
    heap.down_loop fuel h m (Z.of_nat i) (Z.of_nat n) = Ok (h', m', Z.of_nat i')
    /\ (forall c : nat, (0 < c < n)%nat -> c <> i -> edge_ordered h' m' c)
    /\ (i' <> i -> (0 < i < n)%nat -> edge_ordered h' m' i)
    /\ (i' = i -> h' = h /\ m' = m)
    /\ (i <= i')%nat.
Proof.
  induction fuel as [|fuel IH]; intros h m i n Hidx Hn Hfuel Hpre; [lia|].
  cbn [heap.down_loop]. case_bool_decide as Hleaf.
  { exists h, m, i. split; [done|]. split; [|done].
    intros c Hc Hci. apply Hpre; [done..|]. dlia. }
  destruct (smaller_child_spec h m i n Hidx Hn) as (j & Hsc & Hjc & Hjn & Hmin); [lia|].
  rewrite Hsc. simpl.
  destruct (lookup_lt_is_Some_2 h i) as [pi Hpi]; [lia|].
  destruct (lookup_lt_is_Some_2 h j) as [pj Hpj]; [lia|].
  rewrite (Less_spec _ _ _ _ _ _ Hidx Hpj Hpi). simpl.
  case_bool_decide as Hlt; simpl.
  - destruct (Swap_step h m i j pi pj Hidx Hpi Hpj) as (m1 & Hsw & Hst1).
    rewrite Hsw. simpl.
    assert (expiry_at h m j < expiry_at h m i) as Hlt'
      by (by rewrite (expiry_at_lookup _ _ _ _ Hpi), (expiry_at_lookup _ _ _ _ Hpj)).
    assert (same_data m m1) as Hs1 by apply Hst1.
    destruct (IH (<[j := pi]> (<[i := pj]> h)) m1 j n)
      as (h' & m' & i' & Hdl & Hall & Hmoved & Hstay & Hji).
    { apply Hst1. } { by rewrite !length_insert. } { lia. }
    { by apply (hole_pre_swap h m m1 n i j pi pj). }
    exists h', m', i'. split; [done|]. split; [|split; [|split; [lia|lia]]].
    + intros c Hc Hci. destruct (decide (c = j)) as [->|Hcj]; [|by apply Hall].
      destruct (decide (i' = j)) as [Hi'|Hi']; [|apply Hmoved; [done|lia]].
      destruct (Hstay Hi') as [-> ->]. unfold edge_ordered.
      rewrite !(expiry_at_swap h m m1 i j _ pi pj) by (done || lia).
      repeat case_decide; subst; try dlia.
    + intros _ Hi0. apply Hall; lia.
  - exists h, m, i. split; [done|]. split; [|done].
    intros c Hc Hci.
    destruct (decide (((c - 1) / 2)%nat = i)) as [Hpc|Hpc]; [|by apply Hpre].
    unfold edge_ordered. rewrite Hpc.
    assert (expiry_at h m i <= expiry_at h m j) as Hij.
    { rewrite (expiry_at_lookup _ _ _ _ Hpi), (expiry_at_lookup _ _ _ _ Hpj). lia. }
    etrans; [exact Hij|]. apply Hmin; dlia.
Qed.

Lemma up_pre_swap h m m1 (n i j : nat) pi pj :
  h !! i = Some pi -> h !! j = Some pj -> same_data m m1 ->
  i = ((j - 1) / 2)%nat -> (0 < j < n)%nat ->
  expiry_at h m j < expiry_at h m i ->
  up_pre h m n j ->
  up_pre (<[j := pi]> (<[i := pj]> h)) m1 n i.
Proof.
  intros Hi Hj Hs Hpar Hjn Hlt [Hpre1 Hpre2].
  assert (i <> j) as Hne by dlia.
  split.
  - intros c Hc Hci. unfold edge_ordered.
    rewrite !(expiry_at_swap h m m1 i j _ pi pj) by done.
    repeat case_decide; subst; try dlia.
    + apply Hpre2; dlia.
    + assert (edge_ordered h m c) as Hoc by (apply Hpre1; dlia).
      unfold edge_ordered in Hoc.
      replace ((c - 1) / 2)%nat with ((j - 1) / 2)%nat in Hoc by dlia. lia.
    + apply Hpre1; dlia.
  - intros c Hc Hpc Hi0.
    assert (edge_ordered h m i) as Hgp by (apply Hpre1; dlia).
    unfold edge_ordered in Hgp.
    rewrite !(expiry_at_swap h m m1 i j _ pi pj) by done.
    repeat case_decide; try dlia.
    assert (edge_ordered h m c) as Hoc by (apply Hpre1; dlia).
    unfold edge_ordered in Hoc. rewrite Hpc in Hoc. lia.
Qed.

(** [up] restores the order when only the edge above the start is out of
    order. *)
Lemma up_loop_order fuel : forall h m (j n : nat),
  heap_indexed h m -> (j < n)%nat -> (n <= length h)%nat -> (j < fuel)%nat ->
  up_pre h m n j ->
  exists h' m',
    heap.up_loop fuel h m (Z.of_nat j) = Ok (h', m')
    /\ heap_ordered_upto h' m' n.
Proof.
  induction fuel as [|fuel IH]; intros h m j n Hidx Hj Hn Hfuel Hpre; [lia|].
  cbn [heap.up_loop]. case_bool_decide as Hroot.
  { exists h, m. split; [done|]. intros c Hc. apply Hpre; [done|]. dlia. }
  assert (exists i : nat, Z.quot (Z.of_nat j - 1) 2 = Z.of_nat i
                          /\ i = ((j - 1) / 2)%nat /\ (i < j)%nat)
    as (i & Hq & Hpar & Hlt).
  { exists ((j - 1) / 2)%nat. dlia. }
  rewrite Hq in *.
  destruct (lookup_lt_is_Some_2 h j) as [pj Hpj]; [lia|].
  destruct (lookup_lt_is_Some_2 h i) as [pi Hpi]; [lia|].
  rewrite (Less_spec _ _ _ _ _ _ Hidx Hpj Hpi). simpl.
  case_bool_decide as Hless; simpl.
  - destruct (Swap_step h m _ _ pi pj Hidx Hpi Hpj) as (m1 & Hsw & Hst1).
    rewrite Hsw. simpl.
    apply (IH (<[j := pi]> (<[i := pj]> h)) m1 i n).
    + apply Hst1.
    + lia.
    + by rewrite !length_insert.
    + lia.
    + apply (up_pre_swap h m m1 n i j pi pj); try done; [apply Hst1|lia|].
      by rewrite (expiry_at_lookup _ _ _ _ Hpi), (expiry_at_lookup _ _ _ _ Hpj).
  - exists h, m. split; [done|]. intros c Hc.
    destruct (decide (c = j)) as [->|Hcj]; [|by apply Hpre].
    rewrite <- Hpar.
    rewrite (expiry_at_lookup _ _ _ _ Hpi), (expiry_at_lookup _ _ _ _ Hpj). lia.
Qed.

Lemma heap_ordered_upto_le h m (n n' : nat) :
  heap_ordered_upto h m n -> (n' <= n)%nat -> heap_ordered_upto h m n'.
Proof. intros Hord Hle c Hc. apply Hord. lia. Qed.

Lemma down_hole h m (i n : nat) :
  heap_indexed h m -> (n <= length h)%nat -> hole_pre h m n i ->
  exists h' m' moved,
    heap.down h m (Z.of_nat i) (Z.of_nat n) = Ok (h', m', moved)
    /\ (forall c : nat, (0 < c < n)%nat -> c <> i -> edge_ordered h' m' c)
    /\ (moved = true -> (0 < i < n)%nat -> edge_ordered h' m' i)
    /\ (moved = false -> h' = h /\ m' = m).
Proof.
  intros Hidx Hn Hpre. unfold heap.down.
  destruct (down_loop_hole (S (length h)) h m i n Hidx Hn)
    as (h' & m' & i' & Hdl & Hall & Hmoved & Hstay & Hii); [lia|done|].
  rewrite Hdl. simpl. eexists _, _, _. split; [done|]. split; [done|]. split.
  - intros Hm%bool_decide_eq_true. apply Hmoved. lia.
  - intros Hm%bool_decide_eq_false. apply Hstay. lia.
Qed.

(** [heap.Remove] leaves a min-heap. *)
Lemma Remove_ordered h m (i : nat) p h' m' p' :
  heap_indexed h m -> heap_ordered h m -> h !! i = Some p ->
  heap.Remove h m (Z.of_nat i) = Ok (h', m', p') ->
  heap_ordered h' m'.
Proof.
  intros Hidx Hord Hi Hrm.
  pose proof (lookup_lt_Some _ _ _ Hi) as Hlt.
  destruct (length h) as [|n] eqn:Hlen; [lia|].
  destruct (lookup_lt_is_Some_2 h n) as [pn Hpn]; [lia|].
  unfold heap.Remove, ExpiryHeap.Len in Hrm. rewrite Hlen in Hrm.
  replace (Z.of_nat (S n) - 1) with (Z.of_nat n) in Hrm by lia.
  assert (exists h2 m2,
    (if bool_decide (Z.of_nat n <> Z.of_nat i) then
       '(h1, m1) ← ExpiryHeap.Swap h m (Z.of_nat i) (Z.of_nat n);
       '(h1', m1', moved) ← heap.down h1 m1 (Z.of_nat i) (Z.of_nat n);
       if negb moved then heap.up h1' m1' (Z.of_nat i) else Ok (h1', m1')
     else Ok (h, m)) = Ok (h2, m2)
    /\ heap_indexed h2 m2 /\ length h2 = S n /\ h2 !! n = Some p
    /\ heap_ordered_upto h2 m2 n) as (h2 & m2 & Hpre & Hidx2 & Hlen2 & Hlast & Hord2).
  { case_bool_decide as Hne.
    - destruct (Swap_step h m i n p pn Hidx Hi Hpn) as (m1 & Hsw & Hst1).
      rewrite Hsw. simpl.
      set (h1 := <[n := p]> (<[i := pn]> h)) in *.
      assert (length h1 = S n) as Hlen1 by (unfold h1; by rewrite !length_insert).
      assert (h1 !! n = Some p) as Hlast1.
      { unfold h1. apply list_lookup_insert_eq. rewrite length_insert. lia. }
      assert (same_data m m1) as Hs1 by apply Hst1.
      assert (hole_pre h1 m1 n i) as Hhole.
      { split.
        - intros c Hc Hci Hpc. unfold edge_ordered, h1.
          rewrite !(expiry_at_swap h m m1 i n _ p pn) by (done || lia).
          repeat case_decide; try dlia. apply Hord. lia.
        - intros c Hc Hpc Hi0. unfold h1.
          rewrite !(expiry_at_swap h m m1 i n _ p pn) by (done || lia).
          repeat case_decide; try dlia.
          etrans; [apply (Hord i); lia|]. rewrite <- Hpc. apply Hord. lia. }
      destruct (down_spec h1 m1 i n) as (h2 & m2 & moved & Hdn & Hst2 & Hun & _).
      { apply Hst1. } { lia. }
      destruct (down_hole h1 m1 i n) as (h2' & m2' & moved' & Hdn' & Hall & Hmoved & Hstay).
      { apply Hst1. } { lia. } { done. }
      rewrite Hdn in Hdn'. injection Hdn' as <- <- <-.
      rewrite Hdn. simpl.
      pose proof (heap_step_length _ _ _ _ Hst2) as Hlen2.
      destruct moved; simpl.
      + exists h2, m2. split; [done|]. split; [apply Hst2|]. split; [lia|].
        split; [by rewrite Hun by lia|].
        intros c Hc. destruct (decide (c = i)) as [->|Hci]; [|by apply Hall].
        apply Hmoved; [done|lia].
      + destruct (Hstay eq_refl) as [-> ->].
        destruct (up_spec h1 m1 i) as (h3 & m3 & Hup & Hst3 & Hun3).
        { apply Hst1. } { lia. }
        destruct (up_loop_order (S (length h1)) h1 m1 i n)
          as (h3' & m3' & Hup' & Hord3).
        { apply Hst1. } { lia. } { lia. } { lia. }
        { split; [done|]. apply Hhole. }
        unfold heap.up in Hup. rewrite Hup in Hup'. injection Hup' as <- <-.
        unfold heap.up. rewrite Hup.
        exists h3, m3. split; [done|]. split; [apply Hst3|].
        split; [rewrite (heap_step_length _ _ _ _ Hst3); lia|].
        split; [|done]. rewrite Hun3 by lia. done.
    - assert (n = i) as -> by lia.
      exists h, m. split; [done|]. split; [done|]. split; [done|]. split; [done|].
      eapply heap_ordered_upto_le; [exact Hord|lia]. }
  rewrite Hpre in Hrm. simpl in Hrm.
  pose proof (list_split_last h2 n p Hlen2 Hlast) as Hsplit.
  rewrite Hsplit in Hidx2, Hrm.
  destruct (method_Pop_spec _ _ _ Hidx2) as (e & He & Hpop & _ & Hs3 & _).
  rewrite Hpop in Hrm. injection Hrm as <- <- <-.
  eapply heap_ordered_take; [exact Hs3|exact Hord2|lia].
Qed.
End heap_order.

Section heap_push_fix.
Context {K V : Type}.
Implicit Types (e : element K V) (m : cells K V) (h : expiryHeap) (p : ptr).

(** [heap.Push] of a cell that is not in the heap adds it and keeps the
    heap ordered. *)
Lemma Push_spec h m x e :
  heap_indexed h m -> m !! x = Some e -> x ∉ h ->
  exists h' m',
    heap.Push h m x = Ok (h', m')
    /\ heap_indexed h' m' /\ same_data m m'
    /\ (forall q, q ∉ h -> q <> x -> m' !! q = m !! q)
    /\ h' ≡ₚ x :: h
    /\ (heap_ordered h m -> heap_ordered h' m').
Proof.
  intros Hidx He Hx. unfold heap.Push, ExpiryHeap.Push.
  rewrite (assign_Ok _ _ _ _ He). simpl.
  set (m1 := <[x := set_index (ExpiryHeap.Len h) e]> m).
  set (h1 := h ++ [x]).
  assert (heap_indexed h1 m1) as Hidx1.
  { intros i q Hq. unfold h1 in Hq. apply lookup_app_Some in Hq as [Hq|[Hge Hq]].
    - assert (q <> x) by (intros ->; apply Hx; by eapply list_elem_of_lookup_2).
      unfold m1. rewrite lookup_insert_ne by done. by apply Hidx.
    - destruct (i - length h)%nat as [|k] eqn:Hk; [|done]. simpl in Hq.
      injection Hq as <-. unfold m1. rewrite lookup_insert_eq.
      eexists. split; [done|]. simpl. unfold ExpiryHeap.Len. lia. }
  assert (same_data m m1) as Hs1 by (by apply same_data_insert).
  assert (length h1 = S (length h)) as Hlen1.
  { unfold h1. rewrite length_app. simpl. lia. }
  unfold ExpiryHeap.Len. fold h1. rewrite Hlen1.
  replace (Z.of_nat (S (length h)) - 1) with (Z.of_nat (length h)) by lia.
  destruct (up_spec h1 m1 (length h)) as (h' & m' & Hup & Hst & _); [done|lia|].
  rewrite Hup. exists h', m'. split; [done|].
  destruct Hst as (Hidx' & Hs' & Hf' & Hperm').
  split; [done|]. split; [by eapply same_data_trans|]. split; [|split].
  - intros q Hq Hqx. rewrite Hf'.
    + unfold m1. by rewrite lookup_insert_ne.
    + unfold h1. rewrite elem_of_app, list_elem_of_singleton. by intros [?|?].
  - rewrite Hperm'. unfold h1. by rewrite Permutation_app_comm.
  - intros Hord.
    destruct (up_loop_order (S (length h1)) h1 m1 (length h) (length h1))
      as (h'' & m'' & Hup' & Hord'); [done|lia|lia|lia| |].
    + split.
      * intros c Hc Hcj. unfold edge_ordered.
        rewrite !(same_data_expiry_at _ _ _ _ Hs1). unfold expiry_at, h1.
        rewrite !lookup_app_l by dlia. apply Hord. lia.
      * intros c Hc Hpc Hj0. dlia.
    + unfold heap.up in Hup. rewrite Hup in Hup'. injection Hup' as <- <-.
      unfold heap_ordered. rewrite (Permutation_length Hperm'). exact Hord'.
Qed.

(** [heap.Fix] at a position whose cell got another expiry restores the
    order. *)
Lemma Fix_spec h m (i : nat) p :
  heap_indexed h m -> h !! i = Some p ->
  exists h' m',
    heap.Fix h m (Z.of_nat i) = Ok (h', m')
    /\ heap_step h m h' m'
    /\ (hole_pre h m (length h) i -> heap_ordered h' m').
Proof.
  intros Hidx Hi. pose proof (lookup_lt_Some _ _ _ Hi) as Hlt.
  unfold heap.Fix, ExpiryHeap.Len.
  destruct (down_spec h m i (length h)) as (h2 & m2 & moved & Hdn & Hst2 & Hun & _);
    [done|lia|].
  rewrite Hdn. simpl.
  pose proof (heap_step_length _ _ _ _ Hst2) as Hlen2.
  destruct moved; simpl.
  - exists h2, m2. split; [done|]. split; [done|].
    intros Hhole.
    destruct (down_hole h m i (length h)) as (h2' & m2' & moved' & Hdn' & Hall & Hmoved & _);
      [done|lia|done|].
    rewrite Hdn in Hdn'. injection Hdn' as <- <- <-.
    intros c Hc. rewrite Hlen2 in Hc.
    destruct (decide (c = i)) as [->|Hci]; [|by apply Hall].
    apply Hmoved; [done|lia].
  - destruct (up_spec h2 m2 i) as (h3 & m3 & Hup & Hst3 & _); [apply Hst2|lia|].
    rewrite Hup. exists h3, m3. split; [done|].
    split; [by eapply heap_step_trans|].
    intros Hhole.
    destruct (down_hole h m i (length h)) as (h2' & m2' & moved' & Hdn' & Hall & _ & Hstay);
      [done|lia|done|].
    rewrite Hdn in Hdn'. injection Hdn' as <- <- <-.
    destruct (Hstay eq_refl) as [-> ->].
    destruct (up_loop_order (S (length h)) h m i (length h))
      as (h3' & m3' & Hup' & Hord3); [done|lia|lia|lia| |].
    + split; [done|]. apply Hhole.
    + unfold heap.up in Hup. rewrite Hup in Hup'. injection Hup' as <- <-.
      unfold heap_ordered. by rewrite (heap_step_length _ _ _ _ Hst3).
Qed.

(** A min-heap in which the cell at position [i] got another expiry. *)
Lemma hole_pre_update h m0 m (i : nat) p :
  heap_indexed h m0 -> heap_ordered h m0 -> h !! i = Some p ->
  (forall q, q <> p -> expiry m q = expiry m0 q) ->
  hole_pre h m (length h) i.
Proof.
  intros Hidx Hord Hi Hsame.
  assert (forall k, k <> i -> expiry_at h m k = expiry_at h m0 k) as Hk.
  { intros k Hki. unfold expiry_at. destruct (h !! k) as [q|] eqn:Hq; [|done].
    simpl. apply Hsame. intros ->. apply Hki. by eapply heap_indexed_inj. }
  split.
  - intros c Hc Hci Hpc. unfold edge_ordered. rewrite !Hk by done. by apply Hord.
  - intros c Hc Hpc Hi0. rewrite !Hk by dlia.
    etrans; [apply (Hord i); lia|]. rewrite <- Hpc. apply Hord. lia.
Qed.
End heap_push_fix.

Section drain.
Context {K V : Type} `{Countable K}.
Implicit Types (t : TimedMap K V) (m : cells K V) (h : expiryHeap) (p : ptr).

Lemma drain_post_nil now t :
  heap_indexed (expHeap t) (elems t) -> heap_ordered (expHeap t) (elems t) ->
  Forall (fun p => now < expiry (elems t) p) (expHeap t) ->
  drain_post now t t [].
Proof.
  intros Hidx Hord Hlate.
  split; [done|]. split; [done|]. split; [apply same_data_refl|].
  split; [apply frame_refl|]. split; [done|]. split; [done|]. split; [done|].
  split; [done|]. split; [by intros p e ?%elem_of_nil|].
  split; [done|]. split; [done|]. done.
Qed.

Lemma expiry_sorted_same_data m m' l :
  same_data m m' -> expiry_sorted m' l -> expiry_sorted m l.
Proof.
  intros Hs. induction l as [|p l IH]; [done|]. simpl.
  intros [Hall Hsorted]. split; [|by apply IH].
  eapply Forall_impl; [exact Hall|]. intros q. simpl.
  by rewrite !(same_data_expiry _ _ _ Hs).
Qed.

Lemma drain_loop_spec fuel : forall now t acc,
  heap_indexed (expHeap t) (elems t) -> heap_ordered (expHeap t) (elems t) ->
  (length (expHeap t) <= fuel)%nat ->
  exists t' popped,
    drain_loop fuel now t acc = Ok (t', acc ++ popped)
    /\ drain_post now t t' popped.
Proof.
  induction fuel as [|fuel IH]; intros now t acc Hidx Hord Hfuel.
  - destruct t as [it h m cb st]. simpl in *.
    destruct h as [|p0 rest]; [|simpl in Hfuel; lia].
    exists (mkTimedMap it [] m cb st), []. simpl. rewrite app_nil_r.
    split; [done|]. by apply drain_post_nil.
  - destruct t as [it h m cb st]. simpl in Hidx, Hord, Hfuel.
    destruct h as [|p0 rest] eqn:Hh.
    { exists (mkTimedMap it [] m cb st), []. simpl. rewrite app_nil_r.
      split; [done|]. by apply drain_post_nil. }
    destruct (Hidx 0%nat p0 eq_refl) as (e0 & He0 & _).
    cbn [drain_loop expHeap elems]. rewrite (deref_Ok _ _ _ He0). simpl.
    case_bool_decide as Hdue.
    + destruct (Pop_spec (p0 :: rest) m p0 rest Hidx Hord eq_refl)
        as (h' & m' & Hpop & Hidx' & Hord' & Hs & Hf & Hperm & Hnotin).
      rewrite Hpop. simpl.
      destruct (same_data_lookup _ _ _ _ Hs He0) as (e & He & HKey & _ & HExp).
      rewrite (deref_Ok _ _ _ He). simpl.
      destruct (IH now (mkTimedMap (delete (Key e) it) h' m' cb (expired_incr st))
                  (acc ++ [p0])) as (t' & popped & Hdl & Hidx2 & Hord2
        & Hs2 & Hf2 & Hperm2 & Hdue2 & Hlate2 & Hsorted2 & Hgone2 & Hsub2 & Hkeep2
        & Hstats2 & Hcb2); [done|done|..].
      { simpl. apply Permutation_length in Hperm. simpl in *. lia. }
      simpl in *.
      exists t', (p0 :: popped). rewrite Hdl, <- app_assoc. simpl.
      split; [done|]. unfold drain_post. simpl.
      split; [done|]. split; [done|].
      split; [by eapply same_data_trans|].
      split.
      { intros q Hq. rewrite Hf2, Hf; [done..|].
        intros Hq'. apply Hq. rewrite Hperm. by right. }
      split; [by rewrite Hperm, Hperm2|].
      split.
      { constructor.
        - unfold expiry. by rewrite He0.
        - eapply Forall_impl; [exact Hdue2|]. intros q. simpl.
          by rewrite (same_data_expiry _ _ _ Hs). }
      split.
      { eapply Forall_impl; [exact Hlate2|]. intros q. simpl.
        by rewrite (same_data_expiry _ _ _ Hs). }
      split.
      { split; [|by eapply expiry_sorted_same_data].
        apply Forall_forall. intros q Hq.
        eapply (heap_ordered_min (p0 :: rest)); [done..|].
        rewrite Hperm. right. rewrite Hperm2. apply elem_of_app. by left. }
      split.
      { intros q eq [->|Hq]%elem_of_cons Heq.
        - simplify_eq. destruct (items t' !! Key e0) as [q|] eqn:Hq; [|done].
          apply Hsub2 in Hq. rewrite HKey in Hq. by rewrite lookup_delete_eq in Hq.
        - destruct (same_data_lookup _ _ _ _ Hs Heq) as (eq' & Heq' & HKey' & _).
          rewrite <- HKey'. by eapply Hgone2. }
      split.
      { intros key q Hq. apply Hsub2 in Hq.
    by apply lookup_delete_Some in Hq as [_ Hq]. }
      split.
      { intros key Hkey. rewrite Hkeep2.
        - rewrite lookup_delete_ne; [done|]. rewrite HKey.
          eapply Hkey; [by left|done].
        - intros q eq Hq Heq.
          destruct (same_data_lookup _ _ _ _ (same_data_sym _ _ Hs) Heq)
            as (eq' & Heq' & HKey' & _).
          rewrite <- HKey'. eapply Hkey; [by right|done]. }
      split; [|done].
      rewrite Hstats2. simpl. by rewrite Nat.iter_swap.
    + exists (mkTimedMap it (p0 :: rest) m cb st), []. simpl. rewrite app_nil_r.
      split; [done|]. apply drain_post_nil; [done..|]. simpl.
      apply Forall_forall. intros q Hq.
      pose proof (heap_ordered_min _ _ _ _ _ Hord eq_refl Hq) as Hle.
      unfold expiry in Hle at 1. rewrite He0 in Hle. simpl in Hle. lia.
Qed.
End drain.

(** ** The operations of the map *)

Section wf_keep.
Context {K V : Type} `{Countable K}.
Implicit Types (t : TimedMap K V) (m : cells K V) (h : expiryHeap) (p : ptr).

(** A well-formed map stays well-formed when one cell, at [p], is out of
    the heap and either out of the map or in it as a permanent entry, the
    rest being as before. *)
Lemma wf_without t t' p :
  wf t ->
  heap_indexed (expHeap t') (elems t') -> heap_ordered (expHeap t') (elems t') ->
  (forall q, q ∈ expHeap t' <-> q ∈ expHeap t /\ q <> p) ->
  (forall q, q <> p -> set_index 0 <$> elems t' !! q = set_index 0 <$> elems t !! q) ->
  (forall key q, items t' !! key = Some q -> q <> p -> items t !! key = Some q) ->
  (forall key q, items t !! key = Some q -> q <> p -> items t' !! key = Some q) ->
  (forall key, items t' !! key = Some p ->
     exists e, elems t' !! p = Some e /\ Key e = key
               /\ ExpiresAt e = ElementPermanent) ->
  wf t'.
Proof.
  intros [Hidx Hord Hlink Hlive] Hidx' Hord' Hheap Hdata Hsub Hkeep Hp.
  split; [done|done|..].
  - intros key q Hkey'. destruct (decide (q = p)) as [->|Hqp].
    + destruct (Hp _ Hkey') as (e & He & HK & HE).
      exists e. split; [done|]. split; [done|]. split; [done|].
      intros _ Hin. by apply Hheap in Hin as [_ Hne].
    + pose proof (Hsub _ _ Hkey' Hqp) as Hkey.
      destruct (Hlink _ _ Hkey) as (e & He & HK & Hin & Hout).
      pose proof (Hdata q Hqp) as Hd. rewrite He in Hd.
      destruct (elems t' !! q) as [e'|] eqn:He'; [|done].
      assert (Key e' = Key e /\ ExpiresAt e' = ExpiresAt e) as [HK' HE'].
      { destruct e, e'. simpl in Hd. by simplify_eq. }
      exists e'. split; [done|]. split; [congruence|]. rewrite HE'. split.
      * intros Htemp. destruct (Hin Htemp) as [_ Hat].
        assert (q ∈ expHeap t') as Hq'.
        { apply Hheap. split; [|done]. by eapply list_elem_of_lookup_2. }
        apply list_elem_of_lookup in Hq' as [i Hi].
        destruct (Hidx' _ _ Hi) as (e'' & He'' & Hie). simplify_eq.
        rewrite Hie. split; [lia|]. by rewrite Nat2Z.id.
      * intros Hperm Hq'. apply (Hout Hperm). by apply Hheap in Hq' as [Hq' _].
  - intros q Hq'. apply Hheap in Hq' as [Hq Hqp].
    destruct (Hlive _ Hq) as (e & He & Hkey).
    pose proof (Hdata q Hqp) as Hd. rewrite He in Hd.
    destruct (elems t' !! q) as [e'|] eqn:He'; [|done].
    assert (Key e' = Key e) as HK'.
    { destruct e, e'. simpl in Hd. by simplify_eq. }
    exists e'. split; [done|]. rewrite HK'. by apply Hkeep.
Qed.

Lemma Permutation_cons_elem_of (h h' : list ptr) p :
  h ≡ₚ p :: h' -> p ∉ h' -> forall q, q ∈ h' <-> q ∈ h /\ q <> p.
Proof.
  intros Hperm Hnotin q. rewrite Hperm, elem_of_cons. split.
  - intros Hq. split; [by right|]. by intros ->.
  - by intros [[->|Hq] Hne].
Qed.

Lemma made_permanent_wf t t' key p e :
  wf t -> items t !! key = Some p -> elems t !! p = Some e ->
  made_permanent t t' p e ->
  heap_indexed (expHeap t') (elems t') -> heap_ordered (expHeap t') (elems t') ->
  wf t'.
Proof.
  intros Hwf Hkey He (Hit & Hnotin & Hperm & (e' & He' & HE' & HK' & _) & Hdata & _)
    Hidx' Hord'.
  apply (wf_without t t' p); try done.
  - by apply Permutation_cons_elem_of.
  - intros k q Hk _. by rewrite <- Hit.
  - intros k q Hk _. by rewrite Hit.
  - intros k Hk. rewrite Hit in Hk.
    destruct (wf_linked _ Hwf _ _ Hk) as (e0 & He0 & HK0 & _).
    assert (e0 = e) as -> by congruence.
    exists e'. split; [done|]. split; [congruence|done].
Qed.

Lemma removed_now_wf t t' key p e :
  wf t -> items t !! key = Some p -> elems t !! p = Some e ->
  removed_now t t' key p e ->
  heap_indexed (expHeap t') (elems t') -> heap_ordered (expHeap t') (elems t') ->
  wf t'.
Proof.
  intros Hwf Hkey He (Hit & Hnotin & Htemp & Hperm0 & Hs & _) Hidx' Hord'.
  destruct (wf_linked _ Hwf _ _ Hkey) as (e0 & He0 & HK0 & _ & Hout).
  assert (e0 = e) as -> by congruence.
  apply (wf_without t t' p); try done.
  - destruct (decide (ExpiresAt e = ElementPermanent)) as [HE|HE].
    + rewrite (Hperm0 HE). intros q. split.
      * intros Hq. split; [done|]. intros ->. by apply (Hout HE).
      * by intros [Hq _].
    + by apply Permutation_cons_elem_of; [apply Htemp|].
  - intros k q Hk _. rewrite Hit in Hk. by apply lookup_delete_Some in Hk as [_ Hk].
  - intros k q Hk Hqp. rewrite Hit. rewrite lookup_delete_ne; [done|].
    intros <-. rewrite Hkey in Hk. by injection Hk as ->.
  - intros k. rewrite Hit. intros [Hne Hk]%lookup_delete_Some.
    destruct (wf_linked _ Hwf _ _ Hk) as (e1 & He1 & HK1 & _).
    assert (e1 = e) as -> by congruence. congruence.
Qed.
End wf_keep.

Section wf_with.
Context {K V : Type} `{Countable K}.
Implicit Types (t : TimedMap K V) (m : cells K V) (h : expiryHeap) (p : ptr).

(** A well-formed map stays well-formed when the cell at [p] is in the
    heap as the temporary entry of [key], the rest being as before. *)
Lemma wf_with t t' key p e' :
  wf t ->
  heap_indexed (expHeap t') (elems t') -> heap_ordered (expHeap t') (elems t') ->
  (forall q, q ∈ expHeap t' <-> q ∈ expHeap t \/ q = p) ->
  (forall q, q <> p -> set_index 0 <$> elems t' !! q = set_index 0 <$> elems t !! q) ->
  items t' = <[key := p]> (items t) ->
  (items t !! key = None \/ items t !! key = Some p) ->
  (forall k, items t !! k = Some p -> k = key) ->
  elems t' !! p = Some e' -> Key e' = key -> ExpiresAt e' <> ElementPermanent ->
  wf t'.
Proof.
  intros [Hidx Hord Hlink Hlive] Hidx' Hord' Hheap Hdata Hit Hold Honly He' HK' HE'.
  assert (forall q, q ∈ expHeap t' ->
            exists e, elems t' !! q = Some e
                      /\ 0 <= index e /\ expHeap t' !! Z.to_nat (index e) = Some q)
    as Hpos.
  { intros q [i Hi]%list_elem_of_lookup.
    destruct (Hidx' _ _ Hi) as (e & He & Hie).
    exists e. split; [done|]. rewrite Hie. split; [lia|]. by rewrite Nat2Z.id. }
  split; [done|done|..].
  - intros k q Hk'. rewrite Hit in Hk'.
    apply lookup_insert_Some in Hk' as [[<- <-]|[Hne Hk]].
    + exists e'. split; [done|]. split; [done|]. split; [|done].
      intros _. destruct (Hpos p) as (e & He & Hpe); [apply Hheap; by right|].
      by simplify_eq.
    + assert (q <> p) as Hqp by (intros ->; by apply Hne, eq_sym, Honly).
      destruct (Hlink _ _ Hk) as (e & He & HK & Hin & Hout).
      pose proof (Hdata q Hqp) as Hd. rewrite He in Hd.
      destruct (elems t' !! q) as [e1|] eqn:He1; [|done].
      assert (Key e1 = Key e /\ ExpiresAt e1 = ExpiresAt e) as [HK1 HE1].
      { destruct e, e1. simpl in Hd. by simplify_eq. }
      exists e1. split; [done|]. split; [congruence|]. rewrite HE1. split.
      * intros Htemp. destruct (Hin Htemp) as [_ Hat].
        destruct (Hpos q) as (e2 & He2 & Hpe).
        { apply Hheap. left. by eapply list_elem_of_lookup_2. }
        by simplify_eq.
      * intros Hperm [Hq|Hq]%Hheap; [by apply (Hout Hperm)|done].
  - intros q Hq'. destruct (decide (q = p)) as [->|Hqp].
    + exists e'. split; [done|]. rewrite HK', Hit. apply lookup_insert_eq.
    + apply Hheap in Hq' as [Hq|Hq]; [|done].
      destruct (Hlive _ Hq) as (e & He & Hk).
      pose proof (Hdata q Hqp) as Hd. rewrite He in Hd.
      destruct (elems t' !! q) as [e1|] eqn:He1; [|done].
      assert (Key e1 = Key e) as HK1.
      { destruct e, e1. simpl in Hd. by simplify_eq. }
      exists e1. split; [done|]. rewrite HK1, Hit.
      rewrite lookup_insert_ne; [done|].
      intros Heq. rewrite <- Heq in Hk.
      destruct Hold as [Hold|Hold]; rewrite Hold in Hk; by simplify_eq.
Qed.

Lemma fresh_not_allocated (m : cells K V) : m !! fresh (dom m) = None.
Proof. apply not_elem_of_dom. apply is_fresh. Qed.

Lemma heap_allocated h m p :
  heap_indexed h m -> p ∈ h -> is_Some (m !! p).
Proof.
  intros Hidx [i Hi]%list_elem_of_lookup.
  destruct (Hidx _ _ Hi) as (e & He & _). by eexists.
Qed.

Lemma fresh_not_in_heap h m :
  heap_indexed h m -> fresh (dom m) ∉ h.
Proof.
  intros Hidx Hin. apply (heap_allocated _ _ _ Hidx) in Hin as [e He].
  by rewrite fresh_not_allocated in He.
Qed.

Lemma fresh_not_linked t key :
  wf t -> items t !! key <> Some (fresh (dom (elems t))).
Proof.
  intros Hwf Hk. destruct (wf_linked _ Hwf _ _ Hk) as (e & He & _).
  by rewrite fresh_not_allocated in He.
Qed.

Lemma same_data_at m m' q :
  same_data m m' -> set_index 0 <$> m' !! q = set_index 0 <$> m !! q.
Proof. intros Hs. by rewrite Hs. Qed.
End wf_with.

Section make_permanent.
Context {K V : Type} `{Countable K}.
Implicit Types (t : TimedMap K V) (m : cells K V) (h : expiryHeap) (p : ptr).

Lemma with_elems_id t : with_elems (elems t) t = t.
Proof. by destruct t. Qed.

Lemma expiry_at_insert_out h m p (e : element K V) k :
  p ∉ h -> expiry_at h (<[p := e]> m) k = expiry_at h m k.
Proof.
  intros Hp. unfold expiry_at. destruct (h !! k) as [q|] eqn:Hq; [|done].
  simpl. unfold expiry. rewrite lookup_insert_ne; [done|].
  intros ->. apply Hp. by eapply list_elem_of_lookup_2.
Qed.

Lemma heap_indexed_insert_out h m p (e : element K V) :
  heap_indexed h m -> p ∉ h -> heap_indexed h (<[p := e]> m).
Proof.
  intros Hidx Hp i q Hq. rewrite lookup_insert_ne; [by apply Hidx|].
  intros ->. apply Hp. by eapply list_elem_of_lookup_2.
Qed.

Lemma heap_ordered_insert_out h m p (e : element K V) :
  heap_ordered h m -> p ∉ h -> heap_ordered h (<[p := e]> m).
Proof.
  intros Hord Hp c Hc. rewrite !expiry_at_insert_out by done. by apply Hord.
Qed.

(** Under the invariant, the recorded position of a temporary entry is
    the place where [heap.Remove] finds it. *)
Lemma remove_entry_spec t key p e :
  wf t ->
  items t !! key = Some p -> elems t !! p = Some e ->
  ExpiresAt e <> ElementPermanent ->
  0 <= index e < Z.of_nat (length (expHeap t))
  /\ exists h' m',
       heap.Remove (expHeap t) (elems t) (index e) = Ok (h', m', p)
       /\ heap_indexed h' m' /\ heap_ordered h' m'
       /\ same_data (elems t) m'
       /\ frame (expHeap t) (elems t) m'
       /\ expHeap t ≡ₚ p :: h' /\ p ∉ h'.
Proof.
  intros [Hidx Hord Hlink _] Hkey He Htemp.
  destruct (Hlink _ _ Hkey) as (e' & He' & _ & Hin & _). simplify_eq.
  destruct (Hin Htemp) as [Hge Hat].
  pose proof (lookup_lt_Some _ _ _ Hat) as Hlt.
  split; [lia|].
  rewrite <- (Z2Nat.id (index e)) by done.
  destruct (Remove_spec _ _ _ _ Hidx Hat)
    as (h' & m' & Hrm & Hidx' & Hs & Hf & Hperm & Hnotin).
  exists h', m'. split; [done|]. split; [done|].
  split; [exact (Remove_ordered _ _ _ _ _ _ _ Hidx Hord Hat Hrm)|done].
Qed.

Lemma to_permanent_already t p e :
  elems t !! p = Some e -> ExpiresAt e = ElementPermanent ->
  Main.to_permanent p t = Ok t.
Proof.
  intros He Hperm. unfold Main.to_permanent.
  rewrite (deref_Ok _ _ _ He). simpl.
  rewrite bool_decide_false by (intros Hne; by apply Hne). simpl.
  rewrite (assign_Ok _ _ _ _ He). simpl.
  rewrite <- Hperm, set_ExpiresAt_id, insert_id by done.
  by rewrite with_elems_id.
Qed.

Lemma same_data_other m m' p (upd : element K V -> element K V) q :
  same_data m m' -> q <> p -> forall e : element K V,
  set_index 0 <$> <[p := upd e]> m' !! q = set_index 0 <$> m !! q.
Proof. intros Hs Hne e. rewrite lookup_insert_ne by done. by rewrite Hs. Qed.

Lemma to_permanent_temporary t key p e :
  wf t ->
  items t !! key = Some p -> elems t !! p = Some e ->
  ExpiresAt e <> ElementPermanent ->
  exists t', Main.to_permanent p t = Ok t' /\ made_permanent t t' p e /\ wf t'.
Proof.
  intros Hwf Hkey He Htemp.
  destruct (remove_entry_spec t key p e Hwf Hkey He Htemp)
    as (Hrange & h' & m' & Hrm & Hidx' & Hord' & Hs & Hf & Hperm & Hnotin).
  unfold Main.to_permanent.
  rewrite (deref_Ok _ _ _ He). simpl.
  rewrite bool_decide_true by done.
  rewrite bool_decide_true by lia.
  rewrite Hrm. simpl.
  destruct (same_data_lookup _ _ _ _ Hs He) as (e1 & He1 & HK & HV & HE).
  rewrite (assign_Ok _ _ _ _ He1). simpl.
  eexists. split; [done|].
  assert (made_permanent t
            (with_elems (<[p := set_ExpiresAt ElementPermanent e1]> m')
               (mkTimedMap (items t) h' m' (onExpire t) (permanent_incr (stats t))))
            p e) as Hmade.
  { split; [done|]. split; [done|]. split; [done|]. simpl.
    split. { eexists. rewrite lookup_insert_eq. split; [done|]. by simpl. }
    split; [|done].
    intros q Hq. by apply same_data_other. }
  split; [done|].
  eapply made_permanent_wf; [exact Hwf|exact Hkey|exact He|exact Hmade|..]; simpl.
  - by apply heap_indexed_insert_out.
  - by apply heap_ordered_insert_out.
Qed.

Lemma MakePermanent_absent_Temap key t :
  items t !! key = None -> Temap.MakePermanent key t = Ok (t, false).
Proof. unfold Temap.MakePermanent. by intros ->. Qed.

Lemma MakePermanent_absent_Main key t :
  items t !! key = None -> Main.MakePermanent key t = Ok (t, false).
Proof. unfold Main.MakePermanent. by intros ->. Qed.

Lemma MakePermanent_already_Temap key t p e :
  items t !! key = Some p -> elems t !! p = Some e ->
  ExpiresAt e = ElementPermanent ->
  Temap.MakePermanent key t = Ok (t, true).
Proof.
  intros Hkey He Hperm. unfold Temap.MakePermanent.
  rewrite Hkey, (deref_Ok _ _ _ He). simpl.
  by rewrite bool_decide_true.
Qed.

Lemma MakePermanent_already_Main key t p e :
  items t !! key = Some p -> elems t !! p = Some e ->
  ExpiresAt e = ElementPermanent ->
  Main.MakePermanent key t = Ok (t, true).
Proof.
  intros Hkey He Hperm. unfold Main.MakePermanent.
  by rewrite Hkey, (to_permanent_already _ _ _ He Hperm).
Qed.

Lemma MakePermanent_temporary_Main key t p e :
  wf t ->
  items t !! key = Some p -> elems t !! p = Some e ->
  ExpiresAt e <> ElementPermanent ->
  exists t', Main.MakePermanent key t = Ok (t', true)
             /\ made_permanent t t' p e /\ wf t'.
Proof.
  intros Hwf Hkey He Htemp. unfold Main.MakePermanent. rewrite Hkey.
  destruct (to_permanent_temporary t key p e) as (t' & -> & Hmade); try done.
  by exists t'.
Qed.

Lemma MakePermanent_temporary_Temap key t p e :
  wf t ->
  items t !! key = Some p -> elems t !! p = Some e ->
  ExpiresAt e <> ElementPermanent ->
  exists t', Temap.MakePermanent key t = Ok (t', true)
             /\ made_permanent t t' p e /\ wf t'.
Proof.
  intros Hwf Hkey He Htemp.
  destruct (remove_entry_spec t key p e Hwf Hkey He Htemp)
    as (Hrange & h' & m' & Hrm & Hidx' & Hord' & Hs & Hf & Hperm & Hnotin).
  unfold Temap.MakePermanent.
  rewrite Hkey, (deref_Ok _ _ _ He). simpl.
  rewrite bool_decide_false by done.
  rewrite bool_decide_true by lia.
  rewrite Hrm. simpl.
  destruct (same_data_lookup _ _ _ _ Hs He) as (e1 & He1 & HK & HV & HE).
  rewrite (assign_Ok _ _ _ _ He1). simpl.
  eexists. split; [done|].
  assert (made_permanent t
            (mkTimedMap (items t) h' (<[p := set_ExpiresAt ElementPermanent e1]> m')
               (onExpire t) (permanent_incr (stats t)))
            p e) as Hmade.
  { split; [done|]. split; [done|]. split; [done|]. simpl.
    split. { eexists. rewrite lookup_insert_eq. split; [done|]. by simpl. }
    split; [|done].
    intros q Hq. by apply same_data_other. }
  split; [done|].
  eapply made_permanent_wf; [exact Hwf|exact Hkey|exact He|exact Hmade|..]; simpl.
  - by apply heap_indexed_insert_out.
  - by apply heap_ordered_insert_out.
Qed.
End make_permanent.

Section set_expiry.
Context {K V : Type} `{Countable K}.
Implicit Types (t : TimedMap K V) (m : cells K V) (h : expiryHeap) (p : ptr).

Lemma SetExpiry_absent pkg key x now t :
  items t !! key = None -> SetExpiry_in pkg key x now t = Ok (t, false).
Proof.
  intros Hkey. destruct pkg; simpl;
    unfold Temap.SetExpiry, Main.SetExpiry; by rewrite Hkey.
Qed.

(** The branch [if newExp <= now { ... }], the same in both packages. *)
Lemma expired_branch_spec t key p e :
  wf t ->
  items t !! key = Some p -> elems t !! p = Some e ->
  exists h' m',
    (if bool_decide (ExpiresAt e <> ElementPermanent /\ index e >= 0) then
       '(h, m, _) ← heap.Remove (expHeap t) (elems t) (index e); Ok (h, m)
     else Ok (expHeap t, elems t)) = Ok (h', m')
    /\ removed_now t
         (mkTimedMap (delete key (items t)) h' m' (onExpire t) (removed_incr (stats t)))
         key p e
    /\ wf (mkTimedMap (delete key (items t)) h' m' (onExpire t)
             (removed_incr (stats t))).
Proof.
  intros Hwf Hkey He.
  assert (forall h' m',
    removed_now t
      (mkTimedMap (delete key (items t)) h' m' (onExpire t) (removed_incr (stats t)))
      key p e ->
    heap_indexed h' m' -> heap_ordered h' m' ->
    wf (mkTimedMap (delete key (items t)) h' m' (onExpire t)
          (removed_incr (stats t)))) as Hkeep.
  { intros h' m' Hpost Hidx' Hord'. by eapply removed_now_wf. }
  destruct (decide (ExpiresAt e = ElementPermanent)) as [Hperm|Htemp].
  - rewrite bool_decide_false by (intros [Hne _]; by apply Hne).
    eexists _, _. split; [done|].
    destruct (wf_linked _ Hwf _ _ Hkey) as (e' & He' & _ & _ & Hout). simplify_eq.
    assert (removed_now t
      (mkTimedMap (delete key (items t)) (expHeap t) (elems t) (onExpire t)
         (removed_incr (stats t))) key p e) as Hpost.
    { split; [done|]. split; [by apply Hout|]. split; [done|]. split; [done|].
      split; [apply same_data_refl|]. done. }
    split; [done|]. apply Hkeep; [done|apply Hwf..].
  - destruct (remove_entry_spec t key p e Hwf Hkey He Htemp)
      as (Hrange & h' & m' & Hrm & Hidx' & Hord' & Hs & Hf & Hperm & Hnotin).
    rewrite bool_decide_true by (split; [done|lia]).
    rewrite Hrm. simpl. eexists _, _. split; [done|].
    assert (removed_now t
      (mkTimedMap (delete key (items t)) h' m' (onExpire t)
         (removed_incr (stats t))) key p e) as Hpost.
    { split; [done|]. split; [done|]. split; [done|]. split; [done|].
      split; [done|]. done. }
    split; [done|]. by apply Hkeep.
Qed.

Lemma SetExpiry_expired pkg key x now t p e :
  wf t ->
  items t !! key = Some p -> elems t !! p = Some e ->
  time.IsZero x = false -> time.UnixNano x <= time.UnixNano now ->
  exists t', SetExpiry_in pkg key x now t = Ok (t', false)
             /\ removed_now t t' key p e /\ wf t'.
Proof.
  intros Hwf Hkey He Hzero Hle.
  destruct (expired_branch_spec t key p e Hwf Hkey He)
    as (h' & m' & Hbr & Hpost).
  destruct pkg; simpl; unfold Temap.SetExpiry, Main.SetExpiry;
    rewrite Hkey, (deref_Ok _ _ _ He); simpl; rewrite Hzero;
    rewrite bool_decide_true by done; rewrite Hbr; simpl; eauto.
Qed.

Lemma MakePermanent_absent pkg key t :
  items t !! key = None -> MakePermanent_in pkg key t = Ok (t, false).
Proof.
  destruct pkg; [apply MakePermanent_absent_Temap | apply MakePermanent_absent_Main].
Qed.

Lemma MakePermanent_already pkg key t p e :
  items t !! key = Some p -> elems t !! p = Some e ->
  ExpiresAt e = ElementPermanent ->
  MakePermanent_in pkg key t = Ok (t, true).
Proof.
  destruct pkg; [apply MakePermanent_already_Temap | apply MakePermanent_already_Main].
Qed.

Lemma MakePermanent_temporary pkg key t p e :
  wf t ->
  items t !! key = Some p -> elems t !! p = Some e ->
  ExpiresAt e <> ElementPermanent ->
  exists t', MakePermanent_in pkg key t = Ok (t', true)
             /\ made_permanent t t' p e /\ wf t'.
Proof.
  destruct pkg; [apply MakePermanent_temporary_Temap | apply MakePermanent_temporary_Main].
Qed.
End set_expiry.

Lemma demo_run :
  run PkgMain [OpSetTemporary 1%nat 10%nat 100; OpSetTemporary 2%nat 20%nat 50;
               OpSetPermanent 3%nat 30%nat] (New None) = Ok demo.
Proof. vm_compute. reflexivity. Qed.

Lemma demo_wf : wf demo.
Proof.
  split.
  - intros [|[|i]] p Hp; simpl in Hp; [| |done];
      injection Hp as <-; eexists; (split; [reflexivity|done]).
  - intros c Hc. simpl in Hc. assert (c = 1%nat) as -> by lia. by vm_compute.
  - intros key p Hkey. simpl in Hkey.
    apply lookup_insert_Some in Hkey as [[<- <-]|[? Hkey]].
    { eexists. split; [reflexivity|]. split; [done|]. split; [done|].
      simpl. intros [=]. }
    apply lookup_insert_Some in Hkey as [[<- <-]|[? Hkey]].
    { eexists. split; [reflexivity|]. split; [done|]. split; [done|].
      simpl. intros [=]. }
    apply lookup_insert_Some in Hkey as [[<- <-]|[? Hkey]]; [|done].
    eexists. split; [reflexivity|]. split; [done|]. split; [done|].
    intros _. simpl. rewrite !not_elem_of_cons.
    split; [done|]. split; [done|]. apply not_elem_of_nil.
  - intros p Hp. simpl in Hp.
    apply elem_of_cons in Hp as [->|Hp]; [by eexists|].
    apply elem_of_cons in Hp as [->|Hp]; [by eexists|].
    by apply elem_of_nil in Hp.
Qed.

(** ** The cleaner *)

Section cleaner_proofs.
Context {K V : Type} `{Countable K}.
Implicit Types (t : TimedMap K V) (m : cells K V) (h : expiryHeap) (p : ptr).

Lemma drain_spec now t :
  heap_indexed (expHeap t) (elems t) -> heap_ordered (expHeap t) (elems t) ->
  exists t' popped, drain now t = Ok (t', popped) /\ drain_post now t t' popped.
Proof.
  intros Hidx Hord. unfold drain.
  destruct (drain_loop_spec (length (expHeap t)) now t [] Hidx Hord)
    as (t' & popped & Hdl & Hpost); [done|].
  exists t', popped. by rewrite Hdl.
Qed.

Lemma cleaner_section_drained now1 now2 t t2 ps :
  cleaner_section now1 now2 t = Ok (t2, Drained ps) ->
  drain (time.UnixNano now2) t = Ok (t2, ps).
Proof.
  unfold cleaner_section. destruct (expHeap t) as [|next rest]; [done|].
  intros (e & _ & Hrest)%bind_Ok_inv.
  case_bool_decide; [|done].
  apply bind_Ok_inv in Hrest as ([t' ps'] & Hd & [= <- <-]). done.
Qed.

(** A drain keeps the map well-formed. *)
Lemma drain_post_wf now t t' popped :
  wf t -> drain_post now t t' popped -> wf t'.
Proof.
  intros [Hidx Hord Hlink Hlive]
    (Hidx' & Hord' & Hs & Hf & Hperm & Hdue & Hlate & Hsorted
     & Hgone & Hsub & Hkeep & Hstats & Hcb).
  pose proof (heap_indexed_NoDup _ _ Hidx) as Hnd.
  rewrite Hperm in Hnd. apply NoDup_app in Hnd as (_ & Hdisj & _).
  split; [done|done|..].
  - intros key p Hkey'. pose proof (Hsub _ _ Hkey') as Hkey.
    destruct (Hlink _ _ Hkey) as (e & He & HK & Hin & Hout).
    destruct (same_data_lookup _ _ _ _ Hs He) as (e' & He' & HK' & _ & HE').
    assert (p ∉ popped) as Hnp.
    { intros Hp. specialize (Hgone _ _ Hp He). rewrite HK in Hgone. congruence. }
    exists e'. split; [done|]. split; [congruence|]. rewrite HE'. split.
    + intros Htemp. destruct (Hin Htemp) as [_ Hat].
      assert (p ∈ expHeap t') as Hp'.
      { apply list_elem_of_lookup_2 in Hat. rewrite Hperm in Hat.
        by apply elem_of_app in Hat as [Hat|Hat]. }
      apply list_elem_of_lookup in Hp' as [i Hi].
      destruct (Hidx' _ _ Hi) as (e'' & He'' & Hie). simplify_eq.
      rewrite Hie. split; [lia|]. by rewrite Nat2Z.id.
    + intros Hperm0 Hp'. apply (Hout Hperm0). rewrite Hperm.
      apply elem_of_app. by right.
  - intros p Hp'.
    assert (p ∈ expHeap t) as Hp by (rewrite Hperm; apply elem_of_app; by right).
    destruct (Hlive _ Hp) as (e & He & Hkey).
    destruct (same_data_lookup _ _ _ _ Hs He) as (e' & He' & HK' & _).
    exists e'. split; [done|]. rewrite HK'. rewrite Hkeep; [done|].
    intros q eq Hq Heq HKq.
    assert (q ∈ expHeap t) as Hqh by (rewrite Hperm; apply elem_of_app; by left).
    destruct (Hlive _ Hqh) as (eq' & Heq' & Hkeyq). simplify_eq.
    rewrite HKq in Hkeyq. rewrite Hkey in Hkeyq. injection Hkeyq as ->.
    by apply (Hdisj _ Hq).
Qed.

(** X29. In a drain pass on a well-formed map, the cleaner pops exactly the
    heap entries whose expiry is at or before [now], each once, in
    non-decreasing order of expiry, and deletes each from the map, keeping
    the other keys and leaving a well-formed map. *)
Theorem cleaner_drains_due_entries (now : Z) t :
  wf t ->
  exists t' popped,
    drain now t = Ok (t', popped)
    /\ wf t'
    /\ NoDup popped
    /\ (forall p, p ∈ popped <-> p ∈ expHeap t /\ expiry (elems t) p <= now)
    /\ (forall p, p ∈ expHeap t' <-> p ∈ expHeap t /\ now < expiry (elems t) p)
    /\ (forall p, p ∈ popped ->
          exists e, elems t !! p = Some e /\ items t !! Key e = Some p
                    /\ items t' !! Key e = None)
    /\ (forall key p, items t !! key = Some p -> p ∉ popped ->
          items t' !! key = Some p)
    /\ expiry_sorted (elems t) popped.
Proof.
  intros Hwf. pose proof Hwf as [Hidx Hord Hlink Hlive].
  destruct (drain_spec now t Hidx Hord) as (t' & popped & Hdrain & Hpost).
  pose proof (drain_post_wf now t t' popped Hwf Hpost) as Hwf'.
  destruct Hpost as (Hidx' & Hord' & Hs & Hf & Hperm & Hdue & Hlate & Hsorted
    & Hgone & Hnone & Hkeep & Hstats & Hcb).
  pose proof (heap_indexed_NoDup _ _ Hidx) as Hnd.
  rewrite Hperm in Hnd. apply NoDup_app in Hnd as (Hnd1 & Hdisj & Hnd2).
  rewrite Forall_forall in Hdue. rewrite Forall_forall in Hlate.
  assert (forall p, p ∈ popped <-> p ∈ expHeap t /\ expiry (elems t) p <= now) as Hiff.
  { intros p. split.
    - intros Hp. split; [|by apply Hdue]. rewrite Hperm. apply elem_of_app. by left.
    - intros [Hp Hle]. rewrite Hperm in Hp. apply elem_of_app in Hp as [Hp|Hp]; [done|].
      specialize (Hlate _ Hp). lia. }
  exists t', popped. split; [done|]. split; [done|]. split; [done|].
  split; [done|]. split.
  { intros p. split.
    - intros Hp. split; [|by apply Hlate]. rewrite Hperm. apply elem_of_app. by right.
    - intros [Hp Hlt]. rewrite Hperm in Hp. apply elem_of_app in Hp as [Hp|Hp]; [|done].
      specialize (Hdue _ Hp). lia. }
  split.
  { intros p Hp. destruct (Hlive p) as (e & He & Hkey); [by apply Hiff|].
    exists e. split; [done|]. split; [done|]. by eapply Hgone. }
  split.
  { intros key p Hkey Hp. rewrite Hkeep; [done|].
    intros q e Hq He <-.
    destruct (Hlive q) as (e' & He' & Hkey'); [by apply Hiff|].
    rewrite He in He'. injection He' as <-.
    rewrite Hkey in Hkey'. injection Hkey' as ->. done. }
  done.
Qed.
End cleaner_proofs.

Lemma cleaner_drains_due_entries_witness :
  wf demo /\
  exists t' popped,
    drain 150 demo = Ok (t', popped)
    /\ popped = [1%nat; 0%nat]
    /\ expiry (elems demo) 1%nat = 50 /\ expiry (elems demo) 0%nat = 100
    /\ expHeap t' = []
    /\ items t' !! 1%nat = None /\ items t' !! 2%nat = None
    /\ items t' !! 3%nat = Some 2%nat.
Proof.
  split; [exact demo_wf|].
  destruct (cleaner_drains_due_entries 150 demo demo_wf)
    as (t' & popped & Hd & _).
  exists t', popped. split; [exact Hd|].
  revert Hd. vm_compute. intros [= <- <-]. repeat split; reflexivity.
Defined.

(** ** The counters *)

(** Inversion of a computation that returned [Ok]. *)
Ltac inv_Ok :=
  repeat match goal with
  | H : Ok _ = Ok _ |- _ => injection H as H; subst
  | H : (_, _) = (_, _) |- _ => injection H as ? H; subst
  | H : @Panic _ = Ok _ |- _ => discriminate H
  | H : @OutOfFuel _ = Ok _ |- _ => discriminate H
  | H : (_ ≫= _) = Ok _ |- _ =>
      let x := fresh "x" in let Hx := fresh "Hx" in
      apply bind_Ok_inv in H as (x & Hx & H)
  | H : (_ <$> _) = Ok _ |- _ =>
      let x := fresh "x" in let Hx := fresh "Hx" in
      apply fmap_Ok_inv in H as (x & Hx & H)
  | H : (let '(_, _) := ?x in _) = Ok _ |- _ => destruct x
  | H : (if bool_decide ?P then _ else _) = Ok _ |- _ =>
      destruct (decide P); [rewrite bool_decide_true in H by done
                           |rewrite bool_decide_false in H by done]
  | H : (if ?b then _ else _) = Ok _ |- _ => destruct b eqn:?
  | H : match ?x with _ => _ end = Ok _ |- _ => destruct x eqn:?
  end.

Section counters.
Context {K V : Type} `{Countable K}.
Implicit Types (t : TimedMap K V) (m : cells K V) (h : expiryHeap) (p : ptr).








End counters.


(** ** The calls of the interface *)

Section claims.
Context {K V : Type} `{Countable K}.
Implicit Types (t : TimedMap K V) (m : cells K V) (h : expiryHeap) (p : ptr).

Lemma made_permanent_lookup t t' key p e :
  items t !! key = Some p -> made_permanent t t' p e ->
  exists e', items t' !! key = Some p /\ elems t' !! p = Some e'
             /\ ExpiresAt e' = ElementPermanent.
Proof.
  intros Hkey (Hit & _ & _ & (e' & He' & Hperm & _) & _).
  exists e'. by rewrite Hit.
Qed.

(** X27. [MakePermanent] returns false on an absent key and changes
    nothing; returns true on a permanent entry and changes nothing; on a
    temporary entry of a well-formed map it takes the entry out of the
    heap, sets the sentinel expiry, adds one to the permanent counter and
    returns true, leaving a well-formed map, and a second call returns true
    and changes nothing. *)
Theorem MakePermanent_idempotent pkg key t :
  (items t !! key = None -> MakePermanent_in pkg key t = Ok (t, false))
  /\ (forall p e, items t !! key = Some p -> elems t !! p = Some e ->
        ExpiresAt e = ElementPermanent ->
        MakePermanent_in pkg key t = Ok (t, true))
  /\ (forall p e, wf t -> items t !! key = Some p -> elems t !! p = Some e ->
        ExpiresAt e <> ElementPermanent ->
        exists t',
          MakePermanent_in pkg key t = Ok (t', true)
          /\ made_permanent t t' p e
          /\ permanent (stats t') = incr (permanent (stats t))
          /\ wf t'
          /\ MakePermanent_in pkg key t' = Ok (t', true)).
Proof.
  split; [apply MakePermanent_absent|]. split; [apply MakePermanent_already|].
  intros p e Hwf Hkey He Htemp.
  destruct (MakePermanent_temporary pkg key t p e Hwf Hkey He Htemp)
    as (t' & Hmp & Hmade & Hwf').
  exists t'. split; [done|]. split; [done|].
  split. { destruct Hmade as (_ & _ & _ & _ & _ & -> & _). done. }
  split; [done|].
  destruct (made_permanent_lookup _ _ _ _ _ Hkey Hmade) as (e' & Hkey' & He' & Hperm).
  by eapply MakePermanent_already.
Qed.

(** X28. [SetExpiry] on an absent key returns false and changes
    nothing; on a present key of a well-formed map, with a time that is
    not the zero time and whose [UnixNano] is at or before the one of the
    clock, it deletes the key from the map and from the heap, adds one to
    the removed counter, leaves the expired counter, and returns false,
    leaving a well-formed map. *)
Theorem SetExpiry_past_removes pkg key (x now : time.Time) t :
  (items t !! key = None -> SetExpiry_in pkg key x now t = Ok (t, false))
  /\ (forall p e, wf t -> items t !! key = Some p -> elems t !! p = Some e ->
        time.IsZero x = false -> time.UnixNano x <= time.UnixNano now ->
        exists t',
          SetExpiry_in pkg key x now t = Ok (t', false)
          /\ removed_now t t' key p e
          /\ items t' !! key = None
          /\ wf t').
Proof.
  split; [apply SetExpiry_absent|].
  intros p e Hwf Hkey He Hzero Hle.
  destruct (SetExpiry_expired pkg key x now t p e Hwf Hkey He Hzero Hle)
    as (t' & Hse & Hpost & Hwf').
  exists t'. split; [done|]. split; [done|]. split; [|done].
  destruct Hpost as (-> & _). apply lookup_delete_eq.
Qed.

Lemma Get_present key t e :
  entry t key = Some e -> Get key t = Ok (t, (Some (Value e), ExpiresAt e, true)).
Proof.
  unfold Get, entry. intros He. destruct (items t !! key) as [p|]; [|done].
  simpl in He. by rewrite (deref_Ok _ _ _ He).
Qed.

(** C8. [Get] returns the state it was given: for a present key the
    value and the expiry of its entry, whatever the expiry, with found
    true; for an absent key found false. *)
Theorem Get_read_only key t :
  (forall e, entry t key = Some e ->
     Get key t = Ok (t, (Some (Value e), ExpiresAt e, true)))
  /\ (items t !! key = None ->
        Get key t = Ok (t, (None, ElementDoesntExist, false)))
  /\ (forall t' r, Get key t = Ok (t', r) -> t' = t).
Proof.
  split; [apply Get_present|]. unfold Get. split.
  - by intros ->.
  - intros t' r Hg. destruct (items t !! key) as [p|].
    + apply bind_Ok_inv in Hg as (e & _ & [= <- _]). done.
    + by injection Hg as <- _.
Qed.

(** C10. [RemoveAll] leaves the four counters as they are, and the size
    of the map and the "current" value of [Stats] are zero after it. *)
Theorem RemoveAll_keeps_counters t :
  exists t',
    RemoveAll t = Ok t'
    /\ stats t' = stats t
    /\ Stats t' !! "added" = Stats t !! "added"
    /\ Stats t' !! "removed" = Stats t !! "removed"
    /\ Stats t' !! "expired" = Stats t !! "expired"
    /\ Stats t' !! "permanent" = Stats t !! "permanent"
    /\ Stats t' !! "current" = Some 0
    /\ Size t' = 0
    /\ items t' = ∅ /\ expHeap t' = [].
Proof.
  eexists. split; [reflexivity|]. simpl.
  split; [done|]. unfold Stats, Size. simpl.
  rewrite !lookup_insert_eq.
  repeat (rewrite lookup_insert_ne by done; rewrite ?lookup_insert_eq).
  rewrite map_size_empty. done.
Qed.
End claims.

Lemma MakePermanent_idempotent_witness :
  wf demo /\
  exists t',
    MakePermanent_in PkgMain 1%nat demo = Ok (t', true)
    /\ expHeap t' = [1%nat]
    /\ permanent (stats t') = 2
    /\ MakePermanent_in PkgMain 1%nat t' = Ok (t', true).
Proof.
  split; [exact demo_wf|].
  destruct (MakePermanent_idempotent PkgMain 1%nat demo) as (_ & _ & Htemp).
  destruct (Htemp 0%nat (mkElement 1%nat 10%nat 100 1) demo_wf)
    as (t' & Hmp & _ & _ & _ & Hagain); [reflexivity|reflexivity|by vm_compute|].
  exists t'. split; [exact Hmp|].
  split; [|split; [|exact Hagain]];
    revert Hmp; vm_compute; by intros [= <-].
Defined.

Lemma SetExpiry_past_removes_witness :
  wf demo /\
  exists t',
    SetExpiry_in PkgTemap 1%nat 500 1000 demo = Ok (t', false)
    /\ items t' !! 1%nat = None
    /\ expHeap t' = [1%nat]
    /\ removed (stats t') = 1 /\ expired (stats t') = 0.
Proof.
  split; [exact demo_wf|].
  destruct (SetExpiry_past_removes PkgTemap 1%nat 500 1000 demo) as (_ & Hpast).
  destruct (Hpast 0%nat (mkElement 1%nat 10%nat 100 1) demo_wf)
    as (t' & Hse & _ & Hgone & _);
    [reflexivity|reflexivity|reflexivity|by vm_compute|].
  exists t'. split; [exact Hse|]. split; [exact Hgone|].
  split; [|split]; revert Hse; vm_compute; by intros [= <-].
Defined.

Lemma Get_read_only_witness :
  Get 1%nat demo = Ok (demo, (Some 10%nat, 100, true)).
Proof.
  apply (proj1 (Get_read_only 1%nat demo) (mkElement 1%nat 10%nat 100 1)).
  reflexivity.
Defined.

Section set_permanent.
Context {K V : Type} `{Countable K}.
Implicit Types (t : TimedMap K V) (m : cells K V) (h : expiryHeap) (p : ptr).

Lemma heap_indexed_set_Value h m p (e : element K V) v :
  heap_indexed h m -> m !! p = Some e ->
  heap_indexed h (<[p := set_Value v e]> m).
Proof.
  intros Hidx He i q Hq. destruct (Hidx _ _ Hq) as (eq & Heq & Hi).
  destruct (decide (q = p)) as [->|Hne].
  - rewrite lookup_insert_eq. simplify_eq. by eexists.
  - rewrite lookup_insert_ne by done. by eexists.
Qed.

Lemma entries_linked_set_Value t p (e : element K V) v :
  entries_linked t -> elems t !! p = Some e ->
  entries_linked (with_elems (<[p := set_Value v e]> (elems t)) t).
Proof.
  intros Hlink He key q Hkey. unfold with_elems in *. simpl in *.
  destruct (Hlink _ _ Hkey) as (eq & Heq & HK & Hin & Hout).
  destruct (decide (q = p)) as [->|Hne].
  - rewrite lookup_insert_eq. simplify_eq. by eexists.
  - rewrite lookup_insert_ne by done. by eexists.
Qed.

Lemma expiry_set_Value m p (e : element K V) v q :
  m !! p = Some e -> expiry (<[p := set_Value v e]> m) q = expiry m q.
Proof.
  intros He. unfold expiry. destruct (decide (q = p)) as [->|Hne].
  - by rewrite lookup_insert_eq, He.
  - by rewrite lookup_insert_ne.
Qed.

Lemma expiry_at_set_Value h m p (e : element K V) v k :
  m !! p = Some e -> expiry_at h (<[p := set_Value v e]> m) k = expiry_at h m k.
Proof.
  intros He. unfold expiry_at. destruct (h !! k) as [q|]; [|done].
  simpl. by apply expiry_set_Value.
Qed.

(** Writing the value of an entry keeps the map well-formed. *)
Lemma wf_set_Value t p (e : element K V) v :
  wf t -> elems t !! p = Some e ->
  wf (with_elems (<[p := set_Value v e]> (elems t)) t).
Proof.
  intros [Hidx Hord Hlink Hlive] He. split.
  - by apply heap_indexed_set_Value.
  - intros c Hc. unfold with_elems in *. simpl in *.
    rewrite !(expiry_at_set_Value _ _ _ _ _ _ He). by apply Hord.
  - by apply entries_linked_set_Value.
  - intros q Hq. unfold with_elems in *. simpl in *.
    destruct (Hlive _ Hq) as (eq & Heq & Hkey).
    destruct (decide (q = p)) as [->|Hne].
    + rewrite lookup_insert_eq. simplify_eq. by eexists.
    + rewrite lookup_insert_ne by done. by eexists.
Qed.

Lemma entry_lookup t key p e :
  items t !! key = Some p -> elems t !! p = Some e -> entry t key = Some e.
Proof. unfold entry. intros Hkey He. rewrite Hkey. simpl. exact He. Qed.

Lemma SetPermanent_spec pkg key value t :
  wf t ->
  exists t' e,
    SetPermanent_in pkg key value t = Ok t'
    /\ entry t' key = Some e /\ Value e = value
    /\ ExpiresAt e = ElementPermanent.
Proof.
  intros Hwf.
  destruct (items t !! key) as [p|] eqn:Hkey.
  - destruct (wf_linked _ Hwf _ _ Hkey) as (e & He & _).
    destruct pkg; simpl; unfold Temap.SetPermanent, Main.SetPermanent;
      rewrite Hkey, (assign_Ok _ _ _ _ He); simpl.
    + erewrite assign_Ok by apply lookup_insert_eq. simpl.
      eexists _, _. split; [done|].
      split.
      { eapply entry_lookup; [exact Hkey|].
        unfold with_elems. simpl. apply lookup_insert_eq. }
      by simpl.
    + set (t1 := with_elems (<[p := set_Value value e]> (elems t)) t).
      assert (elems t1 !! p = Some (set_Value value e)) as He1
        by (unfold t1, with_elems; simpl; apply lookup_insert_eq).
      destruct (decide (ExpiresAt e = ElementPermanent)) as [Hperm|Htemp].
      * rewrite (to_permanent_already t1 p _ He1) by done.
        exists t1, (set_Value value e). split; [done|].
        split; [by eapply entry_lookup|done].
      * destruct (to_permanent_temporary t1 key p (set_Value value e))
          as (t' & Htp & Hmade & _); try done.
        { by apply wf_set_Value. }
        destruct Hmade as (Hit & _ & _ & (e' & He' & Hperm' & _ & HV) & _).
        exists t', e'. split; [done|].
        split; [eapply entry_lookup; [|done]; by rewrite Hit|done].
  - destruct pkg; simpl; unfold Temap.SetPermanent, Main.SetPermanent, new_element;
      rewrite Hkey; eexists _, _; (split; [done|]);
      (split; [eapply entry_lookup; simpl; apply lookup_insert_eq|done]).
Qed.

(** C7. [SetWithTTL] with [ttl <= 0] is [SetPermanent], with the same
    outcome and the same state; with [ttl > 0] it is [SetTemporary] at
    [now + ttl]. On a well-formed map the call with [ttl <= 0] returns, and
    [Get] then finds the value with the permanent sentinel. *)
Theorem SetWithTTL_delegates pkg key value (ttl : time.Duration) (now : time.Time) t :
  (ttl <= 0 ->
     SetWithTTL_in pkg key value ttl now t = SetPermanent_in pkg key value t)
  /\ (0 < ttl ->
        SetWithTTL_in pkg key value ttl now t
        = SetTemporary_in pkg key value (time.Add now ttl) t)
  /\ (ttl <= 0 -> wf t ->
        exists t',
          SetWithTTL_in pkg key value ttl now t = Ok t'
          /\ SetPermanent_in pkg key value t = Ok t'
          /\ Get key t' = Ok (t', (Some value, ElementPermanent, true))).
Proof.
  assert (ttl <= 0 ->
    SetWithTTL_in pkg key value ttl now t = SetPermanent_in pkg key value t) as Hle.
  { intros Httl. destruct pkg; simpl; unfold Temap.SetWithTTL, Main.SetWithTTL;
      by rewrite bool_decide_true. }
  split; [done|]. split.
  - intros Httl. destruct pkg; simpl; unfold Temap.SetWithTTL, Main.SetWithTTL;
      by rewrite bool_decide_false by lia.
  - intros Httl Hwf.
    destruct (SetPermanent_spec pkg key value t Hwf)
      as (t' & e & Hsp & He & HV & HE).
    exists t'. rewrite Hle by done. split; [done|]. split; [done|].
    rewrite (Get_present key t' e He). by rewrite HV, HE.
Qed.
End set_permanent.

Lemma SetWithTTL_delegates_witness :
  wf demo /\
  exists t',
    SetWithTTL_in PkgMain 1%nat 11%nat 0 1000 demo = Ok t'
    /\ SetWithTTL_in PkgMain 1%nat 11%nat (-1) 1000 demo = Ok t'
    /\ SetPermanent_in PkgMain 1%nat 11%nat demo = Ok t'
    /\ Get 1%nat t' = Ok (t', (Some 11%nat, ElementPermanent, true))
    /\ SetWithTTL_in PkgMain 1%nat 11%nat 5 1000 demo
       = SetTemporary_in PkgMain 1%nat 11%nat 1005 demo.
Proof.
  split; [exact demo_wf|].
  destruct (SetWithTTL_delegates PkgMain 1%nat 11%nat 0 1000 demo)
    as (_ & _ & Hzero).
  destruct (Hzero ltac:(lia) demo_wf) as (t' & H0 & Hsp & Hget).
  destruct (SetWithTTL_delegates PkgMain 1%nat 11%nat (-1) 1000 demo)
    as (Hneg & _ & _).
  destruct (SetWithTTL_delegates PkgMain 1%nat 11%nat 5 1000 demo)
    as (_ & Hpos & _).
  exists t'. split; [exact H0|]. split; [by rewrite Hneg by lia|].
  split; [exact Hsp|]. split; [exact Hget|]. apply Hpos. lia.
Defined.

(** ** The invariant in package [main] *)

Section entering_the_heap.
Context {K V : Type} `{Countable K}.
Implicit Types (t : TimedMap K V) (m : cells K V) (h : expiryHeap) (p : ptr).

Lemma heap_indexed_update h m p (e e2 : element K V) :
  heap_indexed h m -> m !! p = Some e -> index e2 = index e ->
  heap_indexed h (<[p := e2]> m).
Proof.
  intros Hidx He Hi i q Hq. destruct (Hidx _ _ Hq) as (eq & Heq & Hiq).
  destruct (decide (q = p)) as [->|Hne].
  - rewrite lookup_insert_eq. simplify_eq. exists e2. split; [done|congruence].
  - rewrite lookup_insert_ne by done. by eexists.
Qed.

Lemma expiry_insert_ne m p (e : element K V) q :
  q <> p -> expiry (<[p := e]> m) q = expiry m q.
Proof. intros Hne. unfold expiry. by rewrite lookup_insert_ne. Qed.

(** Counters and callback play no part in the invariant. *)
Lemma wf_counters t cb st :
  wf t -> wf (mkTimedMap (items t) (expHeap t) (elems t) cb st).
Proof. by intros [? ? ? ?]. Qed.

(** A cell that is not in the heap gets a non-sentinel expiry and is pushed
    as the entry of [key]. *)
Lemma push_entry_wf t key p (e2 : element K V) cb st :
  wf t -> p ∉ expHeap t ->
  (items t !! key = None \/ items t !! key = Some p) ->
  (forall k, items t !! k = Some p -> k = key) ->
  Key e2 = key -> ExpiresAt e2 <> ElementPermanent ->
  exists h' m2,
    heap.Push (expHeap t) (<[p := e2]> (elems t)) p = Ok (h', m2)
    /\ wf (mkTimedMap (<[key := p]> (items t)) h' m2 cb st).
Proof.
  intros Hwf Hp Hold Honly HK HE.
  pose proof Hwf as [Hidx Hord Hlink Hlive].
  destruct (Push_spec (expHeap t) (<[p := e2]> (elems t)) p e2)
    as (h' & m2 & Hpush & Hidx' & Hs & Hf & Hperm & Hord').
  { by apply heap_indexed_insert_out. } { apply lookup_insert_eq. } { done. }
  exists h', m2. split; [done|].
  destruct (same_data_lookup _ _ _ _ Hs (lookup_insert_eq _ p e2))
    as (e3 & He3 & HK3 & _ & HE3).
  apply (wf_with t _ key p e3); simpl; try done.
  - apply Hord'. by apply heap_ordered_insert_out.
  - intros q. rewrite Hperm, elem_of_cons. tauto.
  - intros q Hq. rewrite <- Hs. by rewrite lookup_insert_ne.
  - congruence.
  - congruence.
Qed.

(** The cell of a temporary entry gets another non-sentinel expiry and its
    position is fixed. *)
Lemma fix_entry_wf t key p (e e2 : element K V) :
  wf t -> items t !! key = Some p -> elems t !! p = Some e ->
  ExpiresAt e <> ElementPermanent ->
  index e2 = index e -> Key e2 = Key e -> ExpiresAt e2 <> ElementPermanent ->
  0 <= index e2
  /\ exists h' m3,
       heap.Fix (expHeap t) (<[p := e2]> (elems t)) (index e2) = Ok (h', m3)
       /\ wf (with_heap h' m3 t).
Proof.
  intros Hwf Hkey He Htemp Hi HK HE.
  pose proof Hwf as [Hidx Hord Hlink Hlive].
  destruct (Hlink _ _ Hkey) as (e0 & He0 & HK0 & Hin & _).
  assert (e0 = e) as -> by congruence.
  destruct (Hin Htemp) as [Hge Hat].
  split; [lia|]. rewrite Hi, <- (Z2Nat.id (index e)) by done.
  set (m2 := <[p := e2]> (elems t)).
  assert (heap_indexed (expHeap t) m2) as Hidx2
    by (by eapply heap_indexed_update).
  destruct (Fix_spec (expHeap t) m2 _ p Hidx2 Hat) as (h' & m3 & Hfix & Hst & Hord').
  exists h', m3. split; [done|].
  destruct Hst as (Hidx' & Hs & Hf & Hperm).
  destruct (same_data_lookup _ _ _ _ Hs (lookup_insert_eq _ p e2 : m2 !! p = Some e2))
    as (e3 & He3 & HK3 & _ & HE3).
  apply (wf_with t _ key p e3); unfold with_heap; simpl; try done.
  - apply Hord'. apply (hole_pre_update _ (elems t) m2 _ p); try done.
    intros q Hq. by apply expiry_insert_ne.
  - intros q. rewrite Hperm. split; [by left|].
    intros [Hq| ->]; [done|]. by eapply list_elem_of_lookup_2.
  - intros q Hq. rewrite <- Hs. unfold m2. by rewrite lookup_insert_ne.
  - by rewrite insert_id.
  - by right.
  - intros k Hk. destruct (Hlink _ _ Hk) as (e1 & He1 & HK1 & _). congruence.
  - congruence.
  - congruence.
Qed.

(** A new permanent entry. *)
Lemma new_permanent_wf t key value cb st :
  wf t -> items t !! key = None ->
  wf (mkTimedMap (<[key := fresh (dom (elems t))]> (items t)) (expHeap t)
        (<[fresh (dom (elems t)) := mkElement key value ElementPermanent 0]> (elems t))
        cb st).
Proof.
  intros Hwf Hkey. pose proof Hwf as [Hidx Hord Hlink Hlive].
  set (p := fresh (dom (elems t))).
  assert (p ∉ expHeap t) as Hp by (by eapply fresh_not_in_heap).
  apply (wf_without t _ p); simpl; try done.
  - by apply heap_indexed_insert_out.
  - by apply heap_ordered_insert_out.
  - intros q. split; [|by intros [? _]]. intros Hq. split; [done|]. by intros ->.
  - intros q Hq. by rewrite lookup_insert_ne.
  - intros k q [[<- <-]|[_ Hk]]%lookup_insert_Some Hq; done.
  - intros k q Hk Hq. rewrite lookup_insert_ne; [done|]. intros <-. congruence.
  - intros k [[<- _]|[_ Hk]]%lookup_insert_Some.
    + eexists. rewrite lookup_insert_eq. done.
    + by apply (fresh_not_linked t k) in Hk.
Qed.
End entering_the_heap.

Section main_keeps_wf.
Context {K V : Type} `{Countable K}.
Implicit Types (t : TimedMap K V) (m : cells K V) (h : expiryHeap) (p : ptr).

Lemma Main_SetTemporary_wf key value x t :
  wf t -> time.UnixNano x <> ElementPermanent ->
  exists t', Main.SetTemporary key value x t = Ok t' /\ wf t'.
Proof.
  intros Hwf Hx. unfold Main.SetTemporary.
  destruct (items t !! key) as [p|] eqn:Hkey.
  - destruct (wf_linked _ Hwf _ _ Hkey) as (e & He & HK & _).
    rewrite (assign_Ok _ _ _ _ He). simpl.
    rewrite (deref_Ok _ _ (set_Value value e)) by apply lookup_insert_eq. simpl.
    case_bool_decide as Htemp.
    + erewrite assign_Ok by apply lookup_insert_eq. simpl.
      rewrite insert_insert_eq.
      destruct (fix_entry_wf t key p e
                  (set_ExpiresAt (time.UnixNano x) (set_Value value e))
                  Hwf Hkey He Htemp)
        as (Hge & h' & m3 & Hfix & Hwf'); [done..|].
      erewrite deref_Ok by apply lookup_insert_eq.
      cbn [mbind result_bind]. rewrite bool_decide_true by lia.
      rewrite Hfix. simpl. eauto.
    + eexists. split; [done|]. by apply wf_set_Value.
  - unfold new_element.
    rewrite bool_decide_true by done.
    destruct (push_entry_wf t key (fresh (dom (elems t)))
                (mkElement key value (time.UnixNano x) 0)
                (onExpire t) (added_incr (stats t)) Hwf)
      as (h' & m2 & Hpush & Hwf'); [|by left| |done|done|].
    + apply fresh_not_in_heap, Hwf.
    + intros k Hk. by apply (fresh_not_linked t k) in Hk.
    + rewrite Hpush. simpl. eauto.
Qed.

Lemma Main_SetPermanent_wf key value t :
  wf t -> exists t', Main.SetPermanent key value t = Ok t' /\ wf t'.
Proof.
  intros Hwf. unfold Main.SetPermanent.
  destruct (items t !! key) as [p|] eqn:Hkey.
  - destruct (wf_linked _ Hwf _ _ Hkey) as (e & He & HK & _).
    rewrite (assign_Ok _ _ _ _ He). simpl.
    set (t1 := with_elems (<[p := set_Value value e]> (elems t)) t).
    assert (wf t1) as Hwf1 by (by apply wf_set_Value).
    assert (elems t1 !! p = Some (set_Value value e)) as He1
      by (unfold t1, with_elems; simpl; apply lookup_insert_eq).
    destruct (decide (ExpiresAt e = ElementPermanent)) as [Hperm|Htemp].
    + rewrite (to_permanent_already t1 p _ He1) by done. eauto.
    + destruct (to_permanent_temporary t1 key p (set_Value value e))
        as (t' & Htp & _ & Hwf'); try done.
      rewrite Htp. eauto.
  - unfold new_element. eexists. split; [done|]. by apply new_permanent_wf.
Qed.

Lemma Main_Remove_wf key t :
  wf t -> exists t', Main.Remove key t = Ok t' /\ wf t'.
Proof.
  intros Hwf. unfold Main.Remove.
  destruct (items t !! key) as [p|] eqn:Hkey; [|eauto].
  destruct (wf_linked _ Hwf _ _ Hkey) as (e & He & _).
  rewrite (deref_Ok _ _ _ He). simpl.
  destruct (expired_branch_spec t key p e Hwf Hkey He) as (h' & m' & Hbr & _ & Hwf').
  rewrite Hbr. simpl. eauto.
Qed.

Lemma RemoveAll_wf t : exists t', RemoveAll t = Ok t' /\ wf t'.
Proof.
  eexists. split; [reflexivity|]. split; simpl.
  - by intros i p Hp.
  - intros c Hc. simpl in Hc. lia.
  - by intros key p Hp.
  - by intros p Hp%elem_of_nil.
Qed.

Lemma Main_MakePermanent_wf key t :
  wf t -> exists t' b, Main.MakePermanent key t = Ok (t', b) /\ wf t'.
Proof.
  intros Hwf. unfold Main.MakePermanent.
  destruct (items t !! key) as [p|] eqn:Hkey; [|eauto].
  destruct (wf_linked _ Hwf _ _ Hkey) as (e & He & _).
  destruct (decide (ExpiresAt e = ElementPermanent)) as [Hperm|Htemp].
  - rewrite (to_permanent_already t p _ He) by done. simpl. eauto.
  - destruct (to_permanent_temporary t key p e) as (t' & Htp & _ & Hwf'); try done.
    rewrite Htp. simpl. eauto.
Qed.

Lemma Main_SetExpiry_wf key x now t :
  wf t ->
  (time.IsZero x = true \/ time.UnixNano x <> ElementPermanent
   \/ time.UnixNano x <= time.UnixNano now) ->
  exists t' b, Main.SetExpiry key x now t = Ok (t', b) /\ wf t'.
Proof.
  intros Hwf Hx. unfold Main.SetExpiry.
  destruct (items t !! key) as [p|] eqn:Hkey; [|eauto].
  destruct (wf_linked _ Hwf _ _ Hkey) as (e & He & HK & _ & Hout).
  rewrite (deref_Ok _ _ _ He). simpl.
  destruct (time.IsZero x) eqn:Hzero.
  { destruct (decide (ExpiresAt e = ElementPermanent)) as [Hperm|Htemp].
    - rewrite (to_permanent_already t p _ He) by done. simpl. eauto.
    - destruct (to_permanent_temporary t key p e) as (t' & Htp & _ & Hwf'); try done.
      rewrite Htp. simpl. eauto. }
  case_bool_decide as Hpast.
  { destruct (expired_branch_spec t key p e Hwf Hkey He) as (h' & m' & Hbr & _ & Hwf').
    rewrite Hbr. simpl. eauto. }
  assert (time.UnixNano x <> ElementPermanent) as Hne.
  { destruct Hx as [Hx|[Hx|Hx]]; [done|done|lia]. }
  case_bool_decide as Hperm.
  - rewrite (assign_Ok _ _ _ _ He). simpl.
    destruct (push_entry_wf t key p (set_ExpiresAt (time.UnixNano x) e)
                (onExpire t) (stats t) Hwf)
      as (h' & m2 & Hpush & Hwf'); [by apply Hout|by right| |done|done|].
    + intros k Hk. destruct (wf_linked _ Hwf _ _ Hk) as (e1 & He1 & HK1 & _). congruence.
    + rewrite Hpush. simpl. eexists _, _. split; [done|].
      rewrite insert_id in Hwf' by done. exact Hwf'.
  - rewrite (assign_Ok _ _ _ _ He). simpl.
    destruct (fix_entry_wf t key p e (set_ExpiresAt (time.UnixNano x) e)
                Hwf Hkey He Hperm)
      as (Hge & h' & m3 & Hfix & Hwf'); [done..|].
    erewrite deref_Ok by apply lookup_insert_eq.
    cbn [mbind result_bind]. rewrite bool_decide_true by lia.
    rewrite Hfix. simpl. eauto.
Qed.

(** In package [main] every call that does not give the sentinel as an
    expiry returns, without panic, and keeps the map well-formed. *)
Theorem Main_keeps_wf (o : op K V) t :
  wf t -> no_sentinel_time o ->
  exists t', step PkgMain o t = Ok t' /\ wf t'.
Proof.
  intros Hwf Hsane. destruct o as [k v x|k v|k v ttl now|k| |k|k x now|k]; simpl in *.
  - by apply Main_SetTemporary_wf.
  - by apply Main_SetPermanent_wf.
  - unfold Main.SetWithTTL. case_bool_decide as Httl.
    + by apply Main_SetPermanent_wf.
    + apply Main_SetTemporary_wf; [done|]. destruct Hsane; [lia|done].
  - by apply Main_Remove_wf.
  - apply RemoveAll_wf.
  - destruct (Main_MakePermanent_wf k t Hwf) as (t' & b & -> & Hwf'). simpl. eauto.
  - destruct (Main_SetExpiry_wf k x now t Hwf Hsane) as (t' & b & -> & Hwf').
    simpl. eauto.
  - unfold Get. destruct (items t !! k) as [p|] eqn:Hkey; [|simpl; eauto].
    destruct (wf_linked _ Hwf _ _ Hkey) as (e & He & _).
    rewrite (deref_Ok _ _ _ He). simpl. eauto.
Qed.

Lemma New_wf cb : wf (New (K:=K) (V:=V) cb).
Proof.
  split; simpl.
  - by intros i p Hp.
  - intros c Hc. simpl in Hc. lia.
  - by intros key p Hp.
  - by intros p Hp%elem_of_nil.
Qed.

(** Every sequence of such calls on a new map runs to a well-formed map. *)
Theorem Main_runs_wf (ops : list (op K V)) cb :
  Forall no_sentinel_time ops ->
  exists t, run PkgMain ops (New cb) = Ok t /\ wf t.
Proof.
  assert (forall t, wf t -> Forall no_sentinel_time ops ->
            exists t', run PkgMain ops t = Ok t' /\ wf t') as Hrun.
  { induction ops as [|o ops IH]; intros t Hwf Hall; simpl; [eauto|].
    apply Forall_cons in Hall as [Ho Hall].
    destruct (Main_keeps_wf o t Hwf Ho) as (t1 & -> & Hwf1). simpl.
    by apply IH. }
  intros Hall. apply Hrun; [apply New_wf|done].
Qed.
End main_keeps_wf.

(** ** Where the code leaves the specification *)

Section dispatch.
Context {K V : Type} `{Countable K}.
Implicit Types (t : TimedMap K V) (m : cells K V).

Lemma dispatch_nil_overflow m ch queue expired_ :
  (MainCleaner.queue_capacity < length queue + length expired_)%nat ->
  (length queue <= MainCleaner.queue_capacity)%nat ->
  MainCleaner.dispatch (K:=K) (V:=V) None m [] ch queue expired_ = Panic.
Proof.
  revert queue. induction expired_ as [|el rest IH]; intros queue Hover Hfit.
  - simpl in Hover. lia.
  - cbn [MainCleaner.dispatch hd tl MainCleaner.workers_receive]. simpl.
    destruct ch; [|done].
    case_bool_decide as Hroom; [|done].
    rewrite IH; [done|..]; rewrite length_app; simpl in *; lia.
Qed.

Lemma Temap_dispatch_nil m expired_ :
  TemapCleaner.dispatch (K:=K) (V:=V) None m expired_ = Ok [].
Proof. induction expired_ as [|el rest IH]; [done|]. simpl. exact IH. Qed.

(** C5 fails in package [main]. With a nil callback, when a drain pops
    more elements than the queue of 1024 has room for and no worker
    receives while the cleaner sends, the cleaner starts a goroutine that
    calls the nil func, and the program panics (on a closed queue the
    first send panics before that). The workers of the same package and the
    cleaner of package [temap] check the callback before the call, and
    return. *)
Theorem nil_callback_overflow_panics now1 now2 ch queue t t' popped :
  cleaner_section now1 now2 t = Ok (t', Drained popped) ->
  onExpire t' = None ->
  (MainCleaner.queue_capacity < length queue + length popped)%nat ->
  (length queue <= MainCleaner.queue_capacity)%nat ->
  MainCleaner.cleaner_iteration now1 now2 [] ch queue t = Panic
  /\ TemapCleaner.cleaner_iteration now1 now2 t
     = Ok (t', [EvLock] ++ (EvPop <$> popped) ++ [EvUnlock], Drained popped)
  /\ (forall q, exists q', MainCleaner.worker_receive None (elems t') q = Ok (q', [])).
Proof.
  intros Hsec Hcb Hover Hfit. split; [|split].
  - unfold MainCleaner.cleaner_iteration. rewrite Hsec. simpl.
    rewrite Hcb. by rewrite dispatch_nil_overflow.
  - unfold TemapCleaner.cleaner_iteration. rewrite Hsec. simpl.
    rewrite Hcb. rewrite Temap_dispatch_nil. simpl. by rewrite ?app_nil_r.
  - intros [|el q]; eexists; reflexivity.
Qed.
End dispatch.

Lemma nil_callback_overflow_panics_witness :
  exists t',
    cleaner_section 60 60 demo = Ok (t', Drained [1%nat])
    /\ MainCleaner.cleaner_iteration 60 60 [] ChanOpen (replicate 1024 2%nat) demo
       = Panic.
Proof.
  assert (exists t', cleaner_section 60 60 demo = Ok (t', Drained [1%nat])
                     /\ onExpire t' = None) as (t' & Hsec & Hcb).
  { eexists. split; [vm_compute; reflexivity|reflexivity]. }
  exists t'. split; [exact Hsec|].
  apply (nil_callback_overflow_panics 60 60 ChanOpen (replicate 1024 2%nat) demo t'
           [1%nat] Hsec Hcb).
  - rewrite length_replicate. unfold MainCleaner.queue_capacity. simpl. lia.
  - rewrite length_replicate. unfold MainCleaner.queue_capacity. lia.
Defined.

(** C1 fails. In package [temap], [SetPermanent] on a temporary entry
    sets the sentinel and leaves the entry in the heap, where the cleaner
    then finds it and deletes the permanent key; [SetTemporary] on a
    permanent entry sets the expiry and does not push the entry. In package
    [main], [SetTemporary] at the Unix epoch on a temporary entry leaves an
    entry with the sentinel in the heap. *)
Theorem heap_store_consistency_broken :
  (exists t t',
     run PkgTemap [OpSetTemporary 1%nat 10%nat 100; OpSetPermanent 1%nat 11%nat]
       (New None) = Ok t
     /\ entry t 1%nat = Some (mkElement 1%nat 11%nat ElementPermanent 0)
     /\ expHeap t = [0%nat]
     /\ ~ heap_store_consistent t
     /\ drain 50 t = Ok (t', [0%nat]) /\ items t' !! 1%nat = None)
  /\ (exists t,
        run PkgTemap [OpSetPermanent 1%nat 10%nat; OpSetTemporary 1%nat 11%nat 100]
          (New None) = Ok t
        /\ entry t 1%nat = Some (mkElement 1%nat 11%nat 100 0)
        /\ expHeap t = []
        /\ ~ heap_store_consistent t)
  /\ (exists t,
        run PkgMain [OpSetTemporary 1%nat 10%nat 100; OpSetTemporary 1%nat 11%nat 0]
          (New None) = Ok t
        /\ entry t 1%nat = Some (mkElement 1%nat 11%nat ElementPermanent 0)
        /\ expHeap t = [0%nat]
        /\ ~ heap_store_consistent t).
Proof.
  split; [|split].
  - eexists _, _. split; [vm_compute; reflexivity|].
    split; [reflexivity|]. split; [reflexivity|]. split.
    + intros Hc.
      destruct (Hc 1%nat 0%nat (mkElement 1%nat 11%nat ElementPermanent 0))
        as ([Hin _] & _); [reflexivity|reflexivity|].
      apply Hin; [|reflexivity]. simpl. by left.
    + split; [vm_compute; reflexivity|reflexivity].
  - eexists. split; [vm_compute; reflexivity|].
    split; [reflexivity|]. split; [reflexivity|].
    intros Hc.
    destruct (Hc 1%nat 0%nat (mkElement 1%nat 11%nat 100 0))
      as ([_ Hin] & _); [reflexivity|reflexivity|].
    assert (0%nat ∈ ([] : list nat)) as Hnil by (apply Hin; simpl; discriminate).
    by apply elem_of_nil in Hnil.
  - eexists. split; [vm_compute; reflexivity|].
    split; [reflexivity|]. split; [reflexivity|].
    intros Hc.
    destruct (Hc 1%nat 0%nat (mkElement 1%nat 11%nat ElementPermanent 0))
      as ([Hin _] & _); [reflexivity|reflexivity|].
    apply Hin; [|reflexivity]. simpl. by left.
Qed.

(** C2 fails. On a permanent entry, [SetTemporary] of package [temap] sets
    the expiry and leaves the heap empty, and the one of package [main]
    keeps the entry permanent; [SetExpiry] on the same state pushes the
    entry. On a temporary entry, [SetTemporary] at the sentinel of package
    [main] keeps the entry in the heap, where [SetPermanent] takes it out
    and counts it. *)
Theorem SetTemporary_on_permanent_not_pushed :
  (exists t,
     run PkgTemap [OpSetPermanent 1%nat 10%nat; OpSetTemporary 1%nat 11%nat 100]
       (New None) = Ok t
     /\ entry t 1%nat = Some (mkElement 1%nat 11%nat 100 0)
     /\ expHeap t = [])
  /\ (exists t,
        run PkgMain [OpSetPermanent 1%nat 10%nat; OpSetTemporary 1%nat 11%nat 100]
          (New None) = Ok t
        /\ entry t 1%nat = Some (mkElement 1%nat 11%nat ElementPermanent 0)
        /\ expHeap t = [])
  /\ (forall pkg, exists t,
        run pkg [OpSetPermanent 1%nat 10%nat; OpSetExpiry 1%nat 100 50]
          (New None) = Ok t
        /\ entry t 1%nat = Some (mkElement 1%nat 10%nat 100 0)
        /\ expHeap t = [0%nat])
  /\ (exists t1 t2,
        run PkgMain [OpSetTemporary 1%nat 10%nat 100; OpSetTemporary 1%nat 11%nat 0]
          (New None) = Ok t1
        /\ run PkgMain [OpSetTemporary 1%nat 10%nat 100; OpSetPermanent 1%nat 11%nat]
             (New None) = Ok t2
        /\ expHeap t1 = [0%nat] /\ expHeap t2 = []
        /\ permanent (stats t1) = 0 /\ permanent (stats t2) = 1).
Proof.
  split; [|split; [|split]].
  - eexists. split; [vm_compute; reflexivity|]. split; reflexivity.
  - eexists. split; [vm_compute; reflexivity|]. split; reflexivity.
  - intros [|]; eexists; (split; [vm_compute; reflexivity|]); split; reflexivity.
  - eexists _, _. split; [vm_compute; reflexivity|].
    split; [vm_compute; reflexivity|]. repeat split; reflexivity.
Qed.

Section out_of_range.
Context {K V : Type} `{Countable K}.
Implicit Types (t : TimedMap K V) (m : cells K V) (h : expiryHeap) (p : ptr).

Lemma Remove_out_of_range h m (i : Z) :
  ~ (0 <= i < Z.of_nat (length h)) -> heap.Remove h m i = Panic.
Proof.
  intros Hi.
  assert (at_index h i = Panic) as Hat
    by (unfold at_index; by rewrite bool_decide_false).
  unfold heap.Remove. case_bool_decide as Hn.
  - unfold ExpiryHeap.Swap. by rewrite Hat.
  - simpl. unfold ExpiryHeap.Pop. rewrite Hn. by rewrite Hat.
Qed.

(** [SetExpiry] of package [temap] with a time in the past, on a temporary
    entry whose recorded position is beyond the heap. *)
Lemma Temap_SetExpiry_past_beyond_heap key (x now : time.Time) t p e :
  items t !! key = Some p -> elems t !! p = Some e ->
  ExpiresAt e <> ElementPermanent ->
  Z.of_nat (length (expHeap t)) <= index e ->
  time.IsZero x = false -> time.UnixNano x <= time.UnixNano now ->
  Temap.SetExpiry key x now t = Panic.
Proof.
  intros Hkey He Htemp Hidx Hzero Hle. unfold Temap.SetExpiry.
  rewrite Hkey, (deref_Ok _ _ _ He). simpl. rewrite Hzero.
  rewrite bool_decide_true by done.
  rewrite bool_decide_true by (split; [done|lia]).
  rewrite Remove_out_of_range by lia. done.
Qed.
End out_of_range.

(** C3 fails in package [temap]. [SetTemporary] on a permanent entry leaves
    an entry that is temporary and not in the heap, at position 0 of an
    empty heap (C2). [SetExpiry] with a time in the past then calls
    [heap.Remove] at that position after testing [el.index >= 0] only, and
    the program panics (index out of range) where the claim has the key
    deleted and false returned. The other branches of the same function,
    [Remove] and [MakePermanent] test [el.index < len(t.expHeap)] as well,
    and return; package [main], where the entry stays permanent, deletes
    the key. *)
Theorem SetExpiry_past_panics_on_unpushed_entry :
  (exists t,
     run PkgTemap [OpSetPermanent 1%nat 10%nat; OpSetTemporary 1%nat 11%nat 100]
       (New None) = Ok t
     /\ entry t 1%nat = Some (mkElement 1%nat 11%nat 100 0)
     /\ expHeap t = []
     /\ time.IsZero 50 = false
     /\ time.UnixNano 50 <= time.UnixNano 1000
     /\ Temap.SetExpiry 1%nat 50 1000 t = Panic
     /\ (exists t', Temap.SetExpiry 1%nat time.zero 1000 t = Ok (t', true))
     /\ (exists t', Temap.SetExpiry 1%nat 2000 1000 t = Ok (t', true))
     /\ (exists t', Temap.Remove 1%nat t = Ok t' /\ items t' !! 1%nat = None)
     /\ (exists t', Temap.MakePermanent 1%nat t = Ok (t', true)))
  /\ (exists t t',
        run PkgMain [OpSetPermanent 1%nat 10%nat; OpSetTemporary 1%nat 11%nat 100]
          (New None) = Ok t
        /\ Main.SetExpiry 1%nat 50 1000 t = Ok (t', false)
        /\ items t' !! 1%nat = None
        /\ removed (stats t') = 1 /\ expired (stats t') = 0)
  /\ (forall (t : TimedMap nat nat) key p e (x now : time.Time),
        items t !! key = Some p -> elems t !! p = Some e ->
        ExpiresAt e <> ElementPermanent ->
        Z.of_nat (length (expHeap t)) <= index e ->
        time.IsZero x = false -> time.UnixNano x <= time.UnixNano now ->
        Temap.SetExpiry key x now t = Panic).
Proof.
  split; [|split].
  - eexists. split; [vm_compute; reflexivity|].
    split; [reflexivity|]. split; [reflexivity|]. split; [reflexivity|].
    split; [by vm_compute|]. split; [vm_compute; reflexivity|].
    split; [eexists; vm_compute; reflexivity|].
    split; [eexists; vm_compute; reflexivity|].
    split; [eexists; split; [vm_compute; reflexivity|reflexivity]|].
    eexists; vm_compute; reflexivity.
  - eexists _, _. split; [vm_compute; reflexivity|].
    split; [vm_compute; reflexivity|]. repeat split; reflexivity.
  - intros t key p e x now. apply Temap_SetExpiry_past_beyond_heap.
Qed.

(** C4 fails in package [temap]. After [SetPermanent] on a temporary entry
    the entry stays in the heap with the sentinel as its expiry (C1), below
    a root with a later expiry: the drain pass pops the expiries 50 and
    then 0, and deletes the permanent key with the due one. After
    [SetTemporary] on a permanent entry the entry is temporary and not in
    the heap (C2): a drain pass in which it is due does not pop it. After
    [SetExpiry] on an entry that [SetPermanent] left in the heap, the entry
    is in the heap twice and the heap is not ordered: a drain pass leaves a
    due entry in the heap. In package [main] the same calls leave an
    ordered heap of the temporary entries and the drain pass pops the due
    entries, and only them. *)
Theorem drain_pops_out_of_order :
  (exists t t',
     run PkgTemap [OpSetTemporary 1%nat 10%nat 100; OpSetTemporary 2%nat 20%nat 50;
                   OpSetPermanent 1%nat 11%nat] (New None) = Ok t
     /\ entry t 1%nat = Some (mkElement 1%nat 11%nat ElementPermanent 1)
     /\ entry t 2%nat = Some (mkElement 2%nat 20%nat 50 0)
     /\ expHeap t = [1%nat; 0%nat]
     /\ cleaner_section 60 60 t = Ok (t', Drained [1%nat; 0%nat])
     /\ expiry (elems t) 1%nat = 50 /\ expiry (elems t) 0%nat = 0
     /\ ~ expiry_sorted (elems t) [1%nat; 0%nat]
     /\ items t' !! 1%nat = None /\ items t' !! 2%nat = None
     /\ expired (stats t') = 2)
  /\ (exists t t',
        run PkgTemap [OpSetPermanent 1%nat 10%nat; OpSetTemporary 1%nat 11%nat 50;
                      OpSetTemporary 2%nat 20%nat 60] (New None) = Ok t
        /\ entry t 1%nat = Some (mkElement 1%nat 11%nat 50 0)
        /\ expHeap t = [1%nat]
        /\ cleaner_section 100 100 t = Ok (t', Drained [1%nat])
        /\ entry t' 1%nat = Some (mkElement 1%nat 11%nat 50 0)
        /\ items t' !! 2%nat = None)
  /\ (exists t t',
        run PkgTemap [OpSetTemporary 1%nat 10%nat 10; OpSetTemporary 2%nat 20%nat 20;
                      OpSetTemporary 3%nat 30%nat 400; OpSetTemporary 4%nat 40%nat 30;
                      OpSetTemporary 5%nat 50%nat 500; OpSetPermanent 2%nat 21%nat;
                      OpSetExpiry 2%nat 300 5] (New None) = Ok t
        /\ expHeap t = [0%nat; 1%nat; 1%nat; 3%nat; 4%nat; 2%nat]
        /\ entry t 4%nat = Some (mkElement 4%nat 40%nat 30 3)
        /\ cleaner_section 50 50 t = Ok (t', Drained [0%nat])
        /\ entry t' 4%nat = Some (mkElement 4%nat 40%nat 30 1)
        /\ expHeap t' = [1%nat; 3%nat; 1%nat; 2%nat; 4%nat])
  /\ (exists t1 t1' t2 t2' t3 t3',
        run PkgMain [OpSetTemporary 1%nat 10%nat 100; OpSetTemporary 2%nat 20%nat 50;
                     OpSetPermanent 1%nat 11%nat] (New None) = Ok t1
        /\ cleaner_section 60 60 t1 = Ok (t1', Drained [1%nat])
        /\ entry t1' 1%nat = Some (mkElement 1%nat 11%nat ElementPermanent (-1))
        /\ items t1' !! 2%nat = None
        /\ run PkgMain [OpSetPermanent 1%nat 10%nat; OpSetTemporary 1%nat 11%nat 50;
                        OpSetTemporary 2%nat 20%nat 60] (New None) = Ok t2
        /\ cleaner_section 100 100 t2 = Ok (t2', Drained [1%nat])
        /\ entry t2' 1%nat = Some (mkElement 1%nat 11%nat ElementPermanent 0)
        /\ items t2' !! 2%nat = None
        /\ run PkgMain [OpSetTemporary 1%nat 10%nat 10; OpSetTemporary 2%nat 20%nat 20;
                        OpSetTemporary 3%nat 30%nat 400; OpSetTemporary 4%nat 40%nat 30;
                        OpSetTemporary 5%nat 50%nat 500; OpSetPermanent 2%nat 21%nat;
                        OpSetExpiry 2%nat 300 5] (New None) = Ok t3
        /\ cleaner_section 50 50 t3 = Ok (t3', Drained [0%nat; 3%nat])
        /\ items t3' !! 1%nat = None /\ items t3' !! 4%nat = None
        /\ expHeap t3' = [1%nat; 4%nat; 2%nat]).
Proof.
  split; [|split; [|split]].
  - eexists _, _. split; [vm_compute; reflexivity|].
    split; [reflexivity|]. split; [reflexivity|]. split; [reflexivity|].
    split; [vm_compute; reflexivity|].
    split; [reflexivity|]. split; [reflexivity|].
    split.
    { intros [Hall _]. apply Forall_cons in Hall as [Hle _].
      vm_compute in Hle. by apply Hle. }
    repeat split; reflexivity.
  - eexists _, _. split; [vm_compute; reflexivity|].
    split; [reflexivity|]. split; [reflexivity|].
    split; [vm_compute; reflexivity|]. split; reflexivity.
  - eexists _, _. split; [vm_compute; reflexivity|].
    split; [reflexivity|]. split; [reflexivity|].
    split; [vm_compute; reflexivity|]. split; reflexivity.
  - eexists _, _, _, _, _, _.
    split; [vm_compute; reflexivity|]. split; [vm_compute; reflexivity|].
    split; [reflexivity|]. split; [reflexivity|].
    split; [vm_compute; reflexivity|]. split; [vm_compute; reflexivity|].
    split; [reflexivity|]. split; [reflexivity|].
    split; [vm_compute; reflexivity|]. split; [vm_compute; reflexivity|].
    repeat split; reflexivity.
Qed.

(** C6 fails in package [temap]. After [SetTemporary] on a permanent entry
    the entry is temporary with position 0 and is not in the heap (C2):
    [MakePermanent] then calls [heap.Remove] at position 0 and takes the
    entry of another key out of the heap; the cleaner finds the heap empty
    afterwards and that key never expires. After [SetExpiry] on an entry
    that [SetPermanent] left in the heap (C1) the entry is in the heap
    twice: [MakePermanent] takes one of the two out, the permanent entry
    stays in the heap, and the cleaner deletes it. In package [main] the
    same calls leave the heap with the temporary entries only. *)
Theorem MakePermanent_removes_another_entry :
  (exists t t',
     run PkgTemap [OpSetPermanent 1%nat 10%nat; OpSetTemporary 2%nat 20%nat 50;
                   OpSetTemporary 1%nat 11%nat 100] (New None) = Ok t
     /\ entry t 1%nat = Some (mkElement 1%nat 11%nat 100 0)
     /\ entry t 2%nat = Some (mkElement 2%nat 20%nat 50 0)
     /\ expHeap t = [1%nat]
     /\ Temap.MakePermanent 1%nat t = Ok (t', true)
     /\ entry t' 1%nat = Some (mkElement 1%nat 11%nat ElementPermanent 0)
     /\ entry t' 2%nat = Some (mkElement 2%nat 20%nat 50 (-1))
     /\ expHeap t' = []
     /\ cleaner_section 1000 1000 t' = Ok (t', HeapEmpty))
  /\ (exists t t' t'',
        run PkgTemap [OpSetTemporary 1%nat 10%nat 100; OpSetPermanent 1%nat 11%nat;
                      OpSetExpiry 1%nat 200 50] (New None) = Ok t
        /\ expHeap t = [0%nat; 0%nat]
        /\ Temap.MakePermanent 1%nat t = Ok (t', true)
        /\ entry t' 1%nat = Some (mkElement 1%nat 11%nat ElementPermanent (-1))
        /\ expHeap t' = [0%nat]
        /\ cleaner_section 60 60 t' = Ok (t'', Drained [0%nat])
        /\ items t'' !! 1%nat = None)
  /\ (exists t t',
        run PkgMain [OpSetPermanent 1%nat 10%nat; OpSetTemporary 2%nat 20%nat 50;
                     OpSetTemporary 1%nat 11%nat 100] (New None) = Ok t
        /\ Main.MakePermanent 1%nat t = Ok (t', true)
        /\ t' = t
        /\ expHeap t' = [1%nat]
        /\ entry t' 2%nat = Some (mkElement 2%nat 20%nat 50 0))
  /\ (exists t t',
        run PkgMain [OpSetTemporary 1%nat 10%nat 100; OpSetPermanent 1%nat 11%nat;
                     OpSetExpiry 1%nat 200 50] (New None) = Ok t
        /\ expHeap t = [0%nat]
        /\ Main.MakePermanent 1%nat t = Ok (t', true)
        /\ entry t' 1%nat = Some (mkElement 1%nat 11%nat ElementPermanent (-1))
        /\ expHeap t' = []).
Proof.
  split; [|split; [|split]].
  - eexists _, _. split; [vm_compute; reflexivity|].
    split; [reflexivity|]. split; [reflexivity|]. split; [reflexivity|].
    split; [vm_compute; reflexivity|].
    split; [reflexivity|]. split; [reflexivity|]. split; [reflexivity|].
    reflexivity.
  - eexists _, _, _. split; [vm_compute; reflexivity|].
    split; [reflexivity|]. split; [vm_compute; reflexivity|].
    split; [reflexivity|]. split; [reflexivity|].
    split; [vm_compute; reflexivity|]. reflexivity.
  - eexists _, _. split; [vm_compute; reflexivity|].
    split; [vm_compute; reflexivity|]. repeat split; reflexivity.
  - eexists _, _. split; [vm_compute; reflexivity|].
    split; [reflexivity|]. split; [vm_compute; reflexivity|].
    split; reflexivity.
Qed.

(** ** Runs of calls and cleaner passes in package [main] *)

Section runs_keep_wf.
Context {K V : Type} `{Countable K}.
Implicit Types (t : TimedMap K V) (m : cells K V) (h : expiryHeap) (p : ptr).

Lemma wf_consistent t : wf t -> heap_store_consistent t.
Proof.
  intros [Hidx Hord Hlink Hlive] key p e Hkey He.
  destruct (Hlink _ _ Hkey) as (e' & He' & HK & Hin & Hout).
  assert (e' = e) as -> by congruence.
  split; [split|split].
  - intros Hp Hperm. by apply (Hout Hperm).
  - intros Htemp. destruct (Hin Htemp) as [_ Hat]. by eapply list_elem_of_lookup_2.
  - done.
  - intros Htemp. destruct (Hin Htemp) as [_ Hat].
    destruct (expHeap t) as [|r rest] eqn:Hh; [by rewrite lookup_nil in Hat|].
    exists r. split; [done|].
    assert (expiry (elems t) p = ExpiresAt e) as <-.
    { unfold expiry. by rewrite He. }
    eapply heap_ordered_min; [exact Hord|reflexivity|].
    by eapply list_elem_of_lookup_2.
Qed.

Lemma cleaner_section_wf now1 now2 t :
  wf t -> exists t' fin, cleaner_section now1 now2 t = Ok (t', fin) /\ wf t'.
Proof.
  intros Hwf. pose proof Hwf as [Hidx Hord Hlink Hlive].
  destruct (drain_spec (time.UnixNano now2) t Hidx Hord) as (t' & ps & Hd & Hpost).
  unfold cleaner_section.
  destruct (expHeap t) as [|next rest] eqn:Hh; [by eexists _, _|].
  destruct (Hidx 0%nat next) as (e & He & _); [done|].
  rewrite (deref_Ok _ _ _ He). simpl.
  case_bool_decide; [|by eexists _, _].
  rewrite Hd.
  simpl. eexists _, _. split; [done|]. by eapply drain_post_wf.
Qed.

Lemma act_keeps_wf (a : action K V) t :
  wf t -> no_sentinel_action a ->
  exists t', act PkgMain a t = Ok t' /\ wf t'.
Proof.
  intros Hwf Ha. destruct a as [o|now1 now2]; simpl.
  - by apply Main_keeps_wf.
  - destruct (cleaner_section_wf now1 now2 t Hwf) as (t' & fin & -> & Hwf').
    by exists t'.
Qed.

(** X1. In package [main], every sequence of calls and cleaner passes on a
    new map, none giving the sentinel as an expiry, returns without panic
    and leaves a well-formed map: an entry is in the heap exactly when it
    is temporary, at the position it records, and the root holds the least
    expiry. *)
Theorem Main_keeps_heap_and_store_consistent (acts : list (action K V)) cb :
  Forall no_sentinel_action acts ->
  exists t, run_actions PkgMain acts (New cb) = Ok t
            /\ wf t /\ heap_store_consistent t.
Proof.
  intros Hacts.
  assert (forall t0, wf t0 ->
            exists t, run_actions PkgMain acts t0 = Ok t /\ wf t) as Hrun.
  { induction Hacts as [|a acts Ha _ IH]; intros t0 Hwf; simpl.
    - by exists t0.
    - destruct (act_keeps_wf a t0 Hwf Ha) as (t1 & -> & Hwf1). simpl. by apply IH. }
  destruct (Hrun (New cb) (New_wf cb)) as (t & Hr & Hwf).
  exists t. split; [done|]. split; [done|]. by apply wf_consistent.
Qed.
End runs_keep_wf.

(** ** The counters and the size *)

Section accounting.
Context {K V : Type} `{Countable K}.
Implicit Types (t : TimedMap K V) (m : cells K V) (h : expiryHeap) (p : ptr).


Lemma balanced_insert t t' key p :
  items t !! key = None -> items t' = <[key := p]> (items t) ->
  added (stats t') = incr (added (stats t)) ->
  removed (stats t') = removed (stats t) -> expired (stats t') = expired (stats t) ->
  balanced t -> balanced t'.
Proof.
  unfold balanced, Size, incr, wrap_uint64. intros Hk -> -> -> -> Hb.
  rewrite map_size_insert_None by done. revert Hb.
  generalize (size (items t)). intros n Hb. dlia.
Qed.

Lemma balanced_delete t t' key p :
  items t !! key = Some p -> items t' = delete key (items t) ->
  added (stats t') = added (stats t) ->
  (removed (stats t') = incr (removed (stats t)) /\ expired (stats t') = expired (stats t)
   \/ removed (stats t') = removed (stats t) /\ expired (stats t') = incr (expired (stats t))) ->
  balanced t -> balanced t'.
Proof.
  unfold balanced, Size, incr, wrap_uint64. intros Hk -> -> Hre Hb.
  assert (size (items t) = S (size (delete key (items t)))) as Hs.
  { rewrite <- (insert_delete_id (items t) key p Hk) at 1.
    apply map_size_insert_None, lookup_delete_eq. }
  revert Hb Hs.
  generalize (size (delete key (items t))). generalize (size (items t)).
  intros n n' Hb Hs.
  destruct Hre as [[-> ->]|[-> ->]]; dlia.
Qed.

Lemma balanced_same t t' :
  items t' = items t ->
  added (stats t') = added (stats t) ->
  removed (stats t') = removed (stats t) -> expired (stats t') = expired (stats t) ->
  balanced t -> balanced t'.
Proof. unfold balanced, Size. by intros -> -> -> ->. Qed.

Lemma to_permanent_net p t t' :
  Main.to_permanent p t = Ok t' ->
  items t' = items t /\ added (stats t') = added (stats t)
  /\ removed (stats t') = removed (stats t) /\ expired (stats t') = expired (stats t).
Proof. unfold Main.to_permanent. intros Hr. inv_Ok; simpl; auto. Qed.

Lemma step_balanced pkg (o : op K V) t t' :
  step pkg o t = Ok t' -> o <> OpRemoveAll -> balanced t -> balanced t'.
Proof.
  intros Hr Ho Hb.
  destruct o, pkg; simpl in Hr; try done;
    unfold Temap.SetWithTTL, Main.SetWithTTL,
      Temap.SetTemporary, Main.SetTemporary, Temap.SetPermanent, Main.SetPermanent,
      Temap.Remove, Main.Remove, Temap.MakePermanent, Main.MakePermanent,
      Temap.SetExpiry, Main.SetExpiry, Get, new_element in Hr;
    inv_Ok;
    repeat match goal with
    | Hp : Main.to_permanent _ _ = Ok _ |- _ =>
        apply to_permanent_net in Hp as (? & ? & ? & ?)
    end;
    first
      [ done
      | by (eapply balanced_same; [..|exact Hb]; simpl in *; congruence)
      | by (eapply balanced_insert; [eassumption| |..|exact Hb]; simpl; try done)
      | by (eapply balanced_delete; [eassumption| |..|exact Hb]; simpl; auto) ].
Qed.
End accounting.

Section drain_accounting.
Context {K V : Type} `{Countable K}.
Implicit Types (t : TimedMap K V) (m : cells K V) (h : expiryHeap) (p : ptr).

(** A map that lost the keys of the addresses of [l], and only those. *)
Lemma map_size_without (keyof : ptr -> option K) (l : list ptr) :
  forall (m m' : gmap K ptr),
  NoDup l ->
  (forall k q, m !! k = Some q -> keyof q = Some k) ->
  (forall q, q ∈ l -> exists k, keyof q = Some k /\ m !! k = Some q /\ m' !! k = None) ->
  (forall k q, m' !! k = Some q -> m !! k = Some q) ->
  (forall k q, m !! k = Some q -> q ∉ l -> m' !! k = Some q) ->
  size m = (size m' + length l)%nat.
Proof.
  induction l as [|p l IH]; intros m m' Hnd Hkey Hl Hsub Hkeep.
  - simpl. rewrite Nat.add_0_r. f_equal. apply map_eq. intros k.
    destruct (m !! k) as [q|] eqn:Hq.
    + symmetry. apply Hkeep; [done|]. apply not_elem_of_nil.
    + destruct (m' !! k) as [q|] eqn:Hq'; [|done].
      apply Hsub in Hq'. congruence.
  - apply NoDup_cons in Hnd as [Hp Hnd].
    destruct (Hl p) as (kp & Hkp & Hmp & Hm'p); [by left|].
    rewrite (IH m (<[kp := p]> m')); [|done|done|..].
    + rewrite map_size_insert_None by done. simpl. lia.
    + intros q Hq. destruct (Hl q) as (k & Hk & Hmq & Hm'q); [by right|].
      exists k. split; [done|]. split; [done|].
      rewrite lookup_insert_ne; [done|]. intros <-.
      rewrite Hmp in Hmq. injection Hmq as ->. done.
    + intros k q [[<- <-]|[Hne Hq]]%lookup_insert_Some; [done|by apply Hsub].
    + intros k q Hq Hnq. destruct (decide (q = p)) as [->|Hne].
      * apply Hkey in Hq. rewrite Hkp in Hq. injection Hq as <-.
        by rewrite lookup_insert_eq.
      * rewrite lookup_insert_ne.
        -- apply Hkeep; [done|]. intros [->|Hq']%elem_of_cons; done.
        -- intros <-. rewrite Hmp in Hq. by injection Hq as ->.
Qed.

(** What a drain does to the map, in terms of its keys. *)
Lemma drain_post_items now t t' popped :
  wf t -> drain_post now t t' popped ->
  NoDup popped
  /\ (forall p, p ∈ popped <-> p ∈ expHeap t /\ expiry (elems t) p <= now)
  /\ (forall p, p ∈ popped ->
        exists e, elems t !! p = Some e /\ items t !! Key e = Some p
                  /\ items t' !! Key e = None)
  /\ (forall key p, items t' !! key = Some p -> items t !! key = Some p)
  /\ (forall key p, items t !! key = Some p -> p ∉ popped ->
        items t' !! key = Some p).
Proof.
  intros [Hidx Hord Hlink Hlive]
    (Hidx' & Hord' & Hs & Hf & Hperm & Hdue & Hlate & Hsorted
     & Hgone & Hsub & Hkeep & Hstats & Hcb).
  pose proof (heap_indexed_NoDup _ _ Hidx) as Hnd.
  rewrite Hperm in Hnd. apply NoDup_app in Hnd as (Hnd1 & Hdisj & Hnd2).
  rewrite Forall_forall in Hdue. rewrite Forall_forall in Hlate.
  assert (forall p, p ∈ popped <-> p ∈ expHeap t /\ expiry (elems t) p <= now) as Hiff.
  { intros p. split.
    - intros Hp. split; [|by apply Hdue]. rewrite Hperm. apply elem_of_app. by left.
    - intros [Hp Hle]. rewrite Hperm in Hp. apply elem_of_app in Hp as [Hp|Hp]; [done|].
      specialize (Hlate _ Hp). lia. }
  split; [done|]. split; [done|]. split; [|split; [done|]].
  - intros p Hp. destruct (Hlive p) as (e & He & Hkey); [by apply Hiff|].
    exists e. split; [done|]. split; [done|]. by eapply Hgone.
  - intros key p Hkey Hp. rewrite Hkeep; [done|].
    intros q e Hq He <-.
    destruct (Hlive q) as (e' & He' & Hkey'); [by apply Hiff|].
    rewrite He in He'. injection He' as <-.
    rewrite Hkey in Hkey'. injection Hkey' as ->. done.
Qed.

Lemma drain_post_size now t t' popped :
  wf t -> drain_post now t t' popped ->
  Size t = Size t' + Z.of_nat (length popped).
Proof.
  intros Hwf Hpost.
  destruct (drain_post_items now t t' popped Hwf Hpost)
    as (Hnd & Hiff & Hgone & Hsub & Hkeep).
  destruct Hwf as [Hidx Hord Hlink Hlive].
  unfold Size.
  rewrite (map_size_without (fun p => Key <$> elems t !! p) popped
             (items t) (items t')); [lia|done|..|done|done].
  - intros k q Hq. destruct (Hlink _ _ Hq) as (e & -> & <- & _). done.
  - intros q Hq. destruct (Hgone q Hq) as (e & He & Hk & Hk').
    exists (Key e). by rewrite He.
Qed.

Lemma iter_incr_expired (n : nat) s :
  added (Nat.iter n expired_incr s) = added s
  /\ removed (Nat.iter n expired_incr s) = removed s
  /\ permanent (Nat.iter n expired_incr s) = permanent s
  /\ wrap_uint64 (expired (Nat.iter n expired_incr s))
     = wrap_uint64 (expired s + Z.of_nat n).
Proof.
  induction n as [|n (Ha & Hr & Hp & He)]; simpl.
  - by rewrite Z.add_0_r.
  - split; [done|]. split; [done|]. split; [done|].
    revert He. unfold incr, wrap_uint64.
    generalize (expired (Nat.iter n expired_incr s)). intros x He. dlia.
Qed.

Lemma drain_post_balanced now t t' popped :
  wf t -> drain_post now t t' popped -> balanced t -> balanced t'.
Proof.
  intros Hwf Hpost Hb.
  pose proof (drain_post_size now t t' popped Hwf Hpost) as Hsize.
  destruct Hpost as (_ & _ & _ & _ & _ & _ & _ & _ & _ & _ & _ & Hstats & _).
  destruct (iter_incr_expired (length popped) (stats t)) as (Ha & Hr & _ & He).
  rewrite <- Hstats in Ha, Hr, He.
  revert Hb. unfold balanced. rewrite Ha, Hr, Hsize.
  revert He. unfold wrap_uint64.
  generalize (expired (stats t')) (expired (stats t)) (Size t')
    (Z.of_nat (length popped)) (added (stats t)) (removed (stats t)).
  intros. dlia.
Qed.

Lemma act_balanced (a : action K V) t t' :
  wf t -> act PkgMain a t = Ok t' -> keeps_entries a -> balanced t -> balanced t'.
Proof.
  intros Hwf Hr Ha Hb. destruct a as [o|now1 now2]; simpl in Hr.
  - eapply step_balanced; [exact Hr| |done]. by intros ->.
  - apply fmap_Ok_inv in Hr as ([t1 fin] & Hsec & <-). simpl.
    unfold cleaner_section in Hsec.
    destruct (expHeap t) as [|next rest] eqn:Hh; [by simplify_eq|].
    apply bind_Ok_inv in Hsec as (e & _ & Hsec).
    case_bool_decide; [|by simplify_eq].
    apply bind_Ok_inv in Hsec as ([t2 ps] & Hd & [= <- <-]).
    pose proof Hwf as [Hidx Hord _ _].
    destruct (drain_spec (time.UnixNano now2) t Hidx Hord) as (t3 & ps3 & Hd3 & Hpost).
    rewrite Hd in Hd3. injection Hd3 as <- <-.
    by eapply drain_post_balanced.
Qed.

(** X2. In package [main], as long as [RemoveAll] is not called and no
    call passes the permanent sentinel as an expiry, the counters account
    for the entries: after every sequence of calls and cleaner passes on a
    new map, added - removed - expired is the number of entries (as
    [uint64]), which is what [Stats] reports as current. *)
Theorem Main_counters_account_for_entries (acts : list (action K V)) cb :
  Forall no_sentinel_action acts -> Forall keeps_entries acts ->
  exists t, run_actions PkgMain acts (New cb) = Ok t
    /\ wrap_uint64 (added (stats t) - removed (stats t) - expired (stats t))
       = wrap_uint64 (Size t)
    /\ Stats t !! "current"
       = Some (wrap_uint64 (added (stats t) - removed (stats t) - expired (stats t))).
Proof.
  intros Hacts Hkeep.
  assert (forall t0, wf t0 -> balanced t0 ->
            exists t, run_actions PkgMain acts t0 = Ok t /\ balanced t) as Hrun.
  { induction Hacts as [|a acts Ha _ IH]; intros t0 Hwf Hb; simpl.
    - by exists t0.
    - apply Forall_cons in Hkeep as [Hka Hkeep].
      destruct (act_keeps_wf a t0 Hwf Ha) as (t1 & Hact & Hwf1).
      rewrite Hact. simpl. apply IH; [done..|].
      by apply (act_balanced a t0 t1). }
  destruct (Hrun (New cb)) as (t & Hr & Hb); [apply New_wf|done|].
  exists t. split; [done|]. split; [done|].
  unfold Stats. rewrite !lookup_insert_ne by done. rewrite lookup_insert_eq.
  f_equal. symmetry. exact Hb.
Qed.
End drain_accounting.

(** ** The heap functions write positions only *)

Section heap_data.
Context {K V : Type}.
Implicit Types (e : element K V) (m : cells K V) (h : expiryHeap) (p : ptr).

(** The functions of the heap write the field [index] and nothing else. *)
Lemma assign_index_same_data m m' p i :
  assign m p (set_index i) = Ok m' -> same_data m m'.
Proof.
  unfold assign. intros (e & He%deref_inv & [= <-])%bind_Ok_inv.
  by apply same_data_insert.
Qed.

Lemma method_Swap_same_data h m i j h' m' :
  ExpiryHeap.Swap h m i j = Ok (h', m') -> same_data m m'.
Proof.
  unfold ExpiryHeap.Swap. intros Hr. inv_Ok.
  eapply same_data_trans; by eapply assign_index_same_data.
Qed.

Lemma method_Push_same_data h m x h' m' :
  ExpiryHeap.Push h m x = Ok (h', m') -> same_data m m'.
Proof. unfold ExpiryHeap.Push. intros Hr. inv_Ok. by eapply assign_index_same_data. Qed.

Lemma method_Pop_same_data h m h' m' x :
  ExpiryHeap.Pop h m = Ok (h', m', x) -> same_data m m'.
Proof. unfold ExpiryHeap.Pop. intros Hr. inv_Ok. by eapply assign_index_same_data. Qed.

Lemma up_loop_same_data fuel : forall h m j h' m',
  heap.up_loop fuel h m j = Ok (h', m') -> same_data m m'.
Proof.
  induction fuel as [|fuel IH]; intros h m j h' m'; simpl; [done|].
  case_bool_decide; [intros [= <- <-]; apply same_data_refl|].
  intros (lt & _ & Hr)%bind_Ok_inv.
  destruct lt; simpl in Hr; [|injection Hr as <- <-; apply same_data_refl].
  apply bind_Ok_inv in Hr as ([h1 m1] & Hs & Hr).
  eapply same_data_trans; [by eapply method_Swap_same_data|by eapply IH].
Qed.

Lemma down_loop_same_data fuel : forall h m i n h' m' i',
  heap.down_loop fuel h m i n = Ok (h', m', i') -> same_data m m'.
Proof.
  induction fuel as [|fuel IH]; intros h m i n h' m' i'; simpl; [done|].
  case_bool_decide; [intros [= <- <- <-]; apply same_data_refl|].
  intros (j & _ & (lt & _ & Hr)%bind_Ok_inv)%bind_Ok_inv.
  destruct lt; simpl in Hr; [|injection Hr as <- <- <-; apply same_data_refl].
  apply bind_Ok_inv in Hr as ([h1 m1] & Hs & Hr).
  eapply same_data_trans; [by eapply method_Swap_same_data|by eapply IH].
Qed.

Lemma up_same_data h m j h' m' :
  heap.up h m j = Ok (h', m') -> same_data m m'.
Proof. apply up_loop_same_data. Qed.

Lemma down_same_data h m i n h' m' b :
  heap.down h m i n = Ok (h', m', b) -> same_data m m'.
Proof.
  unfold heap.down. intros ([[h1 m1] i1] & Hd & [= <- <- <-])%bind_Ok_inv.
  by eapply down_loop_same_data.
Qed.

Lemma Push_same_data h m x h' m' :
  heap.Push h m x = Ok (h', m') -> same_data m m'.
Proof.
  unfold heap.Push. intros ([h1 m1] & Hp & Hu)%bind_Ok_inv.
  eapply same_data_trans; [by eapply method_Push_same_data|by eapply up_same_data].
Qed.

Lemma Pop_same_data h m h' m' x :
  heap.Pop h m = Ok (h', m', x) -> same_data m m'.
Proof.
  unfold heap.Pop.
  intros ([h1 m1] & Hs & ([[h2 m2] b] & Hd & Hp)%bind_Ok_inv)%bind_Ok_inv.
  eapply same_data_trans; [by eapply method_Swap_same_data|].
  eapply same_data_trans; [by eapply down_same_data|by eapply method_Pop_same_data].
Qed.

Lemma Fix_same_data h m i h' m' :
  heap.Fix h m i = Ok (h', m') -> same_data m m'.
Proof.
  unfold heap.Fix. intros ([[h1 m1] b] & Hd & Hu)%bind_Ok_inv.
  eapply same_data_trans; [by eapply down_same_data|].
  destruct b; simpl in Hu; [injection Hu as <- <-; apply same_data_refl|].
  by eapply up_same_data.
Qed.

Lemma Remove_same_data h m i h' m' x :
  heap.Remove h m i = Ok (h', m', x) -> same_data m m'.
Proof.
  unfold heap.Remove. intros ([h2 m2] & Hr & Hp)%bind_Ok_inv.
  eapply same_data_trans; [|by eapply method_Pop_same_data].
  case_bool_decide; [|injection Hr as <- <-; apply same_data_refl].
  apply bind_Ok_inv in Hr as ([h1 m1] & Hs & Hr).
  apply bind_Ok_inv in Hr as ([[h3 m3] b] & Hd & Hr).
  eapply same_data_trans; [by eapply method_Swap_same_data|].
  eapply same_data_trans; [by eapply down_same_data|].
  destruct b; simpl in Hr; [injection Hr as <- <-; apply same_data_refl|].
  by eapply up_same_data.
Qed.
End heap_data.

(** ** A call on one key and the other keys *)

Section frame.
Context {K V : Type} `{Countable K}.
Implicit Types (t : TimedMap K V) (m : cells K V) (h : expiryHeap) (p : ptr).

Lemma sde_refl el m : same_data_except el m m.
Proof. by intros q _. Qed.

Lemma sde_trans el m1 m2 m3 :
  same_data_except el m1 m2 -> same_data_except el m2 m3 ->
  same_data_except el m1 m3.
Proof. intros H12 H23 q Hq. by rewrite H12, H23. Qed.

Lemma sde_same_data el m m' : same_data m m' -> same_data_except el m m'.
Proof. intros Hs q _. apply Hs. Qed.

Lemma sde_assign el m m' (upd : element K V -> element K V) :
  assign m el upd = Ok m' -> same_data_except el m m'.
Proof.
  unfold assign. intros (e & _ & [= <-])%bind_Ok_inv q Hq.
  by rewrite lookup_insert_ne.
Qed.

Lemma sde_insert el m (e : element K V) :
  same_data_except el m (<[el := e]> m).
Proof. intros q Hq. by rewrite lookup_insert_ne. Qed.

Lemma Get_frame t t' k el :
  items t' !! k = items t !! k ->
  (forall q, items t !! k = Some q -> q <> el) ->
  same_data_except el (elems t) (elems t') ->
  snd <$> Get k t' = snd <$> Get k t.
Proof.
  intros Hk Hne Hs. unfold Get. rewrite Hk.
  destruct (items t !! k) as [q|]; [|done].
  specialize (Hs q (Hne q eq_refl)). unfold deref.
  destruct (elems t !! q) as [e|], (elems t' !! q) as [e'|]; simpl in *; try done.
  injection Hs as HK Hv He. simpl. by rewrite Hv, He.
Qed.

Lemma wf_keys_recorded t : wf t -> keys_recorded t.
Proof.
  intros [_ _ Hlink _] key p Hp.
  destruct (Hlink _ _ Hp) as (e & -> & <- & _). done.
Qed.

Lemma other_key_other_ptr t key k p q :
  keys_recorded t ->
  items t !! key = Some p -> items t !! k = Some q -> key <> k -> q <> p.
Proof.
  intros Hrec Hp Hq Hne ->.
  apply Hrec in Hp. apply Hrec in Hq. congruence.
Qed.

Lemma linked_not_fresh t k q :
  keys_recorded t -> items t !! k = Some q -> q <> fresh (dom (elems t)).
Proof.
  intros Hrec Hq ->. apply Hrec in Hq.
  by rewrite fresh_not_allocated in Hq.
Qed.

Lemma same_keys_refl m : same_keys m m.
Proof. done. Qed.

Lemma same_keys_trans m1 m2 m3 :
  same_keys m1 m2 -> same_keys m2 m3 -> same_keys m1 m3.
Proof. intros H12 H23 p. by rewrite H12, H23. Qed.

Lemma same_data_same_keys m m' : same_data m m' -> same_keys m m'.
Proof.
  intros Hs p. specialize (Hs p).
  destruct (m !! p) as [e|], (m' !! p) as [e'|]; simpl in *; try done.
  by injection Hs as -> _ _.
Qed.

Lemma same_keys_assign m m' el (upd : element K V -> element K V) :
  (forall e, Key (upd e) = Key e) ->
  assign m el upd = Ok m' -> same_keys m m'.
Proof.
  unfold assign. intros Hupd (e & He%deref_inv & [= <-])%bind_Ok_inv q.
  destruct (decide (q = el)) as [->|Hne].
  - by rewrite lookup_insert_eq, He; simpl; rewrite Hupd.
  - by rewrite lookup_insert_ne.
Qed.

Lemma keys_recorded_same t t' :
  (forall k q, items t' !! k = Some q -> items t !! k = Some q) ->
  same_keys (elems t) (elems t') -> keys_recorded t -> keys_recorded t'.
Proof. intros Hsub Hs Hrec key p Hp. rewrite <- Hs. by apply Hrec, Hsub. Qed.

Lemma keys_recorded_new t t' key (e : element K V) :
  items t' = <[key := fresh (dom (elems t))]> (items t) ->
  same_keys (<[fresh (dom (elems t)) := e]> (elems t)) (elems t') ->
  Key e = key -> keys_recorded t -> keys_recorded t'.
Proof.
  intros Hit Hs HK Hrec k q. rewrite Hit, <- Hs.
  intros [[<- <-]|[Hne Hq]]%lookup_insert_Some.
  - by rewrite lookup_insert_eq; simpl; rewrite HK.
  - rewrite lookup_insert_ne; [by apply Hrec|].
    intros Heq. by eapply linked_not_fresh.
Qed.

Lemma to_permanent_frame el t t' :
  Main.to_permanent el t = Ok t' ->
  items t' = items t /\ same_data_except el (elems t) (elems t').
Proof.
  unfold Main.to_permanent. intros Hr. inv_Ok; simpl in *.
  all: split; [done|].
  all: repeat match goal with
    | H : heap.Remove _ _ _ = Ok _ |- _ => apply Remove_same_data, (sde_same_data el) in H
    | H : assign _ _ _ = Ok _ |- _ => apply sde_assign in H
    end.
  all: eauto using sde_trans.
Qed.

Ltac sde_facts el :=
  repeat match goal with
  | H : heap.Remove _ _ _ = Ok _ |- _ => apply Remove_same_data, (sde_same_data el) in H
  | H : heap.Push _ _ _ = Ok _ |- _ => apply Push_same_data, (sde_same_data el) in H
  | H : heap.Fix _ _ _ = Ok _ |- _ => apply Fix_same_data, (sde_same_data el) in H
  | H : assign _ _ _ = Ok _ |- _ => apply sde_assign in H
  | H : Main.to_permanent _ _ = Ok _ |- _ =>
      apply to_permanent_frame in H as [? H]; simpl in H
  end.

Ltac sde_chain :=
  first
    [ assumption
    | apply sde_refl
    | apply sde_insert
    | match goal with
      | H : same_data_except ?el ?m1 ?m2 |- same_data_except ?el ?m0 ?m2 =>
          apply (sde_trans el m0 m1 m2); [clear H; sde_chain|exact H]
      end ].

Lemma step_frame pkg (o : op K V) t t' k :
  keys_recorded t -> step pkg o t = Ok t' -> untouched o k ->
  snd <$> Get k t' = snd <$> Get k t.
Proof.
  intros Hwf Hr Ho.
  destruct o, pkg; simpl in Hr, Ho; try done;
    unfold Temap.SetWithTTL, Main.SetWithTTL,
      Temap.SetTemporary, Main.SetTemporary, Temap.SetPermanent, Main.SetPermanent,
      Temap.Remove, Main.Remove, Temap.MakePermanent, Main.MakePermanent,
      Temap.SetExpiry, Main.SetExpiry, Get, new_element in Hr;
    inv_Ok; try done.
  all: repeat match goal with
    | H : Main.to_permanent _ _ = Ok _ |- _ =>
        apply to_permanent_frame in H as [? H]; simpl in *
    end.
  all: match goal with
    | Hk : items ?t0 !! ?key = Some ?p |- _ =>
        apply (Get_frame _ _ k p);
          [ simpl; rewrite ?lookup_insert_ne, ?lookup_delete_ne by done;
            try done; try congruence
          | intros q Hq; by eapply other_key_other_ptr
          | sde_facts p; simpl in * ]
    | Hk : items ?t0 !! ?key = None |- _ =>
        apply (Get_frame _ _ k (fresh (dom (elems t0))));
          [ simpl; rewrite ?lookup_insert_ne, ?lookup_delete_ne by done; try done
          | intros q Hq; by eapply linked_not_fresh
          | sde_facts (fresh (dom (elems t0))); simpl in * ]
    end.
  all: sde_chain.
Qed.

Lemma to_permanent_keys el t t' :
  Main.to_permanent el t = Ok t' ->
  items t' = items t /\ same_keys (elems t) (elems t').
Proof.
  unfold Main.to_permanent. intros Hr. inv_Ok; simpl in *.
  all: split; [done|].
  all: repeat match goal with
    | H : heap.Remove _ _ _ = Ok _ |- _ => apply Remove_same_data, same_data_same_keys in H
    | H : assign _ _ _ = Ok _ |- _ => apply same_keys_assign in H; [|done]
    end.
  all: eauto using same_keys_trans.
Qed.

Ltac sk_facts :=
  repeat match goal with
  | H : heap.Remove _ _ _ = Ok _ |- _ => apply Remove_same_data, same_data_same_keys in H
  | H : heap.Push _ _ _ = Ok _ |- _ => apply Push_same_data, same_data_same_keys in H
  | H : heap.Fix _ _ _ = Ok _ |- _ => apply Fix_same_data, same_data_same_keys in H
  | H : heap.Init _ _ = Ok _ |- _ => clear H
  | H : assign _ _ _ = Ok _ |- _ => apply same_keys_assign in H; [|done]
  | H : Main.to_permanent _ _ = Ok _ |- _ =>
      apply to_permanent_keys in H as [? H]; simpl in H
  end.

Ltac sk_chain :=
  first
    [ assumption
    | apply same_keys_refl
    | match goal with
      | H : same_keys ?m1 ?m2 |- same_keys ?m0 ?m2 =>
          apply (same_keys_trans m0 m1 m2); [clear H; sk_chain|exact H]
      end ].

Lemma step_keys_recorded pkg (o : op K V) t t' :
  keys_recorded t -> step pkg o t = Ok t' -> keys_recorded t'.
Proof.
  intros Hrec Hr.
  destruct o, pkg; simpl in Hr;
    unfold Temap.SetWithTTL, Main.SetWithTTL,
      Temap.SetTemporary, Main.SetTemporary, Temap.SetPermanent, Main.SetPermanent,
      Temap.Remove, Main.Remove, Temap.MakePermanent, Main.MakePermanent,
      Temap.SetExpiry, Main.SetExpiry, Get, RemoveAll, new_element in Hr;
    inv_Ok; try done.
  all: sk_facts; simpl in *.
  all: try (by intros ? ? ?%lookup_empty_Some).
  all: first
    [ (eapply keys_recorded_new; [reflexivity|simpl; sk_chain|done|done])
    | match goal with
      | Hrec0 : keys_recorded ?t0 |- _ =>
          apply (keys_recorded_same t0); [|simpl; sk_chain|exact Hrec0]; simpl;
          first [ by intros ? ? [_ ?]%lookup_delete_Some
                | by (intros ? ? ?; congruence) | done ]
      end ].
Qed.

End frame.

Section frame_runs.
Context {K V : Type} `{Countable K}.
Implicit Types (t : TimedMap K V) (m : cells K V) (h : expiryHeap) (p : ptr).

Lemma drain_loop_keys_recorded fuel : forall now t acc t' out,
  keys_recorded t -> drain_loop fuel now t acc = Ok (t', out) -> keys_recorded t'.
Proof.
  induction fuel as [|fuel IH]; intros now t acc t' out Hrec; simpl;
    (destruct (expHeap t) as [|p0 rest] eqn:Hh; [by intros [= <- <-]|]);
    intros (e0 & _ & Hr)%bind_Ok_inv;
    (case_bool_decide; [|by injection Hr as <- <-]); [done|].
  apply bind_Ok_inv in Hr as ([[h1 m1] el] & Hpop & Hr).
  apply bind_Ok_inv in Hr as (e & _ & Hr).
  apply IH in Hr; [done|].
  apply Pop_same_data, same_data_same_keys in Hpop.
  eapply (keys_recorded_same t); [|exact Hpop|done]. simpl.
  by intros ? ? [_ ?]%lookup_delete_Some.
Qed.

Lemma act_keys_recorded pkg (a : action K V) t t' :
  keys_recorded t -> act pkg a t = Ok t' -> keys_recorded t'.
Proof.
  intros Hrec. destruct a as [o|now1 now2]; simpl.
  - by apply step_keys_recorded.
  - intros ([t1 fin] & Hsec & <-)%fmap_Ok_inv. simpl.
    unfold cleaner_section in Hsec.
    destruct (expHeap t) as [|next rest] eqn:Hh; [by simplify_eq|].
    apply bind_Ok_inv in Hsec as (e & _ & Hsec).
    case_bool_decide; [|by simplify_eq].
    apply bind_Ok_inv in Hsec as ([t2 ps] & Hd & [= <- <-]).
    by eapply drain_loop_keys_recorded.
Qed.

Lemma run_keys_recorded pkg (acts : list (action K V)) : forall t t',
  keys_recorded t -> run_actions pkg acts t = Ok t' -> keys_recorded t'.
Proof.
  induction acts as [|a acts IH]; intros t t' Hrec; simpl.
  - by intros [= <-].
  - intros (t1 & Ha & Hr)%bind_Ok_inv.
    eapply IH; [|exact Hr]. by eapply act_keys_recorded.
Qed.

Lemma New_keys_recorded cb : keys_recorded (New (K:=K) (V:=V) cb).
Proof. intros key p Hp. simpl in Hp. by rewrite lookup_empty in Hp. Qed.

Lemma Get_returns k t :
  keys_recorded t -> exists r, Get k t = Ok (t, r).
Proof.
  intros Hrec. unfold Get. destruct (items t !! k) as [q|] eqn:Hq; [|by eexists].
  apply Hrec in Hq. unfold deref.
  destruct (elems t !! q) as [e|]; [by eexists|done].
Qed.

(** X3. In both packages, after any run of calls and cleaner passes, a
    call about one key leaves what [Get] returns for every other key as it
    was, and [Get] returns without panic before and after. *)
Theorem call_leaves_other_keys pkg (acts : list (action K V)) cb (o : op K V) t t' k :
  run_actions pkg acts (New cb) = Ok t ->
  step pkg o t = Ok t' -> untouched o k ->
  exists r, Get k t = Ok (t, r) /\ Get k t' = Ok (t', r).
Proof.
  intros Hrun Hstep Ho.
  assert (keys_recorded t) as Hrec.
  { eapply run_keys_recorded; [|exact Hrun]. apply New_keys_recorded. }
  destruct (Get_returns k t Hrec) as [r Hr].
  destruct (Get_returns k t') as [r' Hr']; [by eapply step_keys_recorded|].
  exists r. split; [done|].
  pose proof (step_frame pkg o t t' k Hrec Hstep Ho) as Hf.
  rewrite Hr, Hr' in Hf. simpl in Hf. by injection Hf as ->.
Qed.
End frame_runs.

(** ** Calls and what [Get] returns after them *)

Section api.
Context {K V : Type} `{Countable K}.
Implicit Types (t : TimedMap K V) (m : cells K V) (h : expiryHeap) (p : ptr).

Lemma Get_absent key t :
  items t !! key = None -> Get key t = Ok (t, (None, ElementDoesntExist, false)).
Proof. unfold Get. by intros ->. Qed.

Lemma Get_at key t p e :
  items t !! key = Some p -> elems t !! p = Some e ->
  Get key t = Ok (t, (Some (Value e), ExpiresAt e, true)).
Proof. intros Hk He. unfold Get. by rewrite Hk, (deref_Ok _ _ _ He). Qed.

Lemma Size_delete t key p :
  items t !! key = Some p ->
  Z.of_nat (size (delete key (items t))) = Size t - 1.
Proof.
  intros Hk. unfold Size.
  rewrite <- (insert_delete_id (items t) key p Hk) at 2.
  rewrite map_size_insert_None by apply lookup_delete_eq. lia.
Qed.

(** The guard of [Remove] in package [temap] has one more test than the one
    of package [main]; on a well-formed map the two agree. *)
Lemma Remove_guard t key p e :
  wf t -> items t !! key = Some p -> elems t !! p = Some e ->
  bool_decide (ExpiresAt e <> ElementPermanent /\ index e >= 0
               /\ index e < Z.of_nat (length (expHeap t)))
  = bool_decide (ExpiresAt e <> ElementPermanent /\ index e >= 0).
Proof.
  intros Hwf Hkey He. apply bool_decide_ext. split; [tauto|].
  intros [Htemp Hge]. split; [done|].
  destruct (remove_entry_spec t key p e Hwf Hkey He Htemp) as [Hrange _]. lia.
Qed.

(** X4. [Remove], in both packages, on a well-formed map: it returns and
    keeps the map well-formed; [Get] no longer finds the key; on an absent
    key the state is unchanged; on a present key the entry leaves map and
    heap, the size drops by one and only the removed counter moves. *)
Theorem Remove_deletes_the_key pkg key t :
  wf t ->
  exists t',
    Remove_in pkg key t = Ok t' /\ wf t'
    /\ Get key t' = Ok (t', (None, ElementDoesntExist, false))
    /\ (items t !! key = None -> t' = t)
    /\ (forall p, items t !! key = Some p ->
          items t' = delete key (items t) /\ (p ∉ expHeap t')
          /\ Size t' = Size t - 1
          /\ removed (stats t') = incr (removed (stats t))
          /\ added (stats t') = added (stats t)
          /\ expired (stats t') = expired (stats t)
          /\ permanent (stats t') = permanent (stats t)).
Proof.
  intros Hwf.
  destruct (items t !! key) as [p|] eqn:Hkey.
  - destruct (wf_linked _ Hwf _ _ Hkey) as (e & He & _).
    destruct (expired_branch_spec t key p e Hwf Hkey He)
      as (h' & m' & Hbr & Hpost & Hwf').
    eexists. split.
    { destruct pkg; simpl; unfold Temap.Remove, Main.Remove;
        rewrite Hkey, (deref_Ok _ _ _ He); simpl;
        rewrite ?(Remove_guard t key p e Hwf Hkey He), Hbr; simpl; reflexivity. }
    destruct Hpost as (Hit & Hout & _ & _ & _ & Hrm & Hex & Had & Hpe & _).
    split; [done|]. split; [apply Get_absent; simpl; apply lookup_delete_eq|].
    split; [done|]. intros q [= <-].
    split; [done|]. split; [done|]. split; [|done].
    by apply (Size_delete t key p).
  - exists t. split.
    { destruct pkg; simpl; unfold Temap.Remove, Main.Remove; by rewrite Hkey. }
    split; [done|]. split; [by apply Get_absent|]. split; [done|]. done.
Qed.

Lemma Size_insert_new t key p :
  items t !! key = None ->
  Z.of_nat (size (<[key := p]> (items t))) = Size t + 1.
Proof. intros Hk. unfold Size. rewrite map_size_insert_None by done. lia. Qed.

(** [SetTemporary] on a key that is absent or temporary: the cell of the
    key after the call. *)
Lemma SetTemporary_entry pkg key value (x : time.Time) t :
  wf t -> time.UnixNano x <> ElementPermanent ->
  (forall e, entry t key = Some e -> ExpiresAt e <> ElementPermanent) ->
  exists t' p e',
    SetTemporary_in pkg key value x t = Ok t' /\ wf t'
    /\ items t' = <[key := p]> (items t)
    /\ (items t !! key = None \/ items t !! key = Some p)
    /\ elems t' !! p = Some e'
    /\ Value e' = value /\ ExpiresAt e' = time.UnixNano x
    /\ stats t' = (if items t !! key is Some _ then stats t
                   else added_incr (stats t)).
Proof.
  intros Hwf Hx Htemp0.
  destruct (items t !! key) as [p|] eqn:Hkey.
  - destruct (wf_linked _ Hwf _ _ Hkey) as (e & He & HK & _).
    assert (ExpiresAt e <> ElementPermanent) as Htemp.
    { apply Htemp0. unfold entry. by rewrite Hkey. }
    destruct (fix_entry_wf t key p e
                (set_ExpiresAt (time.UnixNano x) (set_Value value e))
                Hwf Hkey He Htemp)
      as (Hge & h' & m3 & Hfix & Hwf'); [done..|].
    pose proof (Fix_same_data _ _ _ _ _ Hfix) as Hs.
    destruct (same_data_lookup _ _ p _ Hs (lookup_insert_eq _ _ _))
      as (e3 & He3 & _ & HV & HE).
    exists (with_heap h' m3 t), p, e3. split.
    { destruct pkg; simpl; unfold Temap.SetTemporary, Main.SetTemporary;
        rewrite Hkey, (assign_Ok _ _ _ _ He); simpl.
      - erewrite assign_Ok by apply lookup_insert_eq. simpl.
        rewrite insert_insert_eq.
        erewrite deref_Ok by apply lookup_insert_eq.
        cbn [mbind result_bind]. rewrite bool_decide_true by done.
        rewrite Hfix. done.
      - rewrite (deref_Ok _ _ (set_Value value e)) by apply lookup_insert_eq. simpl.
        rewrite bool_decide_true by done.
        erewrite assign_Ok by apply lookup_insert_eq. simpl.
        rewrite insert_insert_eq.
        erewrite deref_Ok by apply lookup_insert_eq.
        cbn [mbind result_bind]. rewrite bool_decide_true by lia.
        rewrite Hfix. done. }
    split; [done|]. split; [simpl; by rewrite insert_id|].
    split; [by right|]. done.
  - destruct (push_entry_wf t key (fresh (dom (elems t)))
                (mkElement key value (time.UnixNano x) 0)
                (onExpire t) (added_incr (stats t)) Hwf)
      as (h' & m2 & Hpush & Hwf'); [|by left| |done|done|].
    { apply fresh_not_in_heap, Hwf. }
    { intros k Hk. by apply (fresh_not_linked t k) in Hk. }
    pose proof (Push_same_data _ _ _ _ _ Hpush) as Hs.
    destruct (same_data_lookup _ _ (fresh (dom (elems t))) _ Hs (lookup_insert_eq _ _ _))
      as (e3 & He3 & _ & HV & HE).
    eexists _, (fresh (dom (elems t))), e3. split.
    { destruct pkg; simpl; unfold Temap.SetTemporary, Main.SetTemporary, new_element;
        rewrite Hkey, bool_decide_true by done; rewrite Hpush; simpl; reflexivity. }
    split; [done|]. split; [done|]. split; [by left|]. done.
Qed.

(** X5. [SetTemporary] with a non-sentinel expiry on a key that is absent
    or temporary, in both packages: the map stays well-formed, [Get]
    returns the value and the expiry just set, and size and the added
    counter grow by one exactly when the key is new. *)
Theorem SetTemporary_then_Get pkg key value (x : time.Time) t :
  wf t -> time.UnixNano x <> ElementPermanent ->
  (forall e, entry t key = Some e -> ExpiresAt e <> ElementPermanent) ->
  exists t',
    SetTemporary_in pkg key value x t = Ok t' /\ wf t'
    /\ Get key t' = Ok (t', (Some value, time.UnixNano x, true))
    /\ Size t' = (if items t !! key is Some _ then Size t else Size t + 1)
    /\ added (stats t') = (if items t !! key is Some _ then added (stats t)
                           else incr (added (stats t)))
    /\ permanent (stats t') = permanent (stats t).
Proof.
  intros Hwf Hx Htemp0.
  destruct (SetTemporary_entry pkg key value x t Hwf Hx Htemp0)
    as (t' & p & e' & Hcall & Hwf' & Hit & Hold & He' & HV & HE & Hst).
  exists t'. split; [done|]. split; [done|]. split.
  { rewrite (Get_at key t' p e'); [by rewrite HV, HE| |done].
    rewrite Hit. apply lookup_insert_eq. }
  unfold Size at 1. rewrite Hit, Hst.
  destruct Hold as [Hnone|Hsome].
  - rewrite Hnone. split; [by apply Size_insert_new|]. done.
  - rewrite Hsome. rewrite insert_id by done. done.
Qed.
End api.

Section api2.
Context {K V : Type} `{Countable K}.
Implicit Types (t : TimedMap K V) (m : cells K V) (h : expiryHeap) (p : ptr).

Lemma wf_temporary_in_heap t key p e :
  wf t -> items t !! key = Some p -> elems t !! p = Some e ->
  ExpiresAt e <> ElementPermanent -> p ∈ expHeap t.
Proof.
  intros Hwf Hkey He Htemp.
  destruct (wf_linked _ Hwf _ _ Hkey) as (e' & He' & _ & Hin & _).
  assert (e' = e) as -> by congruence.
  destruct (Hin Htemp) as [_ Hat]. by eapply list_elem_of_lookup_2.
Qed.

(** [SetExpiry] with a time after now: the cell of the key after the call. *)
Lemma SetExpiry_future_entry pkg key (x now : time.Time) t p e :
  wf t -> items t !! key = Some p -> elems t !! p = Some e ->
  time.IsZero x = false -> time.UnixNano now < time.UnixNano x ->
  time.UnixNano x <> ElementPermanent ->
  exists t' e',
    SetExpiry_in pkg key x now t = Ok (t', true) /\ wf t'
    /\ items t' = items t /\ stats t' = stats t
    /\ elems t' !! p = Some e'
    /\ Value e' = Value e /\ ExpiresAt e' = time.UnixNano x.
Proof.
  intros Hwf Hkey He Hzero Hfuture Hx.
  assert (exists h' m',
    SetExpiry_in pkg key x now t = Ok (with_heap h' m' t, true)
    /\ wf (with_heap h' m' t)
    /\ same_data (<[p := set_ExpiresAt (time.UnixNano x) e]> (elems t)) m')
    as (h' & m' & Hcall & Hwf' & Hs).
  { destruct (decide (ExpiresAt e = ElementPermanent)) as [Hperm|Htemp].
    - destruct (wf_linked _ Hwf _ _ Hkey) as (e0 & He0 & HK & _ & Hout).
      assert (e0 = e) as -> by congruence.
      destruct (push_entry_wf t key p (set_ExpiresAt (time.UnixNano x) e)
                  (onExpire t) (stats t) Hwf)
        as (h' & m2 & Hpush & Hwf'); [by apply Hout|by right| |done|done|].
      { intros k Hk. destruct (wf_linked _ Hwf _ _ Hk) as (e1 & He1 & HK1 & _).
        congruence. }
      exists h', m2. rewrite insert_id in Hwf' by done.
      split; [|split; [done|by eapply Push_same_data]].
      destruct pkg; simpl; unfold Temap.SetExpiry, Main.SetExpiry;
        rewrite Hkey, (deref_Ok _ _ _ He); simpl; rewrite Hzero;
        rewrite bool_decide_false by lia; rewrite bool_decide_true by done;
        rewrite (assign_Ok _ _ _ _ He); simpl; by rewrite Hpush.
    - destruct (fix_entry_wf t key p e (set_ExpiresAt (time.UnixNano x) e)
                  Hwf Hkey He Htemp)
        as (Hge & h' & m3 & Hfix & Hwf'); [done..|].
      destruct (remove_entry_spec t key p e Hwf Hkey He Htemp) as [Hrange _].
      exists h', m3. split; [|split; [done|by eapply Fix_same_data]].
      destruct pkg; simpl; unfold Temap.SetExpiry, Main.SetExpiry;
        rewrite Hkey, (deref_Ok _ _ _ He); simpl; rewrite Hzero;
        rewrite bool_decide_false by lia; rewrite bool_decide_false by done;
        rewrite (assign_Ok _ _ _ _ He); simpl;
        (erewrite deref_Ok by apply lookup_insert_eq);
        cbn [mbind result_bind];
        (rewrite bool_decide_true by (simpl; lia));
        by rewrite Hfix. }
  destruct (same_data_lookup _ _ p _ Hs (lookup_insert_eq _ _ _))
    as (e3 & He3 & _ & HV & HE).
  exists (with_heap h' m' t), e3. done.
Qed.

(** X6. [SetExpiry] on a present key of a well-formed map, in both
    packages, with a time that is not the zero time and whose [UnixNano] is
    above the [UnixNano] of now and is not the sentinel (the code compares
    the two [int64] values, which wrap outside the years 1678 to 2262): it
    returns true, the entry keeps its value, gets the new expiry and is in
    the heap, also when it was permanent before; the map and the counters
    are as before. *)
Theorem SetExpiry_future_reschedules pkg key (x now : time.Time) t p e :
  wf t -> items t !! key = Some p -> elems t !! p = Some e ->
  time.IsZero x = false -> time.UnixNano now < time.UnixNano x ->
  time.UnixNano x <> ElementPermanent ->
  exists t',
    SetExpiry_in pkg key x now t = Ok (t', true) /\ wf t'
    /\ Get key t' = Ok (t', (Some (Value e), time.UnixNano x, true))
    /\ (p ∈ expHeap t')
    /\ items t' = items t /\ stats t' = stats t.
Proof.
  intros Hwf Hkey He Hzero Hfuture Hx.
  destruct (SetExpiry_future_entry pkg key x now t p e Hwf Hkey He Hzero Hfuture Hx)
    as (t' & e' & Hcall & Hwf' & Hit & Hst & He' & HV & HE).
  exists t'. split; [done|]. split; [done|].
  assert (items t' !! key = Some p) as Hkey' by (by rewrite Hit).
  split. { rewrite (Get_at key t' p e') by done. by rewrite HV, HE. }
  split; [|done].
  apply (wf_temporary_in_heap t' key p e'); try done. by rewrite HE.
Qed.

(** X7. What a drain of the cleaner means for the interface: the keys whose
    entry is temporary and due are no longer found by [Get]; permanent
    entries and entries not yet due keep their value and expiry; the size
    drops by the number of popped entries and the expired counter is
    incremented once for each. *)
Theorem cleaner_pass_expires_due_keys (now : Z) t :
  wf t ->
  exists t' popped,
    drain now t = Ok (t', popped) /\ wf t'
    /\ (forall key e, entry t key = Some e ->
          ExpiresAt e <> ElementPermanent -> ExpiresAt e <= now ->
          Get key t' = Ok (t', (None, ElementDoesntExist, false)))
    /\ (forall key e, entry t key = Some e ->
          ExpiresAt e = ElementPermanent \/ now < ExpiresAt e ->
          Get key t' = Ok (t', (Some (Value e), ExpiresAt e, true)))
    /\ Size t' = Size t - Z.of_nat (length popped)
    /\ stats t' = Nat.iter (length popped) expired_incr (stats t).
Proof.
  intros Hwf. pose proof Hwf as [Hidx Hord Hlink Hlive].
  destruct (drain_spec now t Hidx Hord) as (t' & popped & Hdrain & Hpost).
  pose proof (drain_post_wf now t t' popped Hwf Hpost) as Hwf'.
  pose proof (drain_post_size now t t' popped Hwf Hpost) as Hsize.
  destruct (drain_post_items now t t' popped Hwf Hpost)
    as (Hnd & Hiff & Hgone & Hsub & Hkeep).
  destruct Hpost as (_ & _ & Hs & _ & _ & _ & _ & _ & _ & _ & _ & Hstats & _).
  exists t', popped. split; [done|]. split; [done|].
  assert (forall key e, entry t key = Some e ->
            exists p, items t !! key = Some p /\ elems t !! p = Some e) as Hentry.
  { intros key e. unfold entry. destruct (items t !! key) as [p|]; [|done].
    simpl. eauto. }
  split; [|split; [|split; [lia|done]]].
  - intros key e (p & Hkey & He)%Hentry Htemp Hdue.
    assert (p ∈ popped) as Hp.
    { apply Hiff. split; [by eapply wf_temporary_in_heap|].
      unfold expiry. by rewrite He. }
    destruct (Hgone p Hp) as (e' & He' & Hk & Hk').
    assert (e' = e) as -> by congruence.
    destruct (Hlink _ _ Hkey) as (e' & He'' & HK & _).
    assert (e' = e) as -> by congruence.
    apply Get_absent. by rewrite <- HK.
  - intros key e (p & Hkey & He)%Hentry Hstay.
    assert (p ∉ popped) as Hp.
    { intros [Hin Hdue]%Hiff. unfold expiry in Hdue. rewrite He in Hdue. simpl in Hdue.
      destruct Hstay as [Hperm|Hlate]; [|lia].
      destruct (Hlink _ _ Hkey) as (e' & He' & _ & _ & Hout).
      assert (e' = e) as -> by congruence. by apply Hout. }
    destruct (same_data_lookup _ _ _ _ Hs He) as (e' & He' & _ & HV & HE).
    rewrite (Get_at key t' p e'); [by rewrite HV, HE|by apply Hkeep|done].
Qed.
End api2.

(** ** The wake-up of the cleaner *)

Section wake.
Context {K V : Type} `{Countable K}.
Implicit Types (t : TimedMap K V) (m : cells K V) (h : expiryHeap) (p : ptr).

(** The entry with the strictly least expiry is at the root. *)
Lemma earliest_entry_is_root t key p e :
  wf t -> items t !! key = Some p -> elems t !! p = Some e ->
  ExpiresAt e <> ElementPermanent ->
  (forall k e', k <> key -> entry t k = Some e' ->
     ExpiresAt e' <> ElementPermanent -> ExpiresAt e < ExpiresAt e') ->
  signals_cleaner key t = true.
Proof.
  intros Hwf Hkey He Htemp Hleast. pose proof Hwf as [Hidx Hord Hlink Hlive].
  pose proof (wf_temporary_in_heap t key p e Hwf Hkey He Htemp) as Hin.
  unfold signals_cleaner.
  destruct (expHeap t) as [|r rest] eqn:Hh; [by apply elem_of_nil in Hin|].
  apply bool_decide_eq_true.
  destruct (Hlive r) as (er & Her & Hkr); [rewrite Hh; by left|].
  destruct (decide (Key er = key)) as [<-|Hne]; [done|].
  exfalso.
  assert (ExpiresAt er <> ElementPermanent) as Htr.
  { intros Hperm. destruct (Hlink _ _ Hkr) as (e0 & He0 & _ & _ & Hout).
    assert (e0 = er) as -> by congruence.
    apply (Hout Hperm). rewrite Hh. by left. }
  assert (ExpiresAt e < ExpiresAt er) as Hlt.
  { apply (Hleast (Key er)); [done| |done]. unfold entry. by rewrite Hkr. }
  pose proof (heap_ordered_min (r :: rest) (elems t) r rest p Hord eq_refl Hin)
    as Hmin.
  unfold expiry in Hmin. rewrite Her, He in Hmin. simpl in Hmin. lia.
Qed.

(** What [Get] finds for a key is its entry. *)
Lemma Get_entry t k e :
  entry t k = Some e -> snd <$> Get k t = Ok (Some (Value e), ExpiresAt e, true).
Proof.
  unfold entry, Get. destruct (items t !! k) as [p|]; [|done]. simpl.
  intros He. by rewrite (deref_Ok _ _ _ He).
Qed.

Lemma frame_entry_expiry t t' k e' :
  keys_recorded t -> snd <$> Get k t' = snd <$> Get k t ->
  entry t' k = Some e' ->
  exists e, entry t k = Some e /\ ExpiresAt e = ExpiresAt e'.
Proof.
  intros Hrec Hget He'. rewrite (Get_entry _ _ _ He') in Hget.
  unfold Get, entry in *. destruct (items t !! k) as [p|] eqn:Hk; [|done].
  apply Hrec in Hk. simpl. destruct (elems t !! p) as [e|] eqn:He; [|done].
  rewrite (deref_Ok _ _ _ He) in Hget. simpl in Hget.
  exists e. split; [done|]. congruence.
Qed.

(** X25. In package [main], a [SetTemporary] or [SetExpiry] call that gives
    a key an expiry strictly before that of every other temporary entry
    leaves the entry of the key at the root of the heap, so that the test
    at the end of the call holds and the call wakes the cleaner. *)
Theorem earlier_expiry_wakes_the_cleaner key value (x now : time.Time) t :
  wf t -> time.UnixNano x <> ElementPermanent ->
  (forall k e, k <> key -> entry t k = Some e ->
     ExpiresAt e <> ElementPermanent -> time.UnixNano x < ExpiresAt e) ->
  ((forall e, entry t key = Some e -> ExpiresAt e <> ElementPermanent) ->
   exists t', Main.SetTemporary key value x t = Ok t'
              /\ signals_cleaner key t' = true)
  /\ (is_Some (items t !! key) -> time.IsZero x = false ->
      time.UnixNano now < time.UnixNano x ->
      exists t', Main.SetExpiry key x now t = Ok (t', true)
                 /\ signals_cleaner key t' = true).
Proof.
  intros Hwf Hx Hleast. pose proof (wf_keys_recorded t Hwf) as Hrec. split.
  - intros Htemp0.
    destruct (SetTemporary_entry PkgMain key value x t Hwf Hx Htemp0)
      as (t' & p & e' & Hcall & Hwf' & Hit & _ & He' & _ & HE & _).
    exists t'. split; [done|].
    apply (earliest_entry_is_root t' key p e'); try done.
    + rewrite Hit. apply lookup_insert_eq.
    + by rewrite HE.
    + intros k e1 Hne He1 Htemp1. rewrite HE.
      destruct (frame_entry_expiry t t' k e1 Hrec) as (e0 & He0 & Heq); [|done|].
      { apply (step_frame PkgMain (OpSetTemporary key value x)); [done|done|].
        simpl. congruence. }
      rewrite <- Heq. apply (Hleast k e0); [done|done|congruence].
  - intros [p Hkey] Hzero Hfuture.
    destruct (wf_linked _ Hwf _ _ Hkey) as (e & He & _).
    destruct (SetExpiry_future_entry PkgMain key x now t p e Hwf Hkey He Hzero Hfuture Hx)
      as (t' & e' & Hcall & Hwf' & Hit & _ & He' & _ & HE).
    exists t'. split; [done|].
    apply (earliest_entry_is_root t' key p e'); try done.
    + by rewrite Hit.
    + by rewrite HE.
    + intros k e1 Hne He1 Htemp1. rewrite HE.
      destruct (frame_entry_expiry t t' k e1 Hrec) as (e0 & He0 & Heq); [|done|].
      { apply (step_frame PkgMain (OpSetExpiry key x now)).
        - done.
        - simpl. change (Main.SetExpiry key x now t) with (SetExpiry_in PkgMain key x now t).
          by rewrite Hcall.
        - simpl. congruence. }
      rewrite <- Heq. apply (Hleast k e0); [done|done|congruence].
Qed.
End wake.

(** ** Package [temap] and the invariant *)

Section temap_keeps_wf.
Context {K V : Type} `{Countable K}.
Implicit Types (t : TimedMap K V) (m : cells K V) (h : expiryHeap) (p : ptr).

Lemma Temap_SetPermanent_wf key value t :
  wf t -> (forall e, entry t key = Some e -> ExpiresAt e = ElementPermanent) ->
  exists t', Temap.SetPermanent key value t = Ok t' /\ wf t'.
Proof.
  intros Hwf Hperm. unfold Temap.SetPermanent.
  destruct (items t !! key) as [p|] eqn:Hkey.
  - destruct (wf_linked _ Hwf _ _ Hkey) as (e & He & _).
    assert (ExpiresAt e = ElementPermanent) as HE.
    { apply Hperm. unfold entry. by rewrite Hkey. }
    rewrite (assign_Ok _ _ _ _ He). simpl.
    erewrite assign_Ok by apply lookup_insert_eq. simpl.
    rewrite insert_insert_eq.
    assert (set_ExpiresAt ElementPermanent (set_Value value e) = set_Value value e) as ->.
    { unfold set_ExpiresAt, set_Value. simpl. by rewrite HE. }
    eexists. split; [done|]. by apply wf_set_Value.
  - unfold new_element. eexists. split; [done|]. by apply new_permanent_wf.
Qed.

Lemma Temap_Remove_wf key t :
  wf t -> exists t', Temap.Remove key t = Ok t' /\ wf t'.
Proof.
  intros Hwf. unfold Temap.Remove.
  destruct (items t !! key) as [p|] eqn:Hkey; [|eauto].
  destruct (wf_linked _ Hwf _ _ Hkey) as (e & He & _).
  rewrite (deref_Ok _ _ _ He). simpl.
  destruct (expired_branch_spec t key p e Hwf Hkey He) as (h' & m' & Hbr & _ & Hwf').
  rewrite (Remove_guard t key p e Hwf Hkey He), Hbr. simpl. eauto.
Qed.

Lemma MakePermanent_wf pkg key t :
  wf t -> exists t' b, MakePermanent_in pkg key t = Ok (t', b) /\ wf t'.
Proof.
  intros Hwf. destruct (items t !! key) as [p|] eqn:Hkey.
  - destruct (wf_linked _ Hwf _ _ Hkey) as (e & He & _).
    destruct (decide (ExpiresAt e = ElementPermanent)) as [Hperm|Htemp].
    + rewrite (MakePermanent_already pkg key t p e) by done. eauto.
    + destruct (MakePermanent_temporary pkg key t p e) as (t' & -> & _ & Hwf');
        try done. eauto.
  - rewrite (MakePermanent_absent pkg key t) by done. eauto.
Qed.

(** With the zero time [SetExpiry] of package [temap] is its
    [MakePermanent]. *)
Lemma Temap_SetExpiry_zero key (x now : time.Time) t :
  time.IsZero x = true -> Temap.SetExpiry key x now t = Temap.MakePermanent key t.
Proof.
  intros Hzero. unfold Temap.SetExpiry, Temap.MakePermanent.
  destruct (items t !! key) as [p|]; [|done].
  destruct (deref (elems t) p) as [e| |]; simpl; [|done|done].
  by rewrite Hzero.
Qed.

Lemma Temap_SetExpiry_wf key (x now : time.Time) t :
  wf t ->
  (time.IsZero x = true \/ time.UnixNano x <> ElementPermanent
   \/ time.UnixNano x <= time.UnixNano now) ->
  exists t' b, Temap.SetExpiry key x now t = Ok (t', b) /\ wf t'.
Proof.
  intros Hwf Hx.
  destruct (time.IsZero x) eqn:Hzero.
  { rewrite Temap_SetExpiry_zero by done. apply (MakePermanent_wf PkgTemap), Hwf. }
  destruct (items t !! key) as [p|] eqn:Hkey.
  - destruct (wf_linked _ Hwf _ _ Hkey) as (e & He & _).
    destruct (decide (time.UnixNano x <= time.UnixNano now)) as [Hpast|Hfuture].
    + destruct (SetExpiry_expired PkgTemap key x now t p e) as (t' & Hcall & _ & Hwf');
        try done. simpl in Hcall. eauto.
    + destruct (SetExpiry_future_entry PkgTemap key x now t p e)
        as (t' & e' & Hcall & Hwf' & _); try done; [lia| |].
      { destruct Hx as [Hx|[Hx|Hx]]; [done|done|lia]. }
      simpl in Hcall. eauto.
  - rewrite (SetExpiry_absent PkgTemap key x now t Hkey : Temap.SetExpiry _ _ _ _ = _).
    eauto.
Qed.

(** X26. In package [temap], a call or a cleaner pass on a well-formed map
    returns without panic and keeps the map well-formed, heap and store
    consistent, as long as [SetTemporary] is not called on a permanent
    entry, [SetPermanent] not on a temporary one, and no expiry is the
    sentinel. *)
Theorem Temap_keeps_wf_when_kinds_are_kept (a : action K V) t :
  wf t -> no_sentinel_action a -> keeps_kind a t ->
  exists t', act PkgTemap a t = Ok t' /\ wf t' /\ heap_store_consistent t'.
Proof.
  intros Hwf Hsane Hkind.
  assert (exists t', act PkgTemap a t = Ok t' /\ wf t') as (t' & Hact & Hwf').
  { destruct a as [[k v x|k v|k v ttl now|k| |k|k x now|k]|now1 now2]; simpl in *.
    - destruct (SetTemporary_entry PkgTemap k v x t Hwf Hsane Hkind)
        as (t' & p & e' & Hcall & Hwf' & _). simpl in Hcall. eauto.
    - by apply Temap_SetPermanent_wf.
    - unfold Temap.SetWithTTL. case_bool_decide as Httl.
      + apply Temap_SetPermanent_wf; [done|]. intros e He. by apply (Hkind e He).
      + destruct (SetTemporary_entry PkgTemap k v (time.Add now ttl) t Hwf)
          as (t' & p & e' & Hcall & Hwf' & _).
        * destruct Hsane; [lia|done].
        * intros e He Hperm. by apply (Hkind e He) in Hperm.
        * simpl in Hcall. eauto.
    - by apply Temap_Remove_wf.
    - apply RemoveAll_wf.
    - destruct (MakePermanent_wf PkgTemap k t Hwf) as (t' & b & Hcall & Hwf').
      simpl in Hcall. rewrite Hcall. simpl. eauto.
    - destruct (Temap_SetExpiry_wf k x now t Hwf Hsane) as (t' & b & -> & Hwf').
      simpl. eauto.
    - unfold Get. destruct (items t !! k) as [p|] eqn:Hkey; [|simpl; eauto].
      destruct (wf_linked _ Hwf _ _ Hkey) as (e & He & _).
      rewrite (deref_Ok _ _ _ He). simpl. eauto.
    - destruct (cleaner_section_wf now1 now2 t Hwf) as (t' & fin & -> & Hwf').
      simpl. eauto. }
  exists t'. split; [done|]. split; [done|]. by apply wf_consistent.
Qed.
End temap_keeps_wf.

(** ** The progress of the cleaner *)

Section progress.
Context {K V : Type} `{Countable K}.
Implicit Types (t : TimedMap K V) (m : cells K V) (h : expiryHeap) (p : ptr).

Lemma Until_Unix_nonpos (x now : Z) :
  time.Until (time.Unix 0 x) now <= 0 <-> x <= now.
Proof. unfold time.Until, time.Sub, time.Unix. lia. Qed.

Lemma UnixNano_in_range (x : Z) : - 2 ^ 63 <= x < 2 ^ 63 -> time.UnixNano x = x.
Proof.
  intros Hx. unfold time.UnixNano, wrap_int64.
  rewrite Z.mod_small by lia. lia.
Qed.

(** X8. One critical section of the cleaner on a well-formed map, with a
    clock that does not run backwards: with an empty heap nothing changes
    and no entry is temporary; otherwise either the cleaner waits, for a
    positive duration, until the earliest expiry of all temporary entries,
    and changes nothing, or it drains at least one entry. *)
Theorem cleaner_section_makes_progress (now1 now2 : time.Time) t :
  wf t -> now1 <= now2 -> - 2 ^ 63 <= now2 < 2 ^ 63 ->
  exists t' fin,
    cleaner_section now1 now2 t = Ok (t', fin) /\ wf t'
    /\ match fin with
       | HeapEmpty =>
           t' = t
           /\ forall key e, entry t key = Some e -> ExpiresAt e = ElementPermanent
       | Wait d =>
           t' = t /\ 0 < d
           /\ exists root e,
                head (expHeap t) = Some root /\ elems t !! root = Some e
                /\ d = time.Until (time.Unix 0 (ExpiresAt e)) now1
                /\ now1 < ExpiresAt e
                /\ forall key e', entry t key = Some e' ->
                     ExpiresAt e' <> ElementPermanent -> ExpiresAt e <= ExpiresAt e'
       | Drained ps => ps <> [] /\ Size t' < Size t
       end.
Proof.
  intros Hwf Hclock Hrange. pose proof Hwf as [Hidx Hord Hlink Hlive].
  assert (forall key e, entry t key = Some e ->
            exists p, items t !! key = Some p /\ elems t !! p = Some e) as Hentry.
  { intros key e. unfold entry. destruct (items t !! key) as [p|]; [|done].
    simpl. eauto. }
  destruct (drain_spec (time.UnixNano now2) t Hidx Hord) as (t' & ps & Hd & Hpost).
  unfold cleaner_section.
  destruct (expHeap t) as [|root rest] eqn:Hh.
  - exists t, HeapEmpty. split; [done|]. split; [done|]. split; [done|].
    intros key e (p & Hkey & He)%Hentry.
    destruct (decide (ExpiresAt e = ElementPermanent)) as [|Htemp]; [done|].
    pose proof (wf_temporary_in_heap t key p e Hwf Hkey He Htemp) as Hin.
    rewrite Hh in Hin. by apply elem_of_nil in Hin.
  - destruct (Hidx 0%nat root) as (e & He & _); [done|].
    rewrite (deref_Ok _ _ _ He). simpl.
    case_bool_decide as Hwait.
    + rewrite Hd. simpl. exists t', (Drained ps). split; [done|].
      split; [by eapply drain_post_wf|].
      pose proof (drain_post_size _ _ _ _ Hwf Hpost) as Hsize.
      destruct Hpost as (_ & _ & _ & _ & Hperm & _ & Hlate & _).
      assert (ps <> []) as Hne.
      { intros ->. simpl in Hperm. rewrite Forall_forall in Hlate.
        assert (root ∈ expHeap t') as Hin by (rewrite <- Hperm, Hh; by left).
        specialize (Hlate _ Hin). unfold expiry in Hlate. rewrite He in Hlate.
        simpl in Hlate. apply (proj1 (Until_Unix_nonpos _ _)) in Hwait.
        rewrite UnixNano_in_range in Hlate by done. lia. }
      split; [done|]. destruct ps; [done|]. simpl in Hsize. lia.
    + exists t, (Wait (time.Until (time.Unix 0 (ExpiresAt e)) now1)).
      split; [done|]. split; [done|]. split; [done|]. split; [lia|].
      exists root, e. split; [done|]. split; [done|]. split; [done|].
      split. { rewrite Until_Unix_nonpos in Hwait. lia. }
      intros key e' (p & Hkey & He')%Hentry Htemp.
      pose proof (wf_temporary_in_heap t key p e' Hwf Hkey He' Htemp) as Hin.
      rewrite Hh in Hin.
      pose proof (heap_ordered_min (root :: rest) (elems t) root rest p
                    Hord eq_refl Hin) as Hmin.
      unfold expiry in Hmin. by rewrite He, He' in Hmin.
Qed.
End progress.

(** ** [container/heap] over [expiryHeap] *)

Section heap_contract.
Context {K V : Type}.
Implicit Types (e : element K V) (m : cells K V) (h : expiryHeap) (p : ptr).

Lemma method_Pop_index h m h' m' x :
  ExpiryHeap.Pop h m = Ok (h', m', x) ->
  exists e, m' !! x = Some e /\ index e = -1.
Proof.
  unfold ExpiryHeap.Pop. intros (el & _ & Hr)%bind_Ok_inv.
  apply bind_Ok_inv in Hr as (m1 & Ha & [= <- <- <-]).
  unfold assign in Ha. apply bind_Ok_inv in Ha as (e & _ & [= <-]).
  eexists. by rewrite lookup_insert_eq.
Qed.

Lemma Pop_index h m h' m' x :
  heap.Pop h m = Ok (h', m', x) -> exists e, m' !! x = Some e /\ index e = -1.
Proof.
  unfold heap.Pop.
  intros ([h1 m1] & _ & ([[h2 m2] b] & _ & Hp)%bind_Ok_inv)%bind_Ok_inv.
  by eapply method_Pop_index.
Qed.

Lemma Remove_index h m i h' m' x :
  heap.Remove h m i = Ok (h', m', x) -> exists e, m' !! x = Some e /\ index e = -1.
Proof.
  unfold heap.Remove. intros ([h2 m2] & _ & Hp)%bind_Ok_inv.
  by eapply method_Pop_index.
Qed.

(** X9. [heap.Push] over [expiryHeap]: it adds the element, and the heap
    stays ordered with every element recording its position; keys, values
    and expiries are untouched. *)
Theorem heap_Push_keeps_the_heap h m x e :
  heap_indexed h m -> heap_ordered h m -> m !! x = Some e -> x ∉ h ->
  exists h' m',
    heap.Push h m x = Ok (h', m')
    /\ h' ≡ₚ x :: h
    /\ heap_indexed h' m' /\ heap_ordered h' m' /\ same_data m m'.
Proof.
  intros Hidx Hord He Hx.
  destruct (Push_spec h m x e Hidx He Hx)
    as (h' & m' & Hpush & Hidx' & Hs & _ & Hperm & Hord').
  exists h', m'. split; [done|]. split; [done|]. split; [done|].
  split; [by apply Hord'|done].
Qed.

(** X10. [heap.Pop] over [expiryHeap] on a non-empty heap: it returns the
    root, whose expiry is the least of the heap, records position -1 in
    it, and the rest stays an ordered heap with recorded positions. *)
Theorem heap_Pop_takes_the_minimum h m :
  heap_indexed h m -> heap_ordered h m -> h <> [] ->
  exists h' m' x ex,
    heap.Pop h m = Ok (h', m', x)
    /\ head h = Some x
    /\ (forall q, q ∈ h -> expiry m x <= expiry m q)
    /\ h ≡ₚ x :: h' /\ (x ∉ h')
    /\ m' !! x = Some ex /\ index ex = -1
    /\ heap_indexed h' m' /\ heap_ordered h' m' /\ same_data m m'.
Proof.
  intros Hidx Hord Hne. destruct h as [|p0 rest]; [done|].
  destruct (Pop_spec (p0 :: rest) m p0 rest Hidx Hord eq_refl)
    as (h' & m' & Hpop & Hidx' & Hord' & Hs & _ & Hperm & Hnotin).
  destruct (Pop_index _ _ _ _ _ Hpop) as (ex & Hex & Hi).
  exists h', m', p0, ex. split; [done|]. split; [done|]. split; [|repeat (split; [done|]); done].
  intros q Hq. by eapply heap_ordered_min.
Qed.

(** X11. [heap.Remove] over [expiryHeap] at a position of the heap: it
    takes out exactly the element at that position, records position -1
    in it, and the rest stays an ordered heap with recorded positions. *)
Theorem heap_Remove_takes_the_position h m (i : nat) p :
  heap_indexed h m -> heap_ordered h m -> h !! i = Some p ->
  exists h' m' ep,
    heap.Remove h m (Z.of_nat i) = Ok (h', m', p)
    /\ h ≡ₚ p :: h' /\ (p ∉ h')
    /\ m' !! p = Some ep /\ index ep = -1
    /\ heap_indexed h' m' /\ heap_ordered h' m' /\ same_data m m'.
Proof.
  intros Hidx Hord Hi.
  destruct (Remove_spec h m i p Hidx Hi)
    as (h' & m' & Hrm & Hidx' & Hs & _ & Hperm & Hnotin).
  destruct (Remove_index _ _ _ _ _ _ Hrm) as (ep & Hep & Hip).
  exists h', m', ep. split; [done|]. split; [done|]. split; [done|].
  split; [done|]. split; [done|]. split; [done|]. split; [|done].
  exact (Remove_ordered _ _ _ _ _ _ _ Hidx Hord Hi Hrm).
Qed.

(** X12. [heap.Fix] over [expiryHeap]: after the expiry of the element at
    a position is changed to any value, [heap.Fix] at that position makes
    the heap ordered again, with the same elements and recorded
    positions. *)
Theorem heap_Fix_restores_the_order h m (i : nat) p e (x : Z) :
  heap_indexed h m -> heap_ordered h m -> h !! i = Some p -> m !! p = Some e ->
  exists h' m',
    heap.Fix h (<[p := set_ExpiresAt x e]> m) (Z.of_nat i) = Ok (h', m')
    /\ h' ≡ₚ h
    /\ heap_indexed h' m' /\ heap_ordered h' m'
    /\ same_data (<[p := set_ExpiresAt x e]> m) m'.
Proof.
  intros Hidx Hord Hi He.
  assert (heap_indexed h (<[p := set_ExpiresAt x e]> m)) as Hidx2.
  { intros k q Hq. destruct (Hidx _ _ Hq) as (eq & Heq & Hk).
    destruct (decide (q = p)) as [->|Hne].
    - rewrite lookup_insert_eq. eexists. split; [done|]. simpl. congruence.
    - rewrite lookup_insert_ne by done. eauto. }
  destruct (Fix_spec h _ i p Hidx2 Hi) as (h' & m' & Hfix & Hst & Hord').
  destruct Hst as (Hidx' & Hs & _ & Hperm).
  exists h', m'. split; [done|]. split; [done|]. split; [done|]. split; [|done].
  apply Hord'. apply (hole_pre_update h m _ i p); try done.
  intros q Hq. unfold expiry. by rewrite lookup_insert_ne.
Qed.

(** X13. Outside the range of the heap, [heap.Remove] and [Swap] panic
    (index out of range), and so do [heap.Pop] and [Pop] on an empty heap:
    the tests on [el.index] before [heap.Remove] are needed. *)
Theorem heap_out_of_range_panics h m (i : Z) :
  ~ (0 <= i < Z.of_nat (length h)) ->
  heap.Remove h m i = Panic
  /\ ExpiryHeap.Swap h m i (ExpiryHeap.Len h - 1) = Panic
  /\ (h = [] -> heap.Pop h m = Panic /\ ExpiryHeap.Pop h m = Panic).
Proof.
  intros Hi.
  assert (at_index h i = Panic) as Hat.
  { unfold at_index. by rewrite bool_decide_false. }
  assert (ExpiryHeap.Swap h m i (ExpiryHeap.Len h - 1) = Panic) as Hswap.
  { unfold ExpiryHeap.Swap. by rewrite Hat. }
  split; [|split; [done|]].
  - unfold heap.Remove. case_bool_decide as Hn.
    + by rewrite Hswap.
    + simpl. unfold ExpiryHeap.Pop.
      rewrite Hn. by rewrite Hat.
  - intros ->. split; reflexivity.
Qed.
End heap_contract.

(** ** The delivery of expired entries *)

Section delivery.
Context {K V : Type} `{Countable K}.
Implicit Types (t : TimedMap K V) (m : cells K V) (h : expiryHeap) (p : ptr).

Lemma calls_app (evs1 evs2 : list (event K V)) :
  calls (evs1 ++ evs2) = calls evs1 ++ calls evs2.
Proof. apply omap_app. Qed.

Lemma worker_receive_spec (f : K -> V -> unit) m queue :
  (forall p, p ∈ queue -> is_Some (m !! p)) ->
  exists q1 evs1,
    MainCleaner.worker_receive (Some f) m queue = Ok (q1, evs1)
    /\ omap (payload m) queue = calls evs1 ++ omap (payload m) q1
    /\ (length q1 <= length queue)%nat
    /\ (forall p, p ∈ q1 -> p ∈ queue).
Proof.
  intros Hall. destruct queue as [|el q]; simpl.
  - by exists [], [].
  - destruct (Hall el) as [e He]; [by left|].
    rewrite (deref_Ok _ _ _ He). simpl. exists q, [EvCall (Key e) (Value e)].
    split; [done|]. split.
    + unfold payload at 1. rewrite He. done.
    + split; [lia|]. intros p Hp. by right.
Qed.

Lemma workers_receive_spec (f : K -> V -> unit) m k : forall queue,
  (forall p, p ∈ queue -> is_Some (m !! p)) ->
  exists q1 evs1,
    MainCleaner.workers_receive k (Some f) m queue = Ok (q1, evs1)
    /\ omap (payload m) queue = calls evs1 ++ omap (payload m) q1
    /\ (length q1 <= length queue)%nat
    /\ (forall p, p ∈ q1 -> p ∈ queue).
Proof.
  induction k as [|k IH]; intros queue Hall; simpl.
  - by exists queue, [].
  - destruct (worker_receive_spec f m queue Hall) as (q1 & evs1 & -> & Heq1 & Hl1 & Hs1).
    simpl.
    destruct (IH q1) as (q2 & evs2 & -> & Heq2 & Hl2 & Hs2); [by auto|].
    simpl. exists q2, (evs1 ++ evs2).
    split; [done|]. split.
    + by rewrite calls_app, Heq1, Heq2, app_assoc.
    + split; [lia|auto].
Qed.

(** The dispatch loop with a callback, on the open queue. *)
Lemma Main_dispatch_open (f : K -> V -> unit) m ps :
  forall sched queue,
  (forall p, p ∈ queue ++ ps -> is_Some (m !! p)) ->
  (length queue <= MainCleaner.queue_capacity)%nat ->
  exists queue' evs,
    MainCleaner.dispatch (Some f) m sched ChanOpen queue ps = Ok (queue', evs)
    /\ (length queue' <= MainCleaner.queue_capacity)%nat
    /\ omap (payload m) (queue ++ ps) ≡ₚ calls evs ++ omap (payload m) queue'
    /\ length (omap (payload m) (queue ++ ps)) = length (queue ++ ps).
Proof.
  assert (forall l : list ptr, (forall p, p ∈ l -> is_Some (m !! p)) ->
            length (omap (payload m) l) = length l) as Hlen.
  { induction l as [|p l IH]; intros Hall; [done|]. simpl.
    destruct (Hall p) as [e He]; [by left|].
    unfold payload at 1. rewrite He. simpl. f_equal. apply IH.
    intros q Hq. apply Hall. by right. }
  induction ps as [|el rest IH]; intros sched queue Hall Hcap; simpl.
  - exists queue, []. rewrite app_nil_r. split; [done|]. split; [done|].
    split; [done|]. apply Hlen. intros p Hp. apply Hall. by rewrite app_nil_r.
  - destruct (workers_receive_spec f m (hd 0%nat sched) queue)
      as (q1 & evs1 & -> & Heq1 & Hl1 & Hs1).
    { intros p Hp. apply Hall, elem_of_app. by left. }
    simpl. destruct (Hall el) as [e He]; [apply elem_of_app; right; by left|].
    assert (payload m el = Some (Key e, Value e)) as Hpay
      by (unfold payload; by rewrite He).
    case_bool_decide as Hroom.
    + destruct (IH (tl sched) (q1 ++ [el])) as (q2 & evs2 & -> & Hl2 & Hperm2 & _).
      { intros p [[Hp| ->%list_elem_of_singleton]%elem_of_app|Hp]%elem_of_app.
        - apply Hall, elem_of_app. left. by apply Hs1.
        - by eexists.
        - apply Hall, elem_of_app. right. by right. }
      { rewrite length_app. simpl. lia. }
      simpl. exists q2, (evs1 ++ EvSend el :: evs2).
      split; [done|]. split; [done|]. split; [|by apply Hlen].
      rewrite calls_app. simpl. fold (calls evs2).
      rewrite <- app_assoc, <- Hperm2.
      rewrite !omap_app. simpl. rewrite Hpay, Heq1.
      rewrite <- !app_assoc. done.
    + rewrite (deref_Ok _ _ _ He). simpl.
      destruct (IH (tl sched) q1) as (q2 & evs2 & -> & Hl2 & Hperm2 & _).
      { intros p [Hp|Hp]%elem_of_app.
        - apply Hall, elem_of_app. left. by apply Hs1.
        - apply Hall, elem_of_app. right. by right. }
      { lia. }
      simpl. exists q2, (evs1 ++ EvGo (Key e) (Value e) :: evs2).
      split; [done|]. split; [done|]. split; [|by apply Hlen].
      rewrite calls_app. simpl. fold (calls evs2).
      rewrite !omap_app. simpl. rewrite Hpay, Heq1.
      rewrite <- !app_assoc. f_equiv.
      rewrite omap_app in Hperm2.
      rewrite <- Permutation_middle. simpl. f_equiv. exact Hperm2.
Qed.

(** X14. The dispatch loop of package [main] with a callback. While
    [expireQueue] is open: whatever the workers take in between, it never
    panics, the queue ends within its capacity, and every element that was
    queued or expired is either called (by a worker or a new goroutine) or
    still queued, once. Once [expireQueue] is closed, the first send
    panics. *)
Theorem Main_dispatch_loses_no_entry (f : K -> V -> unit) m ps sched queue :
  (forall p, p ∈ queue ++ ps -> is_Some (m !! p)) ->
  (length queue <= MainCleaner.queue_capacity)%nat ->
  (exists queue' evs,
     MainCleaner.dispatch (Some f) m sched ChanOpen queue ps = Ok (queue', evs)
     /\ (length queue' <= MainCleaner.queue_capacity)%nat
     /\ omap (payload m) (queue ++ ps) ≡ₚ calls evs ++ omap (payload m) queue'
     /\ length (omap (payload m) (queue ++ ps)) = length (queue ++ ps))
  /\ (ps <> [] -> MainCleaner.dispatch (Some f) m sched ChanClosed queue ps = Panic).
Proof.
  intros Hall Hcap. split; [by apply Main_dispatch_open|].
  destruct ps as [|el rest]; [done|]. intros _. simpl.
  destruct (workers_receive_spec f m (hd 0%nat sched) queue)
    as (q1 & evs1 & -> & _).
  { intros p Hp. apply Hall, elem_of_app. by left. }
  done.
Qed.
End delivery.

Section delivery2.
Context {K V : Type} `{Countable K}.
Implicit Types (t : TimedMap K V) (m : cells K V) (h : expiryHeap) (p : ptr).

Lemma workers_receive_nil m k : forall queue,
  exists q1,
    MainCleaner.workers_receive (K:=K) (V:=V) k None m queue = Ok (q1, [])
    /\ (length q1 <= length queue)%nat.
Proof.
  induction k as [|k IH]; intros queue; simpl.
  - by exists queue.
  - destruct queue as [|el q]; simpl.
    + destruct (IH []) as (q1 & -> & Hl). simpl. by exists q1.
    + destruct (IH q) as (q1 & -> & Hl). simpl. exists q1. split; [done|lia].
Qed.

(** The dispatch loop with a nil callback, on the open queue with room. *)
Lemma Main_dispatch_nil_open m ps : forall sched queue,
  (length queue + length ps <= MainCleaner.queue_capacity)%nat ->
  exists queue',
    MainCleaner.dispatch (K:=K) (V:=V) None m sched ChanOpen queue ps
    = Ok (queue', EvSend <$> ps)
    /\ (length queue' <= MainCleaner.queue_capacity)%nat.
Proof.
  induction ps as [|el rest IH]; intros sched queue Hroom; simpl in *.
  - exists queue. split; [done|lia].
  - destruct (workers_receive_nil m (hd 0%nat sched) queue) as (q1 & -> & Hl1).
    simpl. rewrite bool_decide_true by lia.
    destruct (IH (tl sched) (q1 ++ [el])) as (q2 & -> & Hl2).
    { rewrite length_app. simpl. lia. }
    simpl. by exists q2.
Qed.

(** X15. The dispatch loop of package [main] with a nil callback. While
    [expireQueue] is open and has room for the expired elements, every
    element is sent to the queue, nothing panics and nothing is called.
    Once [expireQueue] is closed, the first send panics. *)
Theorem Main_dispatch_nil_with_room m ps sched queue :
  (length queue + length ps <= MainCleaner.queue_capacity)%nat ->
  (exists queue',
     MainCleaner.dispatch (K:=K) (V:=V) None m sched ChanOpen queue ps
     = Ok (queue', EvSend <$> ps)
     /\ (length queue' <= MainCleaner.queue_capacity)%nat)
  /\ (ps <> [] ->
        MainCleaner.dispatch (K:=K) (V:=V) None m sched ChanClosed queue ps = Panic).
Proof.
  intros Hroom. split; [by apply Main_dispatch_nil_open|].
  destruct ps as [|el rest]; [done|]. intros _. simpl.
  by destruct (workers_receive_nil m (hd 0%nat sched) queue) as (q1 & -> & _).
Qed.

Lemma Temap_dispatch_spec cb m ps :
  (forall p, p ∈ ps -> is_Some (m !! p)) ->
  exists devs,
    TemapCleaner.dispatch cb m ps = Ok devs
    /\ (cb = None -> devs = [])
    /\ (is_Some cb ->
          Forall2 (fun p ev => exists e : element K V,
                     m !! p = Some e /\ ev = EvGo (Key e) (Value e)) ps devs).
Proof.
  induction ps as [|el rest IH]; intros Hall; simpl.
  - exists []. split; [done|]. split; [done|]. by constructor.
  - destruct IH as (devs & Hd & Hnil & Hsome).
    { intros p Hp. apply Hall. by right. }
    destruct cb as [f|].
    + destruct (Hall el) as [e He]; [by left|].
      rewrite (deref_Ok _ _ _ He). simpl. rewrite Hd. simpl.
      eexists. split; [done|]. split; [done|]. intros _.
      constructor; [by exists e|by apply Hsome].
    + exists devs. split; [done|]. split; [done|]. by intros [? ?].
Qed.

(** X16. One iteration of the cleaner of package [temap] on a well-formed
    map never panics; when it drains, it starts, after [Unlock], one
    goroutine for each popped entry, in the order of the pops, with the key
    and value of the entry, and none with a nil callback. *)
Theorem Temap_cleaner_calls_each_expired_entry (now1 now2 : time.Time) t :
  wf t ->
  exists t' evs fin,
    TemapCleaner.cleaner_iteration now1 now2 t = Ok (t', evs, fin)
    /\ wf t'
    /\ match fin with
       | Drained ps =>
           exists devs,
             evs = [EvLock] ++ (EvPop <$> ps) ++ [EvUnlock] ++ devs
             /\ (onExpire t = None -> devs = [])
             /\ (is_Some (onExpire t) ->
                   Forall2 (fun p ev => exists e,
                              elems t !! p = Some e /\ ev = EvGo (Key e) (Value e))
                     ps devs)
       | _ => t' = t /\ evs = [EvLock; EvUnlock]
       end.
Proof.
  intros Hwf.
  destruct (cleaner_section_wf now1 now2 t Hwf) as (t' & fin & Hsec & Hwf').
  unfold TemapCleaner.cleaner_iteration. rewrite Hsec. simpl.
  destruct fin as [|ps|d].
  - eexists _, _, _. split; [done|]. split; [done|]. split; [|done].
    unfold cleaner_section in Hsec. revert Hsec.
    destruct (expHeap t); [by intros [= <-]|].
    intros (e & _ & Hr)%bind_Ok_inv. case_bool_decide; [|by simplify_eq].
    by apply bind_Ok_inv in Hr as ([t2 ps] & _ & [= _ ?]).
  - pose proof (cleaner_section_drained _ _ _ _ _ Hsec) as Hd.
    pose proof Hwf as [Hidx Hord _ _].
    destruct (drain_spec (time.UnixNano now2) t Hidx Hord) as (t2 & ps2 & Hd2 & Hpost).
    rewrite Hd in Hd2. injection Hd2 as <- <-.
    destruct Hpost as (_ & _ & Hs & _ & Hperm & _ & _ & _ & _ & _ & _ & _ & Hcb).
    assert (forall p, p ∈ ps -> exists e, elems t !! p = Some e) as Halloc.
    { intros p Hp.
      assert (p ∈ expHeap t) as Hin by (rewrite Hperm; apply elem_of_app; by left).
      apply list_elem_of_lookup in Hin as [i Hi].
      destruct (Hidx _ _ Hi) as (e & He & _). by exists e. }
    destruct (Temap_dispatch_spec (onExpire t') (elems t') ps)
      as (devs & -> & Hnil & Hsome).
    { intros p Hp. destruct (Halloc p Hp) as [e He].
      destruct (same_data_lookup _ _ _ _ Hs He) as (e' & He' & _). by exists e'. }
    simpl. eexists _, _, _. split; [done|]. split; [done|].
    exists devs. split; [done|]. rewrite <- Hcb. split; [done|].
    intros Hsome'. eapply Forall2_impl; [by apply Hsome|].
    intros p ev (e' & He' & ->).
    destruct (same_data_lookup _ _ _ _ (same_data_sym _ _ Hs) He')
      as (e & He & HK & HV & _).
    exists e. split; [done|]. by rewrite HK, HV.
  - eexists _, _, _. split; [done|]. split; [done|]. split; [|done].
    unfold cleaner_section in Hsec. revert Hsec.
    destruct (expHeap t); [done|].
    intros (e & _ & Hr)%bind_Ok_inv. case_bool_decide; [|by simplify_eq].
    by apply bind_Ok_inv in Hr as ([t2 ps] & _ & [= _ ?]).
Qed.
End delivery2.

(** ** [ToMap] *)

Section to_map.
Context {K V : Type} `{Countable K}.
Implicit Types (t : TimedMap K V) (m : cells K V) (h : expiryHeap) (p : ptr).

Lemma ToMap_fold (m : cells K V) (it : gmap K ptr) :
  (forall k p, it !! k = Some p -> is_Some (m !! p)) ->
  exists out,
    map_fold (fun k el (out : result (gmap K V)) =>
                out ← out; e ← deref m el; Ok (<[k := Value e]> out))
      (Ok ∅) it = Ok out
    /\ (forall key, out !! key = (it !! key ≫= fun p => Value <$> m !! p))
    /\ dom out = dom it.
Proof.
  apply (map_fold_weak_ind (fun r it =>
    (forall k p, it !! k = Some p -> is_Some (m !! p)) ->
    exists out, r = Ok out
      /\ (forall key, out !! key = (it !! key ≫= fun p => Value <$> m !! p))
      /\ dom out = dom it)).
  - intros _. exists ∅. split; [done|]. split.
    + intros key. by rewrite !lookup_empty.
    + by rewrite !dom_empty_L.
  - intros k p it' r Hk IH Hall.
    destruct IH as (out & -> & Hout & Hdom).
    { intros k' p' Hk'. apply (Hall k' p'). rewrite lookup_insert_ne; [done|].
      intros <-. congruence. }
    destruct (Hall k p) as [e He]; [apply lookup_insert_eq|].
    simpl. rewrite (deref_Ok _ _ _ He). simpl.
    eexists. split; [done|]. split.
    + intros key. destruct (decide (key = k)) as [->|Hne].
      * rewrite !lookup_insert_eq. simpl. by rewrite He.
      * rewrite !lookup_insert_ne by done. apply Hout.
    + rewrite !dom_insert_L. by rewrite Hdom.
Qed.

(** X17. In every state that calls and cleaner passes reach from a new
    map, [ToMap] returns, without panic, a map with the keys and values
    that [Get] finds, and as many entries as [Size] counts. *)
Theorem ToMap_agrees_with_Get (acts : list (action K V)) cb t :
  run_actions PkgMain acts (New cb) = Ok t ->
  exists out,
    ToMap t = Ok out
    /\ (forall key, out !! key = Value <$> entry t key)
    /\ (forall key, exists x,
          Get key t = Ok (t, (out !! key, x, bool_decide (is_Some (out !! key)))))
    /\ Z.of_nat (size out) = Size t.
Proof.
  intros Hrun.
  assert (keys_recorded t) as Hrec.
  { eapply run_keys_recorded; [|exact Hrun]. apply New_keys_recorded. }
  destruct (ToMap_fold (elems t) (items t)) as (out & Hfold & Hout & Hdom).
  { intros k p Hk. apply Hrec in Hk. destruct (elems t !! p); [by eexists|done]. }
  exists out. split; [exact Hfold|].
  assert (forall key, out !! key = Value <$> entry t key) as Hentry.
  { intros key. rewrite Hout. unfold entry.
    destruct (items t !! key) as [p|]; simpl; done. }
  split; [done|]. split.
  - intros key. rewrite Hentry. unfold Get, entry.
    destruct (items t !! key) as [p|] eqn:Hk; simpl; [|by eexists].
    apply Hrec in Hk. destruct (elems t !! p) as [e|] eqn:He; [|done].
    rewrite (deref_Ok _ _ _ He). simpl. by eexists.
  - unfold Size. by rewrite <- !size_dom, Hdom.
Qed.
End to_map.

(** ** Starting and stopping the cleaner *)

Section control_proofs.


Lemma temap_call_inv k c :
  temap_control_inv c ->
  exists c', TemapControl.call k c = Ok c' /\ temap_control_inv c'.
Proof.
  intros (Hopen & Hnone & Hone).
  destruct c as [[|] ch n]; simpl in *.
  - specialize (Hnone eq_refl) as ->.
    destruct k; simpl; eexists; (split; [reflexivity|]); repeat split; simpl;
      try done; try lia.
  - specialize (Hopen eq_refl) as ->.
    destruct k; simpl; eexists; (split; [reflexivity|]); repeat split; simpl;
      try done; try lia.
Qed.

(** X18. In package [temap], every sequence of [StopCleaner],
    [StartCleaner] and [RestartCleaner] calls on a new map returns without
    panic (no channel is closed twice), never runs two cleaners, and runs
    none when stopped. *)
Theorem Temap_cleaner_control_is_safe (ks : list control_call) :
  exists c,
    TemapControl.run_calls ks TemapControl.New = Ok c
    /\ (TemapControl.cleaners c <= 1)%nat
    /\ (TemapControl.stopped c = true -> TemapControl.cleaners c = 0%nat).
Proof.
  assert (forall c0, temap_control_inv c0 ->
            exists c, TemapControl.run_calls ks c0 = Ok c /\ temap_control_inv c) as Hrun.
  { induction ks as [|k ks IH]; intros c0 Hinv; simpl; [eauto|].
    destruct (temap_call_inv k c0 Hinv) as (c1 & -> & Hinv1). simpl. eauto. }
  destruct (Hrun TemapControl.New) as (c & Hc & Hopen & Hnone & Hone).
  { repeat split; simpl; done || lia. }
  eauto.
Qed.

(** X19. In package [temap], [New] starts no cleaner goroutine: it sets
    [stopCh] and leaves [stopped] false, so that [startCleaner] returns at
    its guard, and [StartCleaner] calls change nothing. A cleaner runs only
    after a [StopCleaner] or [RestartCleaner]; [RestartCleaner] on a new
    map starts one. *)
Theorem Temap_New_starts_no_cleaner (ks : list control_call) :
  TemapControl.cleaners TemapControl.New = 0%nat
  /\ (Forall (fun k => k = CallStartCleaner) ks ->
        TemapControl.run_calls ks TemapControl.New = Ok TemapControl.New)
  /\ (forall c, TemapControl.run_calls ks TemapControl.New = Ok c ->
        TemapControl.cleaners c = 1%nat -> Exists stops ks)
  /\ (exists c, TemapControl.RestartCleaner TemapControl.New = Ok c
                /\ TemapControl.cleaners c = 1%nat
                /\ TemapControl.stopped c = false).
Proof.
  split; [reflexivity|]. split; [|split].
  - induction 1 as [|k ks -> _ IH]; [done|]. simpl. exact IH.
  - induction ks as [|k ks IH]; intros c; simpl.
    + by intros [= <-].
    + destruct k; simpl.
      * intros _ _. left. by left.
      * intros Hc Hone. right. by apply (IH c).
      * intros _ _. left. by right.
  - eexists. split; [reflexivity|]. done.
Qed.


Lemma main_call_closed k c c' :
  main_pool_closed c -> MainControl.call k c = Ok c' -> main_pool_closed c'.
Proof.
  intros (Hq & Hw & Hopen & Hnone & Hone).
  destruct c as [[|] ch n ew q w]; simpl in *; subst.
  - specialize (Hnone eq_refl) as ->.
    destruct k; simpl; intros [= <-]; repeat split; simpl; done || lia.
  - specialize (Hopen eq_refl) as ->.
    destruct k; simpl; intros [= <-]; repeat split; simpl; done || lia.
Qed.

Lemma main_calls_closed ks : forall c c',
  main_pool_closed c -> MainControl.run_calls ks c = Ok c' -> main_pool_closed c'.
Proof.
  induction ks as [|k ks IH]; intros c c' Hc; simpl.
  - by intros [= <-].
  - intros (c1 & Hk & Hr)%bind_Ok_inv. eapply IH; [|exact Hr].
    by eapply main_call_closed.
Qed.

(** X20. In package [main], [New] starts one cleaner and [workerCount]
    workers (4 when [workerCount <= 0]). After a first [StopCleaner] or
    [RestartCleaner] the expire queue is closed and no worker runs, also
    after [StartCleaner]; a later [StopCleaner] of a running cleaner then
    panics (close of closed channel). *)
Theorem Main_worker_pool_is_not_restarted (workerCount : Z) (ks : list control_call) :
  let c0 := MainControl.New workerCount in
  (MainControl.cleaners c0 = 1%nat
   /\ MainControl.workers c0
      = Z.to_nat (if bool_decide (workerCount <= 0) then 4 else workerCount)
   /\ MainControl.expireQueue c0 = Some ChanOpen)
  /\ (forall c, MainControl.run_calls ks c0 = Ok c -> Exists stops ks ->
        MainControl.workers c = 0%nat
        /\ MainControl.expireQueue c = Some ChanClosed
        /\ (MainControl.cleaners c <= 1)%nat
        /\ (MainControl.stopped c = false ->
              MainControl.StopCleaner c = Panic
              /\ MainControl.RestartCleaner c = Panic))
  /\ (exists c, MainControl.RestartCleaner c0 = Ok c
                /\ MainControl.stopped c = false
                /\ MainControl.cleaners c = 1%nat).
Proof.
  intros c0. split; [done|]. split.
  - assert (forall c1, MainControl.call CallStopCleaner c0 = Ok c1
                       \/ MainControl.call CallRestartCleaner c0 = Ok c1 ->
                       main_pool_closed c1) as Hfirst.
    { intros c1 [[= <-]|[= <-]]; repeat split; simpl; done || lia. }
    intros c Hrun Hstops.
    assert (main_pool_closed c) as (Hq & Hw & Hopen & Hnone & Hone).
    { revert Hrun. induction Hstops as [k ks Hk|k ks Hks IH]; simpl.
      - intros (c1 & Hc1 & Hr)%bind_Ok_inv.
        eapply main_calls_closed; [|exact Hr].
        apply Hfirst. destruct Hk as [-> | ->]; auto.
      - intros (c1 & Hc1 & Hr)%bind_Ok_inv.
        destruct k.
        + eapply main_calls_closed; [|exact Hr]. apply Hfirst. auto.
        + injection Hc1 as <-. by apply IH.
        + eapply main_calls_closed; [|exact Hr]. apply Hfirst. auto. }
    split; [done|]. split; [done|]. split; [done|].
    intros Hrunning. specialize (Hopen Hrunning).
    unfold MainControl.RestartCleaner, MainControl.StopCleaner.
    rewrite Hrunning, Hopen, Hq. done.
  - eexists. split; [reflexivity|]. done.
Qed.
End control_proofs.

(** ** TTLMap *)

Section ttl_size.
Context {V : Type}.
Implicit Types (m : TTLMap.TTLMap V) (key : string).

Lemma wrap_int64_add a d : wrap_int64 (wrap_int64 a + d) = wrap_int64 (a + d).
Proof. unfold wrap_int64. dlia. Qed.

Lemma size_ok_insert_new m key itm cb ts :
  TTLMap.items m !! key = None -> TTLMap.size_ok m ->
  TTLMap.size_ok (TTLMap.mkTTLMap (<[key := itm]> (TTLMap.items m)) cb
                    (TTLMap.AddInt64 (TTLMap.size m) 1) ts).
Proof.
  unfold TTLMap.size_ok, TTLMap.AddInt64. simpl. intros Hk ->.
  rewrite map_size_insert_None by done. rewrite wrap_int64_add. f_equal. lia.
Qed.

Lemma size_ok_insert_old m key itm itm' cb ts :
  TTLMap.items m !! key = Some itm -> TTLMap.size_ok m ->
  TTLMap.size_ok (TTLMap.mkTTLMap (<[key := itm']> (TTLMap.items m)) cb
                    (TTLMap.size m) ts).
Proof.
  unfold TTLMap.size_ok. simpl. intros Hk ->.
  by rewrite map_size_insert_Some.
Qed.

Lemma map_size_delete_present {A} (its : gmap string A) key x :
  its !! key = Some x -> base.size its = S (base.size (delete key its)).
Proof.
  intros Hk. rewrite <- (insert_delete_id its key x Hk) at 1.
  apply map_size_insert_None, lookup_delete_eq.
Qed.

Lemma size_ok_delete m key itm cb ts :
  TTLMap.items m !! key = Some itm -> TTLMap.size_ok m ->
  TTLMap.size_ok (TTLMap.mkTTLMap (delete key (TTLMap.items m)) cb
                    (TTLMap.AddInt64 (TTLMap.size m) (-1)) ts).
Proof.
  unfold TTLMap.size_ok, TTLMap.AddInt64. simpl. intros Hk ->.
  rewrite (map_size_delete_present _ _ _ Hk). rewrite wrap_int64_add. f_equal. lia.
Qed.

Lemma RemoveMultiple_loop_count (keys : list string) :
  forall (its : gmap string (TTLMap.item V)) ts removed its' ts' removed',
  TTLMap.RemoveMultiple_loop keys (its, ts, removed) = (its', ts', removed') ->
  Z.of_nat (base.size its) + removed = Z.of_nat (base.size its') + removed'
  /\ (forall k, its' !! k = if decide (k ∈ keys) then None else its !! k).
Proof.
  unfold TTLMap.RemoveMultiple_loop.
  induction keys as [|key keys IH]; intros its ts removed its' ts' removed'; simpl.
  - intros [= <- <- <-]. split; [done|]. intros k.
    destruct (decide (k ∈ [])) as [Hin|_]; [by apply elem_of_nil in Hin|done].
  - destruct (its !! key) as [itm|] eqn:Hk.
    + intros Hr. apply IH in Hr as [Hcount Hlook].
      rewrite (map_size_delete_present _ _ _ Hk). split; [lia|].
      intros k. rewrite Hlook.
      destruct (decide (k = key)) as [->|Hne].
      * rewrite lookup_delete_eq.
        rewrite (decide_True (P := key ∈ key :: keys)) by (by left).
        by destruct (decide (key ∈ keys)).
      * rewrite lookup_delete_ne by done.
        destruct (decide (k ∈ keys)) as [Hin|Hnin].
        -- by rewrite decide_True by (by right).
        -- rewrite decide_False; [done|]. by intros [?|?]%elem_of_cons.
    + intros Hr. apply IH in Hr as [Hcount Hlook]. split; [done|].
      intros k. rewrite Hlook.
      destruct (decide (k ∈ keys)) as [Hin|Hnin].
      * by rewrite decide_True by (by right).
      * destruct (decide (k = key)) as [->|Hne].
        -- by rewrite decide_True by (by left).
        -- rewrite decide_False; [done|]. by intros [?|?]%elem_of_cons.
Qed.

(** [expire] keeps the counter right in whatever state it runs. *)
Lemma expire_size_ok key m :
  TTLMap.size_ok m -> TTLMap.size_ok (fst (TTLMap.expire key m)).
Proof.
  intros Hok. unfold TTLMap.expire.
  destruct (TTLMap.items m !! key) as [itm|] eqn:Hk; simpl; [|done].
  by eapply size_ok_delete.
Qed.

Lemma step_size_ok (o : TTLMap.op V) m :
  TTLMap.size_ok m -> TTLMap.size_ok (TTLMap.step o m).
Proof.
  intros Hok. destruct o as [key v ttl now|key v|key|keys| |key x now|id|id]; simpl.
  - unfold TTLMap.SetTemporary, TTLMap.AfterFunc.
    destruct (TTLMap.items m !! key) as [itm|] eqn:Hk.
    + by eapply size_ok_insert_old.
    + by apply size_ok_insert_new.
  - unfold TTLMap.SetPermanent.
    destruct (TTLMap.items m !! key) as [itm|] eqn:Hk.
    + by eapply size_ok_insert_old.
    + by apply size_ok_insert_new.
  - unfold TTLMap.Remove.
    destruct (TTLMap.items m !! key) as [itm|] eqn:Hk; simpl; [|done].
    by eapply size_ok_delete.
  - unfold TTLMap.RemoveMultiple.
    destruct (TTLMap.RemoveMultiple_loop keys (TTLMap.items m, TTLMap.timers m, 0))
      as [[its ts] removed] eqn:Hloop. simpl.
    apply RemoveMultiple_loop_count in Hloop as [Hcount _].
    unfold TTLMap.size_ok, TTLMap.AddInt64 in *. simpl. rewrite Hok.
    rewrite wrap_int64_add. f_equal. lia.
  - done.
  - unfold TTLMap.SetExpiry, TTLMap.AfterFunc.
    destruct (TTLMap.items m !! key) as [itm|] eqn:Hk; simpl; [|done].
    case_bool_decide; simpl.
    + by eapply size_ok_delete.
    + by eapply size_ok_insert_old.
  - unfold TTLMap.fire.
    destruct (TTLMap.timers m !! id) as [[k []]|]; done.
  - unfold TTLMap.timer_func.
    destruct (TTLMap.timers m !! id) as [[k []]|]; simpl; try done.
    by apply expire_size_ok.
Qed.

(** X21. In [TTLMap], after every sequence of calls, timer firings and runs
    of timer functions on a new map, the atomic counter that [Size] returns
    is the number of keys of the map (as [int64]). *)
Theorem TTLMap_Size_counts_the_keys (ops : list (TTLMap.op V)) cb :
  TTLMap.Size (TTLMap.run ops (TTLMap.New cb))
  = wrap_int64 (Z.of_nat (base.size (TTLMap.items (TTLMap.run ops (TTLMap.New cb))))).
Proof.
  assert (forall m, TTLMap.size_ok m -> TTLMap.size_ok (TTLMap.run ops m)) as Hrun.
  { unfold TTLMap.run. induction ops as [|o ops IH]; intros m Hok; simpl; [done|].
    by apply IH, step_size_ok. }
  apply (Hrun (TTLMap.New cb)). done.
Qed.
End ttl_size.

Section ttl_timers.
Context {V : Type}.
Implicit Types (m : TTLMap.TTLMap V) (key : string)
  (its : gmap string (TTLMap.item V)) (ts : gmap nat TTLMap.timer_state).

(** [Stop] leaves a timer that has fired as it is. *)
Lemma stop_timer_fired tm ts id key :
  ts !! id = Some (TTLMap.mkTimer key TTLMap.TimerFired) ->
  TTLMap.stop_timer tm ts !! id = Some (TTLMap.mkTimer key TTLMap.TimerFired).
Proof.
  intros Hid. destruct tm as [id0|]; simpl; [|done]. unfold TTLMap.Stop.
  destruct (decide (id0 = id)) as [->|Hne].
  - by rewrite lookup_alter_eq, Hid.
  - by rewrite lookup_alter_ne.
Qed.

(** Stopping a timer for [key] leaves the timers of the other items. *)
Lemma stop_timer_keeps key its ts tm :
  owned_except key its ts ->
  (forall id tr, tm = Some id -> ts !! id = Some tr -> TTLMap.timer_key tr = key) ->
  owned_except key its (TTLMap.stop_timer tm ts).
Proof.
  intros Ho Hk key' itm id Hne Hk' Htm.
  destruct (Ho _ _ _ Hne Hk' Htm) as (s & Hs & Hl). exists s. split; [|done].
  destruct tm as [id0|]; simpl; [|done]. unfold TTLMap.Stop.
  rewrite lookup_alter_ne; [done|]. intros ->.
  specialize (Hk id _ eq_refl Hs). simpl in Hk. congruence.
Qed.

Lemma live_except m key :
  TTLMap.timers_live m -> owned_except key (TTLMap.items m) (TTLMap.timers m).
Proof. intros Hl key' itm id _ Hk Htm. by eapply Hl. Qed.

(** Stopping the timer of the item of [key], if any. *)
Lemma release m key :
  TTLMap.timers_live m ->
  owned_except key (TTLMap.items m)
    (match TTLMap.items m !! key with
     | Some itm => TTLMap.stop_timer (TTLMap.timer itm) (TTLMap.timers m)
     | None => TTLMap.timers m
     end).
Proof.
  intros Hl. pose proof (live_except m key Hl) as Ho.
  destruct (TTLMap.items m !! key) as [it0|] eqn:Hk; [|done].
  apply stop_timer_keeps; [done|]. intros id tr Htm Htr.
  destruct (Hl _ _ _ Hk Htm) as (s & Hs & _). rewrite Hs in Htr.
  by injection Htr as <-.
Qed.

Lemma install_plain key its ts v x cb sz :
  owned_except key its ts ->
  TTLMap.timers_live
    (TTLMap.mkTTLMap (<[key := TTLMap.mkItem v x None]> its) cb sz ts).
Proof.
  intros Ho key' itm id. simpl.
  intros [[<- <-]|[Hne Hk']]%lookup_insert_Some Htm; [done|].
  by eapply Ho.
Qed.

Lemma install_timed key its ts v x cb sz :
  owned_except key its ts ->
  TTLMap.timers_live
    (TTLMap.mkTTLMap
       (<[key := TTLMap.mkItem v x (Some (fresh (dom ts)))]> its) cb sz
       (<[fresh (dom ts) := TTLMap.mkTimer key TTLMap.TimerWaiting]> ts)).
Proof.
  intros Ho.
  assert (ts !! fresh (dom ts) = None) as Hfresh
    by (apply not_elem_of_dom, is_fresh).
  intros key' itm id. simpl.
  intros [[<- <-]|[Hne Hk']]%lookup_insert_Some Htm.
  - simpl in Htm. injection Htm as <-. rewrite lookup_insert_eq.
    eexists. split; [done|]. by left.
  - destruct (Ho _ _ _ (not_eq_sym Hne) Hk' Htm) as (s & Hs & Hl).
    exists s. split; [|done]. rewrite lookup_insert_ne; [done|].
    intros <-. congruence.
Qed.

Lemma uninstall key its ts cb sz :
  owned_except key its ts ->
  TTLMap.timers_live (TTLMap.mkTTLMap (delete key its) cb sz ts).
Proof.
  intros Ho key' itm id. simpl.
  intros [Hne Hk']%lookup_delete_Some Htm. by eapply Ho.
Qed.

Lemma RemoveMultiple_loop_live (keys : list string) :
  forall its ts removed its' ts' removed' cb sz,
  TTLMap.RemoveMultiple_loop keys (its, ts, removed) = (its', ts', removed') ->
  TTLMap.timers_live (TTLMap.mkTTLMap its cb sz ts) ->
  TTLMap.timers_live (TTLMap.mkTTLMap its' cb sz ts').
Proof.
  unfold TTLMap.RemoveMultiple_loop.
  induction keys as [|key keys IH]; intros its ts removed its' ts' removed' cb sz; simpl.
  - by intros [= <- <- <-].
  - intros Hr Hlive. pose proof (release _ key Hlive) as Hrel. simpl in Hrel.
    destruct (its !! key) as [itm|] eqn:Hk.
    + eapply IH; [exact Hr|]. by apply uninstall.
    + by eapply IH.
Qed.

Lemma step_timers_live (o : TTLMap.op V) m :
  TTLMap.timers_live m -> TTLMap.timers_live (TTLMap.step o m).
Proof.
  intros Hlive.
  destruct o as [key v ttl now|key v|key|keys| |key x now|id|id]; simpl.
  - unfold TTLMap.SetTemporary, TTLMap.AfterFunc.
    by apply install_timed, release.
  - unfold TTLMap.SetPermanent. by apply install_plain, release.
  - unfold TTLMap.Remove. pose proof (release m key Hlive) as Hrel.
    destruct (TTLMap.items m !! key) as [itm|]; simpl; [|done].
    by apply uninstall.
  - unfold TTLMap.RemoveMultiple.
    destruct (TTLMap.RemoveMultiple_loop keys (TTLMap.items m, TTLMap.timers m, 0))
      as [[its ts] removed] eqn:Hloop. simpl.
    eapply RemoveMultiple_loop_live; [exact Hloop|]. by destruct m.
  - unfold TTLMap.RemoveAll. intros key itm id Hk. simpl in Hk.
    by rewrite lookup_empty in Hk.
  - unfold TTLMap.SetExpiry, TTLMap.AfterFunc.
    pose proof (release m key Hlive) as Hrel.
    destruct (TTLMap.items m !! key) as [itm|]; simpl; [|done].
    case_bool_decide; simpl; [by apply uninstall|by apply install_timed].
  - unfold TTLMap.fire.
    destruct (TTLMap.timers m !! id) as [[k s0]|] eqn:Hid; [|done].
    destruct s0; simpl; try done.
    intros key itm id' Hk Htm. simpl in *.
    destruct (Hlive _ _ _ Hk Htm) as (s & Hs & Hl).
    destruct (decide (id' = id)) as [->|Hne].
    + rewrite Hs in Hid. injection Hid as -> ->. rewrite lookup_insert_eq.
      eexists. split; [done|]. by right.
    + exists s. by rewrite lookup_insert_ne.
  - unfold TTLMap.timer_func.
    destruct (TTLMap.timers m !! id) as [[k s0]|] eqn:Hid; [|done].
    destruct s0; simpl; try done.
    assert (forall key itm id', key <> k -> TTLMap.items m !! key = Some itm ->
              TTLMap.timer itm = Some id' ->
              exists s, <[id := TTLMap.mkTimer k TTLMap.TimerDone]> (TTLMap.timers m) !! id'
                        = Some (TTLMap.mkTimer key s) /\ TTLMap.live s) as Hother.
    { intros key itm id' Hne Hk Htm.
      destruct (Hlive _ _ _ Hk Htm) as (s & Hs & Hl). exists s. split; [|done].
      rewrite lookup_insert_ne; [done|]. intros <-. congruence. }
    unfold TTLMap.expire. simpl.
    destruct (TTLMap.items m !! k) as [itm0|] eqn:Hk0; simpl.
    + intros key itm id'. simpl. intros [Hne Hk]%lookup_delete_Some Htm.
      by eapply Hother.
    + intros key itm id'. simpl. intros Hk Htm.
      eapply Hother; [|done..]. intros ->. congruence.
Qed.

Lemma step_untimed_permanent (o : TTLMap.op V) m :
  TTLMap.untimed_permanent m -> TTLMap.untimed_permanent (TTLMap.step o m).
Proof.
  intros Hu.
  assert (forall its cb sz ts,
            (forall k itm, its !! k = Some itm -> TTLMap.items m !! k = Some itm) ->
            TTLMap.untimed_permanent (TTLMap.mkTTLMap its cb sz ts)) as Hsub.
  { intros its cb sz ts Hin k itm Hk Htm. simpl in Hk.
    apply (Hu k itm); [by apply Hin|done]. }
  assert (forall key itm0 cb sz ts,
            (TTLMap.timer itm0 = None -> TTLMap.expiration itm0 = 0) ->
            TTLMap.untimed_permanent
              (TTLMap.mkTTLMap (<[key := itm0]> (TTLMap.items m)) cb sz ts)) as Hins.
  { intros key itm0 cb sz ts H0 k itm. simpl.
    intros [[<- <-]|[Hne Hk]]%lookup_insert_Some Htm; [by apply H0|by eapply Hu]. }
  destruct o as [key v ttl now|key v|key|keys| |key x now|id|id]; simpl.
  - unfold TTLMap.SetTemporary, TTLMap.AfterFunc. by apply Hins.
  - unfold TTLMap.SetPermanent. by apply Hins.
  - unfold TTLMap.Remove.
    destruct (TTLMap.items m !! key) as [itm|]; simpl; [|done].
    apply Hsub. by intros k itm' [_ ?]%lookup_delete_Some.
  - unfold TTLMap.RemoveMultiple.
    destruct (TTLMap.RemoveMultiple_loop keys (TTLMap.items m, TTLMap.timers m, 0))
      as [[its ts] removed] eqn:Hloop. simpl.
    apply RemoveMultiple_loop_count in Hloop as [_ Hlook].
    apply Hsub. intros k itm. rewrite Hlook. by destruct (decide (k ∈ keys)).
  - unfold TTLMap.RemoveAll. intros k itm Hk. simpl in Hk.
    by rewrite lookup_empty in Hk.
  - unfold TTLMap.SetExpiry, TTLMap.AfterFunc.
    destruct (TTLMap.items m !! key) as [itm|]; simpl; [|done].
    case_bool_decide; simpl.
    + apply Hsub. by intros k itm' [_ ?]%lookup_delete_Some.
    + by apply Hins.
  - unfold TTLMap.fire.
    destruct (TTLMap.timers m !! id) as [[k []]|]; done.
  - unfold TTLMap.timer_func.
    destruct (TTLMap.timers m !! id) as [[k []]|]; simpl; try done.
    unfold TTLMap.expire. simpl.
    destruct (TTLMap.items m !! k) as [itm0|]; simpl.
    + apply Hsub. by intros k' itm' [_ ?]%lookup_delete_Some.
    + by apply Hsub.
Qed.

(** The function of a timer for [key] that has fired, run on a map that
    holds an item for [key]. *)
Lemma timer_func_late id key m itm :
  TTLMap.timers m !! id = Some (TTLMap.mkTimer key TTLMap.TimerFired) ->
  TTLMap.items m !! key = Some itm ->
  TTLMap.timer_func id m
  = (TTLMap.mkTTLMap (delete key (TTLMap.items m)) (TTLMap.callback m)
       (TTLMap.AddInt64 (TTLMap.size m) (-1))
       (<[id := TTLMap.mkTimer key TTLMap.TimerDone]> (TTLMap.timers m)),
     TTLMap.call_callback m key (TTLMap.value itm)).
Proof.
  intros Hid Hk. unfold TTLMap.timer_func. rewrite Hid. simpl.
  unfold TTLMap.expire. simpl. by rewrite Hk.
Qed.

(** X22. In [TTLMap], after every sequence of calls, timer firings and runs
    of timer functions on a new map, the timer of every item is a timer for
    the key of the item that waits or has fired, and an item without a
    timer is permanent. [Stop] does not reach a timer that has fired: when
    [SetPermanent] or [SetTemporary] replaces the item after its timer
    fired, the function of the timer still deletes the key, with the new
    item, a permanent one too, and the callback gets the new value. *)
Theorem TTLMap_Stop_misses_a_fired_timer (ops : list (TTLMap.op V)) cb :
  let m := TTLMap.run ops (TTLMap.New cb) in
  TTLMap.timers_live m
  /\ TTLMap.untimed_permanent m
  /\ (forall id key v, TTLMap.timers m !! id
                       = Some (TTLMap.mkTimer key TTLMap.TimerFired) ->
        let m1 := TTLMap.SetPermanent key v m in
        TTLMap.Get key m1 = (Some v, true)
        /\ TTLMap.items m1 !! key = Some (TTLMap.mkItem v 0 None)
        /\ TTLMap.Get key (fst (TTLMap.timer_func id m1)) = (None, false)
        /\ snd (TTLMap.timer_func id m1) = TTLMap.call_callback m key v)
  /\ (forall id key v ttl now, TTLMap.timers m !! id
                               = Some (TTLMap.mkTimer key TTLMap.TimerFired) ->
        let m1 := TTLMap.SetTemporary key v ttl now m in
        TTLMap.Get key m1 = (Some v, true)
        /\ TTLMap.Get key (fst (TTLMap.timer_func id m1)) = (None, false)
        /\ snd (TTLMap.timer_func id m1) = TTLMap.call_callback m key v).
Proof.
  intros m.
  assert (TTLMap.timers_live m /\ TTLMap.untimed_permanent m) as [Hlive Hun].
  { assert (TTLMap.timers_live (TTLMap.New cb)
            /\ TTLMap.untimed_permanent (TTLMap.New cb)) as H0.
    { split; intros key itm; simpl; by rewrite lookup_empty. }
    unfold m, TTLMap.run. revert H0. generalize (TTLMap.New cb).
    induction ops as [|o ops IH]; intros m0 [H0 H1]; simpl; [done|].
    apply IH. split; [by apply step_timers_live|by apply step_untimed_permanent]. }
  split; [done|]. split; [done|]. split.
  - intros id key v Hid m1.
    assert (TTLMap.items m1 !! key = Some (TTLMap.mkItem v 0 None)) as Hk
      by (unfold m1, TTLMap.SetPermanent; simpl; apply lookup_insert_eq).
    assert (TTLMap.timers m1 !! id = Some (TTLMap.mkTimer key TTLMap.TimerFired)) as Hid1.
    { unfold m1, TTLMap.SetPermanent. simpl.
      destruct (TTLMap.items m !! key) as [it0|]; [|done]. by apply stop_timer_fired. }
    split; [by unfold TTLMap.Get; rewrite Hk|]. split; [done|].
    rewrite (timer_func_late id key m1 _ Hid1 Hk). simpl.
    unfold TTLMap.Get. simpl. by rewrite lookup_delete_eq.
  - intros id key v ttl now Hid m1.
    assert (exists x tm, TTLMap.items m1 !! key = Some (TTLMap.mkItem v x tm)) as (x & tm & Hk).
    { unfold m1, TTLMap.SetTemporary, TTLMap.AfterFunc. simpl. eexists _, _.
      apply lookup_insert_eq. }
    assert (TTLMap.timers m1 !! id = Some (TTLMap.mkTimer key TTLMap.TimerFired)) as Hid1.
    { unfold m1, TTLMap.SetTemporary, TTLMap.AfterFunc. simpl.
      set (ts1 := match TTLMap.items m !! key with
                  | Some it => TTLMap.stop_timer (TTLMap.timer it) (TTLMap.timers m)
                  | None => TTLMap.timers m
                  end).
      assert (ts1 !! id = Some (TTLMap.mkTimer key TTLMap.TimerFired)) as H1.
      { unfold ts1. destruct (TTLMap.items m !! key) as [it0|]; [|done].
        by apply stop_timer_fired. }
      rewrite lookup_insert_ne; [done|]. intros Heq.
      assert (ts1 !! fresh (dom ts1) = None) as Hfresh
        by (apply not_elem_of_dom, is_fresh).
      rewrite Heq in Hfresh. congruence. }
    split; [by unfold TTLMap.Get; rewrite Hk|].
    rewrite (timer_func_late id key m1 _ Hid1 Hk). simpl.
    unfold TTLMap.Get. simpl. by rewrite lookup_delete_eq.
Qed.
End ttl_timers.

Section ttl_batch.
Context {V : Type}.
Implicit Types (m : TTLMap.TTLMap V) (key : string).

Lemma GetMultiple_fold m (keys : list string) : forall (acc : gmap string V) k,
  fold_left (fun result key =>
               match TTLMap.items m !! key with
               | Some itm => <[key := TTLMap.value itm]> result
               | None => result
               end) keys acc !! k
  = if decide (k ∈ keys) then
      match TTLMap.items m !! k with
      | Some itm => Some (TTLMap.value itm)
      | None => acc !! k
      end
    else acc !! k.
Proof.
  induction keys as [|key keys IH]; intros acc k; simpl.
  - destruct (decide (k ∈ [])) as [Hin|_]; [by apply elem_of_nil in Hin|done].
  - rewrite IH. destruct (decide (k ∈ keys)) as [Hin|Hnin].
    + rewrite decide_True by (by right).
      destruct (TTLMap.items m !! k) as [itm|] eqn:Hk; [done|].
      destruct (TTLMap.items m !! key) as [itm'|] eqn:Hk'; [|done].
      rewrite lookup_insert_ne; [done|]. intros <-. congruence.
    + destruct (decide (k = key)) as [->|Hne].
      * rewrite decide_True by (by left).
        destruct (TTLMap.items m !! key) as [itm|]; [|done].
        by rewrite lookup_insert_eq.
      * rewrite decide_False by (by intros [?|?]%elem_of_cons).
        destruct (TTLMap.items m !! key) as [itm|]; [|done].
        by rewrite lookup_insert_ne.
Qed.

(** X23. [TTLMap.GetMultiple] returns, for each of the given keys, what
    [Get] returns for it, and nothing for absent keys and other keys. *)
Theorem TTLMap_GetMultiple_agrees_with_Get (keys : list string) m k :
  TTLMap.GetMultiple keys m !! k
  = if decide (k ∈ keys) then fst (TTLMap.Get k m) else None.
Proof.
  unfold TTLMap.GetMultiple, TTLMap.Get. rewrite GetMultiple_fold.
  rewrite lookup_empty. by destruct (TTLMap.items m !! k).
Qed.

(** X24. [TTLMap.RemoveMultiple] deletes the given keys and no other, and
    returns the number of keys it deleted, a key given twice counting
    once; the counter of [Size] goes down by that number. *)
Theorem TTLMap_RemoveMultiple_counts_removed_keys (keys : list string) m :
  exists m' removed,
    TTLMap.RemoveMultiple keys m = (m', removed)
    /\ (forall k, TTLMap.items m' !! k
                  = if decide (k ∈ keys) then None else TTLMap.items m !! k)
    /\ (forall k, k ∈ keys -> TTLMap.Get k m' = (None, false))
    /\ removed = Z.of_nat (base.size (TTLMap.items m))
                 - Z.of_nat (base.size (TTLMap.items m'))
    /\ TTLMap.Size m' = TTLMap.AddInt64 (TTLMap.Size m) (- removed).
Proof.
  unfold TTLMap.RemoveMultiple.
  destruct (TTLMap.RemoveMultiple_loop keys (TTLMap.items m, TTLMap.timers m, 0))
    as [[its ts] removed] eqn:Hloop.
  apply RemoveMultiple_loop_count in Hloop as [Hcount Hlook].
  eexists _, _. split; [done|]. simpl. split; [done|]. split.
  - intros k Hk. unfold TTLMap.Get. simpl. rewrite Hlook.
    by rewrite decide_True.
  - split; [lia|done].
Qed.
End ttl_batch.

(** ** The properties above on concrete maps *)

Lemma demo_actions_no_sentinel : Forall no_sentinel_action demo_actions.
Proof. repeat constructor; simpl; vm_compute; discriminate. Qed.

Lemma demo_actions_keep_entries : Forall keeps_entries demo_actions.
Proof. repeat constructor. Qed.

Lemma Main_keeps_heap_and_store_consistent_witness :
  exists t, run_actions PkgMain demo_actions (New None) = Ok t
            /\ wf t /\ heap_store_consistent t.
Proof.
  exact (Main_keeps_heap_and_store_consistent demo_actions None
           demo_actions_no_sentinel).
Defined.

Lemma Main_counters_account_for_entries_witness :
  exists t, run_actions PkgMain demo_actions (New None) = Ok t
    /\ wrap_uint64 (added (stats t) - removed (stats t) - expired (stats t))
       = wrap_uint64 (Size t)
    /\ Stats t !! "current"
       = Some (wrap_uint64 (added (stats t) - removed (stats t) - expired (stats t))).
Proof.
  exact (Main_counters_account_for_entries demo_actions None
           demo_actions_no_sentinel demo_actions_keep_entries).
Defined.

Lemma demo_run_actions :
  run_actions PkgMain
    [Call (OpSetTemporary 1%nat 10%nat 100); Call (OpSetTemporary 2%nat 20%nat 50);
     Call (OpSetPermanent 3%nat 30%nat)] (New None) = Ok demo.
Proof. vm_compute. reflexivity. Qed.

Lemma call_leaves_other_keys_witness :
  exists t' r,
    step PkgMain (OpRemove 1%nat) demo = Ok t'
    /\ Get 3%nat demo = Ok (demo, r) /\ Get 3%nat t' = Ok (t', r).
Proof.
  assert (exists t', step PkgMain (OpRemove 1%nat) demo = Ok t') as [t' Hstep].
  { eexists. vm_compute. reflexivity. }
  destruct (call_leaves_other_keys PkgMain _ None (OpRemove 1%nat) demo t' 3%nat
              demo_run_actions Hstep) as (r & Hr & Hr').
  { simpl. discriminate. }
  by exists t', r.
Defined.

Lemma Remove_deletes_the_key_witness :
  wf demo /\
  exists t', Remove_in PkgTemap 1%nat demo = Ok t' /\ wf t'
             /\ Get 1%nat t' = Ok (t', (None, ElementDoesntExist, false)).
Proof.
  split; [exact demo_wf|].
  destruct (Remove_deletes_the_key PkgTemap 1%nat demo demo_wf)
    as (t' & Hr & Hwf & Hget & _).
  by exists t'.
Defined.

Lemma SetTemporary_then_Get_witness :
  wf demo /\
  exists t', SetTemporary_in PkgTemap 1%nat 11%nat 200 demo = Ok t' /\ wf t'
             /\ Get 1%nat t' = Ok (t', (Some 11%nat, 200, true)).
Proof.
  split; [exact demo_wf|].
  destruct (SetTemporary_then_Get PkgTemap 1%nat 11%nat 200 demo demo_wf)
    as (t' & Hr & Hwf & Hget & _).
  { vm_compute. discriminate. }
  { intros e He. vm_compute in He. injection He as <-. simpl. discriminate. }
  by exists t'.
Defined.

Lemma SetExpiry_future_reschedules_witness :
  wf demo /\
  exists t', SetExpiry_in PkgMain 1%nat 300 10 demo = Ok (t', true) /\ wf t'
             /\ Get 1%nat t' = Ok (t', (Some 10%nat, 300, true)).
Proof.
  split; [exact demo_wf|].
  destruct (SetExpiry_future_reschedules PkgMain 1%nat 300 10 demo 0%nat
              (mkElement 1%nat 10%nat 100 1) demo_wf)
    as (t' & Hr & Hwf & Hget & _); try reflexivity.
  { vm_compute. discriminate. }
  by exists t'.
Defined.

Lemma cleaner_pass_expires_due_keys_witness :
  wf demo /\
  exists t' popped,
    drain 60 demo = Ok (t', popped) /\ wf t'
    /\ Get 2%nat t' = Ok (t', (None, ElementDoesntExist, false))
    /\ Get 1%nat t' = Ok (t', (Some 10%nat, 100, true))
    /\ Get 3%nat t' = Ok (t', (Some 30%nat, ElementPermanent, true)).
Proof.
  split; [exact demo_wf|].
  destruct (cleaner_pass_expires_due_keys 60 demo demo_wf)
    as (t' & popped & Hd & Hwf & Hdue & Hstay & _).
  exists t', popped. split; [exact Hd|]. split; [exact Hwf|]. split; [|split].
  - apply (Hdue 2%nat (mkElement 2%nat 20%nat 50 0)); [reflexivity|discriminate|simpl; lia].
  - apply (Hstay 1%nat (mkElement 1%nat 10%nat 100 1)); [reflexivity|simpl; lia].
  - apply (Hstay 3%nat (mkElement 3%nat 30%nat 0 0)); [reflexivity|by left].
Defined.

Lemma heap_Push_keeps_the_heap_witness :
  exists h' m',
    heap.Push (expHeap demo) (elems demo) 2%nat = Ok (h', m')
    /\ h' ≡ₚ 2%nat :: expHeap demo
    /\ heap_indexed h' m' /\ heap_ordered h' m' /\ same_data (elems demo) m'.
Proof.
  apply (heap_Push_keeps_the_heap (expHeap demo) (elems demo) 2%nat
           (mkElement 3%nat 30%nat 0 0)
           (wf_indexed _ demo_wf) (wf_ordered _ demo_wf)); [reflexivity|].
  simpl. intros Hin. apply elem_of_cons in Hin as [Hin|Hin]; [discriminate|].
  apply elem_of_cons in Hin as [Hin|Hin]; [discriminate|].
  by apply elem_of_nil in Hin.
Defined.

Lemma heap_Pop_takes_the_minimum_witness :
  exists h' m' x ex,
    heap.Pop (expHeap demo) (elems demo) = Ok (h', m', x)
    /\ head (expHeap demo) = Some x
    /\ (forall q, q ∈ expHeap demo -> expiry (elems demo) x <= expiry (elems demo) q)
    /\ expHeap demo ≡ₚ x :: h' /\ (x ∉ h')
    /\ m' !! x = Some ex /\ index ex = -1
    /\ heap_indexed h' m' /\ heap_ordered h' m' /\ same_data (elems demo) m'.
Proof.
  apply (heap_Pop_takes_the_minimum (expHeap demo) (elems demo)
           (wf_indexed _ demo_wf) (wf_ordered _ demo_wf)).
  simpl. discriminate.
Defined.

Lemma heap_Remove_takes_the_position_witness :
  exists h' m' ep,
    heap.Remove (expHeap demo) (elems demo) 1 = Ok (h', m', 0%nat)
    /\ expHeap demo ≡ₚ 0%nat :: h' /\ (0%nat ∉ h')
    /\ m' !! 0%nat = Some ep /\ index ep = -1
    /\ heap_indexed h' m' /\ heap_ordered h' m' /\ same_data (elems demo) m'.
Proof.
  exact (heap_Remove_takes_the_position (expHeap demo) (elems demo) 1%nat 0%nat
           (wf_indexed _ demo_wf) (wf_ordered _ demo_wf) eq_refl).
Defined.

Lemma heap_Fix_restores_the_order_witness :
  exists h' m',
    heap.Fix (expHeap demo)
      (<[1%nat := set_ExpiresAt 500 (mkElement 2%nat 20%nat 50 0)]> (elems demo)) 0
    = Ok (h', m')
    /\ h' ≡ₚ expHeap demo
    /\ heap_indexed h' m' /\ heap_ordered h' m'
    /\ same_data
         (<[1%nat := set_ExpiresAt 500 (mkElement 2%nat 20%nat 50 0)]> (elems demo)) m'.
Proof.
  exact (heap_Fix_restores_the_order (expHeap demo) (elems demo) 0%nat 1%nat
           (mkElement 2%nat 20%nat 50 0) 500
           (wf_indexed _ demo_wf) (wf_ordered _ demo_wf) eq_refl eq_refl).
Defined.

Lemma heap_out_of_range_panics_witness :
  heap.Remove (expHeap demo) (elems demo) 2 = Panic
  /\ heap.Remove (expHeap demo) (elems demo) (-1) = Panic.
Proof.
  split.
  - apply (heap_out_of_range_panics (expHeap demo) (elems demo) 2). simpl. lia.
  - apply (heap_out_of_range_panics (expHeap demo) (elems demo) (-1)). simpl. lia.
Defined.

Lemma Main_dispatch_loses_no_entry_witness :
  (exists queue' evs,
     MainCleaner.dispatch (Some (fun _ _ => tt)) (elems demo) [1%nat] ChanOpen [2%nat]
       [1%nat; 0%nat] = Ok (queue', evs)
     /\ (length queue' <= MainCleaner.queue_capacity)%nat
     /\ omap (payload (elems demo)) ([2%nat] ++ [1%nat; 0%nat])
        ≡ₚ calls evs ++ omap (payload (elems demo)) queue'
     /\ length (omap (payload (elems demo)) ([2%nat] ++ [1%nat; 0%nat]))
        = length ([2%nat] ++ [1%nat; 0%nat]))
  /\ ([1%nat; 0%nat] <> [] ->
      MainCleaner.dispatch (Some (fun _ _ => tt)) (elems demo) [1%nat] ChanClosed
        [2%nat] [1%nat; 0%nat] = Panic).
Proof.
  apply (Main_dispatch_loses_no_entry (fun _ _ => tt) (elems demo) [1%nat; 0%nat]
           [1%nat] [2%nat]).
  - intros p Hp. simpl in Hp.
    apply elem_of_cons in Hp as [->|Hp]; [by eexists|].
    apply elem_of_cons in Hp as [->|Hp]; [by eexists|].
    apply elem_of_cons in Hp as [->|Hp]; [by eexists|].
    by apply elem_of_nil in Hp.
  - unfold MainCleaner.queue_capacity. simpl. lia.
Defined.

Lemma Main_dispatch_nil_with_room_witness :
  (exists queue',
     MainCleaner.dispatch None (elems demo) [] ChanOpen [2%nat] [1%nat; 0%nat]
     = Ok (queue', EvSend <$> [1%nat; 0%nat])
     /\ (length queue' <= MainCleaner.queue_capacity)%nat)
  /\ ([1%nat; 0%nat] <> [] ->
      MainCleaner.dispatch None (elems demo) [] ChanClosed [2%nat] [1%nat; 0%nat]
      = Panic).
Proof.
  apply (Main_dispatch_nil_with_room (elems demo) [1%nat; 0%nat] [] [2%nat]).
  unfold MainCleaner.queue_capacity. simpl. lia.
Defined.

Lemma Temap_cleaner_calls_each_expired_entry_witness :
  wf demo /\
  exists t' evs fin,
    TemapCleaner.cleaner_iteration 60 60 demo = Ok (t', evs, fin) /\ wf t'
    /\ fin = Drained [1%nat].
Proof.
  split; [exact demo_wf|].
  destruct (Temap_cleaner_calls_each_expired_entry 60 60 demo demo_wf)
    as (t' & evs & fin & Hit & Hwf & _).
  exists t', evs, fin. split; [exact Hit|]. split; [exact Hwf|].
  revert Hit. vm_compute. by intros [= _ _ <-].
Defined.

Lemma ToMap_agrees_with_Get_witness :
  exists out, ToMap demo = Ok out /\ out !! 1%nat = Some 10%nat
              /\ out !! 4%nat = None /\ Z.of_nat (size out) = 3.
Proof.
  destruct (ToMap_agrees_with_Get _ None demo demo_run_actions)
    as (out & Hout & Hentry & _ & Hsize).
  exists out. split; [exact Hout|]. split; [|split].
  - by rewrite Hentry.
  - by rewrite Hentry.
  - by rewrite Hsize.
Defined.

Lemma cleaner_section_makes_progress_witness :
  wf demo /\
  exists t' ps, cleaner_section 60 60 demo = Ok (t', Drained ps)
                /\ ps <> [] /\ Size t' < Size demo.
Proof.
  split; [exact demo_wf|].
  destruct (cleaner_section_makes_progress 60 60 demo demo_wf)
    as (t' & fin & Hsec & Hwf & Hfin); [lia|lia|].
  assert (exists ps, fin = Drained ps) as [ps ->].
  { revert Hsec. vm_compute. intros [= _ <-]. by eexists. }
  exists t', ps. by destruct Hfin.
Defined.

Lemma earlier_expiry_wakes_the_cleaner_witness :
  wf demo /\
  exists t', Main.SetTemporary 4%nat 40%nat 20 demo = Ok t'
             /\ signals_cleaner 4%nat t' = true.
Proof.
  split; [exact demo_wf|].
  destruct (earlier_expiry_wakes_the_cleaner 4%nat 40%nat 20 0 demo demo_wf)
    as [Hset _].
  - vm_compute. discriminate.
  - intros k e Hne He Htemp.
    destruct (decide (k = 1%nat)) as [->|H1].
    { vm_compute in He. injection He as <-. vm_compute. reflexivity. }
    destruct (decide (k = 2%nat)) as [->|H2].
    { vm_compute in He. injection He as <-. vm_compute. reflexivity. }
    destruct (decide (k = 3%nat)) as [->|H3].
    { vm_compute in He. injection He as <-. by destruct Htemp. }
    exfalso. unfold entry in He. simpl in He.
    rewrite !lookup_insert_ne in He by done. by rewrite lookup_empty in He.
  - apply Hset. intros e He. vm_compute in He. discriminate.
Defined.

Lemma Temap_keeps_wf_when_kinds_are_kept_witness :
  wf demo /\
  exists t', act PkgTemap (Call (OpSetPermanent 3%nat 31%nat)) demo = Ok t'
             /\ wf t' /\ heap_store_consistent t'.
Proof.
  split; [exact demo_wf|].
  apply (Temap_keeps_wf_when_kinds_are_kept (Call (OpSetPermanent 3%nat 31%nat))
           demo demo_wf); [exact I|].
  simpl. intros e He. vm_compute in He. by injection He as <-.
Defined.

Lemma TTLMap_Stop_misses_a_fired_timer_witness :
  TTLMap.timers demo_fired !! 0%nat = Some (TTLMap.mkTimer "a" TTLMap.TimerFired)
  /\ TTLMap.Get "a" (TTLMap.SetPermanent "a" 2%nat demo_fired) = (Some 2%nat, true)
  /\ TTLMap.Get "a"
       (fst (TTLMap.timer_func 0%nat (TTLMap.SetPermanent "a" 2%nat demo_fired)))
     = (None, false).
Proof.
  assert (TTLMap.timers demo_fired !! 0%nat = Some (TTLMap.mkTimer "a" TTLMap.TimerFired)) as Hid
    by (vm_compute; reflexivity).
  split; [exact Hid|].
  destruct (TTLMap_Stop_misses_a_fired_timer
              [TTLMap.OpSetTemporary "a" 1%nat 10 0; TTLMap.OpFire 0%nat] None)
    as (_ & _ & Hperm & _).
  destruct (Hperm 0%nat "a" 2%nat Hid) as (Hget & _ & Hgone & _).
  split; [exact Hget|exact Hgone].
Defined.
